(** * taggui: the tag history and bulk-edit engine of [ImageListModel]

    A shallow embedding of [taggui/models/image_list_model.py].

    Python lists are mutable objects that several owners may reference at
    once: an image's [tags] attribute, and the [tags] field of history items
    on either stack.  The model therefore keeps every tag list in a [heap] of
    list objects and lets images and history items hold locations, so that
    [image.tags.copy()] (a new object), [image.tags = x] (rebinding) and
    [image.tags.sort()] (mutation of a possibly shared object) stay apart.

    Qt signals, sidecar writes and error boxes are recorded in an effect
    log.  The answers of the outside world are inputs: the confirmation
    dialog's reply, the proxy model's filter, [random.shuffle], and which
    [write_text] calls raise [OSError]. *)

From Stdlib Require Import String Ascii Sorted.
From stdpp Require Import base list strings numbers.

Local Open Scope string_scope.
Local Open Scope nat_scope.
Local Open Scope list_scope.
Local Open Scope stdpp_scope.

(** ** Python's [str] and [list] operations used by the model

    A [str] is modelled by its UTF-8 bytes; comparing bytes orders strings
    as comparing code points does. *)

(** [sep.join(parts)] *)
Definition join (sep : string) (parts : list string) : string :=
  String.concat sep parts.

(** [needle in s] *)
Fixpoint contains (needle s : string) : bool :=
  String.prefix needle s ||
  match s with
  | EmptyString => false
  | String _ rest => contains needle rest
  end.

(** [s.replace(old, new)] for a non-empty [old]: occurrences are found from
    the left and do not overlap.  [skip] counts the characters of a matched
    occurrence still to be dropped. *)
Fixpoint replace_from (old new : string) (skip : nat) (s : string) : string :=
  match s with
  | EmptyString => EmptyString
  | String c rest =>
      match skip with
      | S k => replace_from old new k rest
      | O =>
          if String.prefix old s
          then new +:+ replace_from old new (String.length old - 1) rest
          else String c (replace_from old new 0 rest)
      end
  end.

Definition replace (old new s : string) : string := replace_from old new 0 s.

(** [s.split(sep)] for a non-empty [sep]; [cur] is the piece being read. *)
Fixpoint split_from (sep : string) (skip : nat) (cur s : string) : list string :=
  match s with
  | EmptyString => [cur]
  | String c rest =>
      match skip with
      | S k => split_from sep k cur rest
      | O =>
          if String.prefix sep s
          then cur :: split_from sep (String.length sep - 1) EmptyString rest
          else split_from sep 0 (cur +:+ String c EmptyString) rest
      end
  end.

(** [s.split(sep)]: Python raises [ValueError] on an empty separator. *)
Definition split (sep s : string) : option (list string) :=
  match sep with
  | EmptyString => None
  | _ => Some (split_from sep 0 EmptyString s)
  end.

(** The characters for which [str.isspace()] holds, in UTF-8: U+0009 to
    U+000D, U+001C to U+0020, U+0085, U+00A0, U+1680, U+2000 to U+200A,
    U+2028, U+2029, U+202F, U+205F and U+3000. *)
Definition utf8 (bytes : list nat) : string :=
  foldr (λ n s, String (ascii_of_nat n) s) EmptyString bytes.

Definition whitespace : list string :=
  ((λ n, utf8 [n]) <$> seq 9 5 ++ seq 28 5) ++
  [utf8 [194; 133]; utf8 [194; 160]; utf8 [225; 154; 128]] ++
  ((λ n, utf8 [226; 128; n]) <$> seq 128 11 ++ [168; 169; 175]) ++
  [utf8 [226; 129; 159]; utf8 [227; 128; 128]].

(** Drops the characters of [spaces] a string starts with; [skip] counts
    the bytes of a matched character still to be dropped. *)
Fixpoint lstrip_from (spaces : list string) (skip : nat) (s : string) : string :=
  match s with
  | EmptyString => EmptyString
  | String _ rest =>
      match skip with
      | S k => lstrip_from spaces k rest
      | O =>
          match List.find (λ w, String.prefix w s) spaces with
          | Some w => lstrip_from spaces (String.length w - 1) rest
          | None => s
          end
      end
  end.

Definition lstrip (s : string) : string := lstrip_from whitespace 0 s.

Definition rstrip (s : string) : string :=
  String.rev (lstrip_from (String.rev <$> whitespace) 0 (String.rev s)).

(** [s.strip()] *)
Definition strip (s : string) : string := rstrip (lstrip s).

(** [bool(s)]: a string is true when it is not empty. *)
Definition truthy (s : string) : bool :=
  match s with EmptyString => false | _ => true end.

(** Stable insertion sort: [x] goes in front of the first [y] with
    [before x y].  With [before] reflexive, equal elements keep their
    order, as in [sorted] and [list.sort]. *)
Fixpoint insert_by {A} (before : A → A → bool) (x : A) (l : list A) : list A :=
  match l with
  | [] => [x]
  | y :: rest => if before x y then x :: l else y :: insert_by before x rest
  end.

Definition sort_by {A} (before : A → A → bool) (l : list A) : list A :=
  foldr (insert_by before) [] l.

(** [sorted(tags)] *)
Definition sorted (l : list string) : list string := sort_by String.leb l.

(** [sorted(tags, key=lambda tag: tag_counter[tag], reverse=True)]: stable,
    larger counts first. *)
Definition sorted_by_count (tag_counter : string → nat) (l : list string)
  : list string :=
  sort_by (λ x y, Nat.leb (tag_counter y) (tag_counter x)) l.

(** [list(dict.fromkeys(tags))]: first occurrences, in order. *)
Fixpoint dict_fromkeys (l : list string) : list string :=
  match l with
  | [] => []
  | x :: rest => x :: filter (λ y, y ≠ x) (dict_fromkeys rest)
  end.

(** ** Data model *)

(** A location of a list object. *)
Definition loc := nat.

(** [utils.image.Image], without [dimensions] and [thumbnail], which no
    history or bulk-edit code reads.  [tags] references a list object. *)
Record Image := mkImage { path : string; tags : loc }.

(** [HistoryItem]; [history_tags] is its [tags] field, a list of references
    to list objects. *)
Record HistoryItem := mkHistoryItem {
  action_name : string;
  history_tags : list loc;
  should_ask_for_confirmation : bool }.

Inductive StandardButton := Yes | No.

Inductive Exception := ValueError | IndexError.

Inductive Outcome := returned | raised (e : Exception).

(** What the model does to the outside world, in order. *)
Inductive Effect :=
| dataChanged (first last : nat)
| update_undo_and_redo_actions_requested
| write_text (image_path caption : string) (ok : bool)
    (** [image.path.with_suffix('.txt').write_text(caption, ...)];
        [ok = false] when the call raised [OSError] *)
| error_message_box (text : string).

Definition UNDO_STACK_SIZE : nat := 32.

Record ImageListModel := mkModel {
  separator : string;
  heap : list (list string);
  images : list Image;
  undo_stack : list HistoryItem;   (** a [deque(maxlen=UNDO_STACK_SIZE)], oldest first *)
  redo_stack : list HistoryItem;   (** a list, oldest first *)
  os_errors : list bool;           (** whether each coming [write_text] raises [OSError] *)
  effects : list Effect }.

#[global] Instance Image_eq_dec : EqDecision Image.
Proof. solve_decision. Defined.
#[global] Instance HistoryItem_eq_dec : EqDecision HistoryItem.
Proof. solve_decision. Defined.
#[global] Instance StandardButton_eq_dec : EqDecision StandardButton.
Proof. solve_decision. Defined.
#[global] Instance Effect_eq_dec : EqDecision Effect.
Proof. solve_decision. Defined.
#[global] Instance Exception_eq_dec : EqDecision Exception.
Proof. solve_decision. Defined.
#[global] Instance Outcome_eq_dec : EqDecision Outcome.
Proof. solve_decision. Defined.

(** The list object at a location. *)
Definition deref (h : list (list string)) (l : loc) : list string :=
  default [] (h !! l).

(** [image.tags], as a value. *)
Definition tags_of (m : ImageListModel) (image : Image) : list string :=
  deref (heap m) (tags image).

(** Every image's tags, as values, in row order. *)
Definition tag_state (m : ImageListModel) : list (list string) :=
  tags_of m <$> images m.

(** The tags a history item holds, as values. *)
Definition snapshot (m : ImageListModel) (item : HistoryItem)
  : list (list string) :=
  deref (heap m) <$> history_tags item.

Definition with_heap (h : list (list string)) (m : ImageListModel) :=
  mkModel (separator m) h (images m) (undo_stack m) (redo_stack m)
          (os_errors m) (effects m).

Definition with_images (ims : list Image) (m : ImageListModel) :=
  mkModel (separator m) (heap m) ims (undo_stack m) (redo_stack m)
          (os_errors m) (effects m).

Definition with_stacks (undo redo : list HistoryItem) (m : ImageListModel) :=
  mkModel (separator m) (heap m) (images m) undo redo
          (os_errors m) (effects m).

Definition emit (e : Effect) (m : ImageListModel) :=
  mkModel (separator m) (heap m) (images m) (undo_stack m) (redo_stack m)
          (os_errors m) (effects m ++ [e]).

(** [deque.append] on a deque with [maxlen=UNDO_STACK_SIZE]: when the deque
    is full the item at the left end is discarded. *)
Definition deque_append {A} (item : A) (d : list A)
  : list A :=
  let d' := d ++ [item] in drop (length d' - UNDO_STACK_SIZE) d'.

(** [stack[-1]] and [stack.pop()] in one: the rest and the last item. *)
Fixpoint pop {A} (l : list A) : option (list A * A) :=
  match l with
  | [] => None
  | x :: rest =>
      match pop rest with
      | None => Some ([], x)
      | Some (front, y) => Some (x :: front, y)
      end
  end.

(** The state [load_directory] leaves: one new list object per image, both
    stacks cleared.  The directory scan, the dimension probe and the parsing
    of caption files are outside the model: [records] are the image paths
    with their parsed tags, in the order of [self.images]. *)
Definition loaded (sep : string) (records : list (string * list string))
  : ImageListModel :=
  mkModel sep (snd <$> records)
          (imap (λ i r, mkImage (fst r) i) records)
          [] [] [] [].

(** ** [add_to_undo_stack] *)

Definition add_to_undo_stack (name : string) (ask : bool) (m : ImageListModel)
  : ImageListModel :=
  (* tags = [image.tags.copy() for image in self.images] *)
  let copies := tag_state m in
  let item := mkHistoryItem name (seq (length (heap m)) (length copies)) ask in
  emit update_undo_and_redo_actions_requested
       (with_stacks (deque_append item (undo_stack m)) []
                    (with_heap (heap m ++ copies) m)).

(** ** [write_image_tags_to_disk] *)

Definition failed_to_save (image_path : string) : string :=
  "Failed to save tags for " +:+ image_path +:+ ".".

Definition write_image_tags_to_disk (image : Image) (m : ImageListModel)
  : ImageListModel :=
  let caption := join (separator m) (tags_of m image) in
  let raises := default false (head (os_errors m)) in
  let m' := mkModel (separator m) (heap m) (images m) (undo_stack m)
                    (redo_stack m) (tail (os_errors m))
                    (effects m ++ [write_text (path image) caption (negb raises)]) in
  if raises then emit (error_message_box (failed_to_save (path image))) m'
  else m'.

(** ** The loop shared by the bulk edits

    Every bulk edit walks over rows of [self.images]; at each row it may
    leave [image.tags] alone, bind it to a new list object, or mutate the
    list object it references; and it may count the row, which in the source
    always means both [changed_image_indices.append(image_index)] and
    [self.write_image_tags_to_disk(image)]. *)

Inductive Assignment :=
| keep                              (** [image.tags] is not assigned *)
| rebind (new : list string)        (** [image.tags = <a new list>] *)
| in_place (new : list string).     (** [image.tags.sort()], [.extend(..)], [random.shuffle(image.tags)] *)

Record Visit := mkVisit {
  assignment : Assignment;
  counted : bool;      (** appended to [changed_image_indices] and written to disk *)
  removed : nat }.     (** added to [removed_tag_count] *)

(** A loop body: from the row, [image.path] and the value of [image.tags]
    to what the iteration does, or the exception it raises. *)
Definition Body := nat → string → list string → Exception + Visit.

(** [continue] *)
Definition skip : Exception + Visit := inr (mkVisit keep false 0).

(** The model and the locals of a bulk edit when it stops.  When the call
    raised, its locals are gone with it: only [final] and [outcome] are
    then of interest. *)
Record Run := mkRun {
  final : ImageListModel;
  changed_image_indices : list nat;
  removed_tag_count : nat;
  outcome : Outcome }.

Definition assign (i : nat) (image : Image) (a : Assignment) (m : ImageListModel)
  : ImageListModel * Image :=
  match a with
  | keep => (m, image)
  | rebind new =>
      let image' := mkImage (path image) (length (heap m)) in
      (with_images (<[i := image']> (images m)) (with_heap (heap m ++ [new]) m),
       image')
  | in_place new => (with_heap (<[tags image := new]> (heap m)) m, image)
  end.

Fixpoint for_rows (body : Body) (rows : list nat) (m : ImageListModel)
    (changed : list nat) (count : nat) : Run :=
  match rows with
  | [] => mkRun m changed count returned
  | i :: rest =>
      match images m !! i with
      | None => mkRun m changed count (raised IndexError)
      | Some image =>
          match body i (path image) (tags_of m image) with
          | inl e => mkRun m changed count (raised e)
          | inr v =>
              let '(m1, image1) := assign i image (assignment v) m in
              if counted v
              then for_rows body rest (write_image_tags_to_disk image1 m1)
                            (changed ++ [i]) (count + removed v)
              else for_rows body rest m1 changed (count + removed v)
          end
      end
  end.

(** [if changed_image_indices: self.dataChanged.emit(self.index(changed_image_indices[0]),
    self.index(changed_image_indices[-1]))] *)
Definition notify_changed (changed : list nat) (m : ImageListModel)
  : ImageListModel :=
  match changed with
  | [] => m
  | first :: _ => emit (dataChanged first (List.last changed first)) m
  end.

(** The template of the eight bulk edits that enumerate [self.images]:
    snapshot, loop, notification. *)
Definition bulk_edit (name : string) (body : Body) (m : ImageListModel) : Run :=
  let m1 := add_to_undo_stack name true m in
  let r := for_rows body (seq 0 (length (images m1))) m1 [] 0 in
  match outcome r with
  | returned =>
      mkRun (notify_changed (changed_image_indices r) (final r))
            (changed_image_indices r) (removed_tag_count r) returned
  | raised _ => r
  end.

(** [in_filtered_images_only and not self.proxy_image_list_model
    .is_image_in_filtered_images(image)]; the proxy model's answer is the
    input [is_image_in_filtered_images], a function of the image's path and
    tags. *)
Definition filtered_out (in_filtered_images_only : bool)
    (is_image_in_filtered_images : string → list string → bool)
    (image_path : string) (image_tags : list string) : bool :=
  in_filtered_images_only && negb (is_image_in_filtered_images image_path image_tags).

(** ** The bulk edits *)

Definition find_and_replace_body (sep find_text replace_text : string)
    (in_filtered_images_only : bool)
    (is_image_in_filtered_images : string → list string → bool) : Body :=
  λ _ image_path image_tags,
    if filtered_out in_filtered_images_only is_image_in_filtered_images
                    image_path image_tags then skip
    else
      let caption := join sep image_tags in
      if negb (contains find_text caption) then skip
      else
        match split sep (replace find_text replace_text caption) with
        | None => inl ValueError
        | Some new => inr (mkVisit (rebind new) true 0)
        end.

Definition find_and_replace (find_text replace_text : string)
    (in_filtered_images_only : bool)
    (is_image_in_filtered_images : string → list string → bool)
    (m : ImageListModel) : Run :=
  if negb (truthy find_text) then mkRun m [] 0 returned
  else bulk_edit "Find and Replace"
         (find_and_replace_body (separator m) find_text replace_text
            in_filtered_images_only is_image_in_filtered_images) m.

Definition sort_body (sep : string) (order : list string → list string)
    (do_not_reorder_first_tag : bool) : Body :=
  λ _ _ image_tags,
    if (length image_tags <? 2)%nat then skip
    else
      let old_caption := join sep image_tags in
      match do_not_reorder_first_tag, image_tags with
      | true, first_tag :: others =>
          let new := first_tag :: order others in
          inr (mkVisit (rebind new)
                       (negb (String.eqb (join sep new) old_caption)) 0)
      | _, _ =>
          let new := order image_tags in
          inr (mkVisit (in_place new)
                       (negb (String.eqb (join sep new) old_caption)) 0)
      end.

Definition sort_tags_alphabetically (do_not_reorder_first_tag : bool)
    (m : ImageListModel) : Run :=
  bulk_edit "Sort Tags" (sort_body (separator m) sorted do_not_reorder_first_tag) m.

Definition sort_tags_by_frequency (tag_counter : string → nat)
    (do_not_reorder_first_tag : bool) (m : ImageListModel) : Run :=
  bulk_edit "Sort Tags"
    (sort_body (separator m) (sorted_by_count tag_counter) do_not_reorder_first_tag) m.

(** [random_shuffle row l] is the order [random.shuffle] leaves the list
    [l] in when called for that row. *)
Definition shuffle_body (random_shuffle : nat → list string → list string)
    (do_not_reorder_first_tag : bool) : Body :=
  λ row _ image_tags,
    if (length image_tags <? 2)%nat then skip
    else
      match do_not_reorder_first_tag, image_tags with
      | true, first_tag :: remaining_tags =>
          inr (mkVisit (rebind (first_tag :: random_shuffle row remaining_tags)) true 0)
      | _, _ => inr (mkVisit (in_place (random_shuffle row image_tags)) true 0)
      end.

Definition shuffle_tags (random_shuffle : nat → list string → list string)
    (do_not_reorder_first_tag : bool) (m : ImageListModel) : Run :=
  bulk_edit "Shuffle Tags" (shuffle_body random_shuffle do_not_reorder_first_tag) m.

Definition remove_duplicate_body : Body :=
  λ _ _ image_tags,
    let tag_count := length image_tags in
    let unique_tag_count := length (dict_fromkeys image_tags) in
    if (tag_count =? unique_tag_count)%nat then skip
    else inr (mkVisit (rebind (dict_fromkeys image_tags)) true
                      (tag_count - unique_tag_count)).

Definition remove_duplicate_tags (m : ImageListModel) : Run :=
  bulk_edit "Remove Duplicate Tags" remove_duplicate_body m.

Definition remove_empty_body : Body :=
  λ _ _ image_tags,
    let old_tag_count := length image_tags in
    let new := filter (λ tag, truthy (strip tag) = true) image_tags in
    let new_tag_count := length new in
    if (old_tag_count =? new_tag_count)%nat
    then inr (mkVisit (rebind new) false 0)
    else inr (mkVisit (rebind new) true (old_tag_count - new_tag_count)).

Definition remove_empty_tags (m : ImageListModel) : Run :=
  bulk_edit "Remove Empty Tags" remove_empty_body m.

Definition rename_body (old_tag new_tag : string) (in_filtered_images_only : bool)
    (is_image_in_filtered_images : string → list string → bool) : Body :=
  λ _ image_path image_tags,
    if filtered_out in_filtered_images_only is_image_in_filtered_images
                    image_path image_tags then skip
    else if bool_decide (old_tag ∈ image_tags)
    then inr (mkVisit
                (rebind ((λ image_tag, if decide (image_tag = old_tag)
                                       then new_tag else image_tag) <$> image_tags))
                true 0)
    else skip.

Definition rename_tag (old_tag new_tag : string) (in_filtered_images_only : bool)
    (is_image_in_filtered_images : string → list string → bool)
    (m : ImageListModel) : Run :=
  bulk_edit "Rename Tag"
    (rename_body old_tag new_tag in_filtered_images_only is_image_in_filtered_images) m.

Definition delete_body (tag : string) (in_filtered_images_only : bool)
    (is_image_in_filtered_images : string → list string → bool) : Body :=
  λ _ image_path image_tags,
    if filtered_out in_filtered_images_only is_image_in_filtered_images
                    image_path image_tags then skip
    else if bool_decide (tag ∈ image_tags)
    then inr (mkVisit (rebind (filter (λ image_tag, image_tag ≠ tag) image_tags))
                      true 0)
    else skip.

Definition delete_tag (tag : string) (in_filtered_images_only : bool)
    (is_image_in_filtered_images : string → list string → bool)
    (m : ImageListModel) : Run :=
  bulk_edit "Delete Tag"
    (delete_body tag in_filtered_images_only is_image_in_filtered_images) m.

(** ** [add_tags]

    [image_indices] are the rows of the [QModelIndex] arguments.  The loop
    extends each target's list object and writes it, whether or not a tag
    was added; [min] and [max] of an empty sequence raise [ValueError]. *)

Definition add_tags_body (new_tags : list string) : Body :=
  λ _ _ image_tags,
    let unique_tags := filter (λ tag, tag ∉ image_tags) new_tags in
    inr (mkVisit (in_place (image_tags ++ unique_tags)) true 0).

Definition add_tags (new_tags : list string) (image_indices : list nat)
    (m : ImageListModel) : ImageListModel * Outcome :=
  let name := if (length new_tags =? 1)%nat then "Add Tag" else "Add Tags" in
  let should_ask := (1 <? length image_indices)%nat in
  let m1 := add_to_undo_stack name should_ask m in
  let r := for_rows (add_tags_body new_tags) image_indices m1 [] 0 in
  match outcome r with
  | raised e => (final r, raised e)
  | returned =>
      match image_indices with
      | [] => (final r, raised ValueError)
      | row :: others =>
          (emit (dataChanged (foldr Nat.min row others) (foldr Nat.max row others))
                (final r),
           returned)
      end
  end.

(** ** [update_image_tags]

    [image_index] is given by its row; the caller's list [tags] is a list
    object no image or history item references yet. *)

Definition update_image_tags (row : nat) (new : list string) (m : ImageListModel)
  : ImageListModel * Outcome :=
  match images m !! row with
  | None => (m, raised IndexError)
  | Some image =>
      if decide (tags_of m image = new) then (m, returned)
      else
        let '(m1, image1) := assign row image (rebind new) m in
        (write_image_tags_to_disk image1 (emit (dataChanged row row) m1), returned)
  end.

(** ** [restore_history_tags], [undo] and [redo] *)

Definition quote : string := String "034"%char EmptyString.

(** The loop over [enumerate(zip(self.images, history_item.tags))]:
    [image.tags = history_image_tags] binds the image to the very list
    object the history item holds. *)
Fixpoint restore_rows (image_index : nat) (history : list loc)
    (m : ImageListModel) (changed : list nat) : ImageListModel * list nat :=
  match history with
  | [] => (m, changed)
  | history_image_tags :: rest =>
      match images m !! image_index with
      | None => (m, changed)
      | Some image =>
          if decide (tags_of m image = deref (heap m) history_image_tags)
          then restore_rows (S image_index) rest m changed
          else
            let image' := mkImage (path image) history_image_tags in
            let m1 := with_images (<[image_index := image']> (images m)) m in
            restore_rows (S image_index) rest
                         (write_image_tags_to_disk image' m1)
                         (changed ++ [image_index])
      end
  end.

(** ['Undo' if is_undo else 'Redo'] *)
Definition undo_or_redo_string (is_undo : bool) : string :=
  if is_undo then "Undo" else "Redo".

(** [f'{undo_or_redo_string} "{history_item.action_name}"?'] *)
Definition question (is_undo : bool) (history_item : HistoryItem) : string :=
  undo_or_redo_string is_undo +:+ " " +:+ quote +:+
  action_name history_item +:+ quote +:+ "?".

(** The dialog is an input: [get_confirmation_dialog_reply title question]
    is the button the user presses. *)
Definition restore_history_tags (is_undo : bool)
    (get_confirmation_dialog_reply : string → string → StandardButton)
    (m : ImageListModel) : ImageListModel :=
  let source_stack := if is_undo then undo_stack m else redo_stack m in
  match pop source_stack with
  | None => m
  | Some (source_rest, history_item) =>
      if should_ask_for_confirmation history_item
         && negb (bool_decide
                    (get_confirmation_dialog_reply (undo_or_redo_string is_undo)
                       (question is_undo history_item) = Yes))
      then m
      else
        (* tags = [image.tags for image in self.images]: the list objects
           themselves, not copies *)
        let current := mkHistoryItem (action_name history_item)
                                     (tags <$> images m)
                                     (should_ask_for_confirmation history_item) in
        let m1 := if is_undo
                  then with_stacks source_rest (redo_stack m ++ [current]) m
                  else with_stacks (deque_append current (undo_stack m))
                                   source_rest m in
        let '(m2, changed) := restore_rows 0 (history_tags history_item) m1 [] in
        emit update_undo_and_redo_actions_requested (notify_changed changed m2)
  end.

Definition undo := restore_history_tags true.
Definition redo := restore_history_tags false.

(** ** Sessions: sequences of calls *)

(** The nine bulk mutation operations with their arguments. *)
Inductive Operation :=
| RenameTag (old_tag new_tag : string) (in_filtered_images_only : bool)
            (is_image_in_filtered_images : string → list string → bool)
| DeleteTag (tag : string) (in_filtered_images_only : bool)
            (is_image_in_filtered_images : string → list string → bool)
| AddTags (new_tags : list string) (image_indices : list nat)
| SortTagsAlphabetically (do_not_reorder_first_tag : bool)
| SortTagsByFrequency (tag_counter : string → nat) (do_not_reorder_first_tag : bool)
| ShuffleTags (random_shuffle : nat → list string → list string)
              (do_not_reorder_first_tag : bool)
| RemoveDuplicateTags
| RemoveEmptyTags
| FindAndReplace (find_text replace_text : string) (in_filtered_images_only : bool)
                 (is_image_in_filtered_images : string → list string → bool).

(** The call of an operation.  [add_tags] keeps no list of changed rows. *)
Definition run (op : Operation) (m : ImageListModel) : Run :=
  match op with
  | RenameTag old_tag new_tag only visible => rename_tag old_tag new_tag only visible m
  | DeleteTag tag only visible => delete_tag tag only visible m
  | AddTags new_tags image_indices =>
      let '(m', out) := add_tags new_tags image_indices m in mkRun m' [] 0 out
  | SortTagsAlphabetically fixed => sort_tags_alphabetically fixed m
  | SortTagsByFrequency tag_counter fixed => sort_tags_by_frequency tag_counter fixed m
  | ShuffleTags random_shuffle fixed => shuffle_tags random_shuffle fixed m
  | RemoveDuplicateTags => remove_duplicate_tags m
  | RemoveEmptyTags => remove_empty_tags m
  | FindAndReplace find_text replace_text only visible =>
      find_and_replace find_text replace_text only visible m
  end.

(** The model after the call, whether it returned or raised. *)
Definition perform (op : Operation) (m : ImageListModel) : ImageListModel :=
  final (run op m).

Definition perform_all (ops : list Operation) (m : ImageListModel)
  : ImageListModel :=
  foldl (λ m op, perform op m) m ops.

(** [undo()] called [n] times, the dialog answering [reply]. *)
Definition undo_times (n : nat) (reply : string → string → StandardButton)
    (m : ImageListModel) : ImageListModel :=
  Nat.iter n (undo reply) m.

(** Whether the call reaches [add_to_undo_stack]: every operation does,
    except [find_and_replace] with an empty [find_text]. *)
Definition takes_snapshot (op : Operation) : bool :=
  match op with
  | FindAndReplace find_text _ _ _ => truthy find_text
  | _ => true
  end.

(** Anything a session can do to the history: an operation, [undo], [redo],
    or a direct edit of one image's tags. *)
Inductive Action :=
| edit (op : Operation)
| press_undo (reply : string → string → StandardButton)
| press_redo (reply : string → string → StandardButton)
| retag (row : nat) (new : list string).

Definition step (m : ImageListModel) (a : Action) : ImageListModel :=
  match a with
  | edit op => perform op m
  | press_undo reply => undo reply m
  | press_redo reply => redo reply m
  | retag row new => fst (update_image_tags row new m)
  end.

Definition session (actions : list Action) (m : ImageListModel)
  : ImageListModel :=
  foldl step m actions.

(** ** Vocabulary of the statements *)

(** The list objects the images reference. *)
Definition live (m : ImageListModel) : list loc := tags <$> images m.

(** Every image references an existing list object, and no two images
    share one: so it is after [load_directory]. *)
Definition well_formed (m : ImageListModel) : Prop :=
  Forall (λ l, l < length (heap m)) (live m) ∧ NoDup (live m).

(** A history item whose list objects exist and are referenced by no image:
    a copy, which no edit of an image's tags can reach. *)
Definition detached (m : ImageListModel) (item : HistoryItem) : Prop :=
  Forall (λ l, l < length (heap m) ∧ l ∉ live m) (history_tags item).

(** The undo stack as values: the tag state each item would restore. *)
Definition history (m : ImageListModel) : list (list (list string)) :=
  snapshot m <$> undo_stack m.

(** The effects a call added to the log. *)
Definition effects_since (before after : ImageListModel) : list Effect :=
  drop (length (effects before)) (effects after).

(** The images whose sidecar file a log shows being written, in order. *)
Definition saved_paths (log : list Effect) : list string :=
  omap (λ e, match e with write_text p _ _ => Some p | _ => None end) log.

(** The write attempts of a log: path and caption. *)
Definition save_attempts (log : list Effect) : list (string * string) :=
  omap (λ e, match e with write_text p c _ => Some (p, c) | _ => None end) log.

(** The [dataChanged] ranges of a log. *)
Definition notifications (log : list Effect) : list (nat * nat) :=
  omap (λ e, match e with dataChanged a b => Some (a, b) | _ => None end) log.

(** [image.path] of a row. *)
Definition row_path (m : ImageListModel) (row : nat) : string :=
  default EmptyString (path <$> images m !! row).

(** [image.tags] of a row, as a value. *)
Definition row_tags (m : ImageListModel) (row : nat) : list string :=
  default [] (tag_state m !! row).

(** [self.separator.join(image.tags)] of a row. *)
Definition row_caption (m : ImageListModel) (row : nat) : string :=
  join (separator m) (row_tags m row).

(** Every failed write in the log is followed at once by the error box
    naming the image's path. *)
Fixpoint failures_reported (log : list Effect) : Prop :=
  match log with
  | [] => True
  | write_text p _ false :: rest =>
      match rest with
      | error_message_box text :: rest' =>
          text = failed_to_save p ∧ failures_reported rest'
      | _ => False
      end
  | _ :: rest => failures_reported rest
  end.

(** What is in memory: everything but the outside world's script and the
    log. *)
Definition memory (m : ImageListModel) :=
  (separator m, heap m, images m, undo_stack m, redo_stack m).

Definition with_os_errors (errors : list bool) (m : ImageListModel)
  : ImageListModel :=
  mkModel (separator m) (heap m) (images m) (undo_stack m) (redo_stack m)
          errors (effects m).

(** Every image references an existing list object. *)
Definition valid_live (m : ImageListModel) : Prop :=
  Forall (λ l, l < length (heap m)) (live m).

(** The list objects in [P] exist and no image references them. *)
Definition apart (P : loc → Prop) (m : ImageListModel) : Prop :=
  ∀ l, P l → l < length (heap m) ∧ l ∉ live m.

(** From [m] to [m'] the list objects in [P] kept their contents and stayed
    apart from the images, and nothing but the images' tags, the script and
    the log changed. *)
Record kept (P : loc → Prop) (m m' : ImageListModel) : Prop := mkKept {
  kept_heap : ∀ l, P l → heap m' !! l = heap m !! l;
  kept_apart : apart P m';
  kept_undo : undo_stack m' = undo_stack m;
  kept_redo : redo_stack m' = redo_stack m;
  kept_separator : separator m' = separator m;
  kept_paths : path <$> images m' = path <$> images m;
  kept_valid : valid_live m → valid_live m';
  kept_grow : length (heap m) ≤ length (heap m') }.

(** The invariant of a history made of copies: the images reference
    existing objects, the undo stack is within its bound, and every item of
    it is detached and has one entry per image. *)
Definition copied_history (m : ImageListModel) : Prop :=
  valid_live m ∧
  length (undo_stack m) ≤ UNDO_STACK_SIZE ∧
  Forall (λ item, detached m item ∧
                  length (history_tags item) = length (images m))
         (undo_stack m).

(** The tag states the snapshots of a run of operations capture: the state
    before each operation that takes one. *)
Fixpoint trail (ops : list Operation) (m : ImageListModel)
  : list (list (list string)) :=
  match ops with
  | [] => []
  | op :: rest =>
      (if takes_snapshot op then [tag_state m] else []) ++ trail rest (perform op m)
  end.

(** The last [UNDO_STACK_SIZE] elements. *)
Definition newest {A} (l : list A) : list A :=
  drop (length l - UNDO_STACK_SIZE) l.

(** ** The history stacks: what they reference and how they grow *)

(** The list objects referenced from the undo stack. *)
Definition on_undo_stack (m : ImageListModel) (l : loc) : Prop :=
  ∃ item, item ∈ undo_stack m ∧ l ∈ history_tags item.

(** Whether an action changes either history stack. *)
Definition affects_history (m : ImageListModel) (a : Action) : bool :=
  bool_decide ((undo_stack (step m a), redo_stack (step m a))
               ≠ (undo_stack m, redo_stack m)).

(** The most recent action of a session that changed a history stack. *)
Fixpoint last_history_action (actions : list Action) (m : ImageListModel)
    (last : option Action) : option Action :=
  match actions with
  | [] => last
  | a :: rest =>
      last_history_action rest (step m a)
                          (if affects_history m a then Some a else last)
  end.

Definition is_press_undo (a : option Action) : bool :=
  match a with Some (press_undo _) => true | _ => false end.

Definition is_undo_or_redo (a : option Action) : bool :=
  match a with Some (press_undo _) | Some (press_redo _) => true | _ => false end.

(** Every list of references the model holds: the images' tags and the
    tags of the items on both stacks. *)
Definition references (m : ImageListModel) : list (list loc) :=
  live m :: (history_tags <$> (undo_stack m ++ redo_stack m)).

(** The references [refs] into the heap [h] are sound: each points to an
    existing list object, and a list object is only ever referenced for one
    row. *)
Definition consistent (refs : list (list loc)) (h : list (list string)) : Prop :=
  (∀ r l, r ∈ refs → l ∈ r → l < length h) ∧
  (∀ r1 r2 i j l,
     r1 ∈ refs → r2 ∈ refs → r1 !! i = Some l → r2 !! j = Some l → i = j).

Definition sound (m : ImageListModel) : Prop :=
  consistent (references m) (heap m).

(** The item [add_to_undo_stack] pushes for an operation. *)
Definition snapshot_label (op : Operation) : string * bool :=
  match op with
  | RenameTag _ _ _ _ => ("Rename Tag", true)
  | DeleteTag _ _ _ => ("Delete Tag", true)
  | AddTags new_tags image_indices =>
      (if length new_tags =? 1 then "Add Tag" else "Add Tags",
       1 <? length image_indices)
  | SortTagsAlphabetically _ | SortTagsByFrequency _ _ => ("Sort Tags", true)
  | ShuffleTags _ _ => ("Shuffle Tags", true)
  | RemoveDuplicateTags => ("Remove Duplicate Tags", true)
  | RemoveEmptyTags => ("Remove Empty Tags", true)
  | FindAndReplace _ _ _ _ => ("Find and Replace", true)
  end.

Definition snapshot_item (op : Operation) (m : ImageListModel) : HistoryItem :=
  mkHistoryItem (snapshot_label op).1
                (seq (length (heap m)) (length (tag_state m)))
                (snapshot_label op).2.

(** [m'] is [m] with older items below its undo stack. *)
Definition with_older (older : list HistoryItem) (m : ImageListModel)
  : ImageListModel :=
  with_stacks (older ++ undo_stack m) (redo_stack m) m.

Definition restack (undo redo : list HistoryItem) (r : Run) : Run :=
  mkRun (with_stacks undo redo (final r)) (changed_image_indices r)
        (removed_tag_count r) (outcome r).

(** [m] without its undo stack. *)
Definition without_history (m : ImageListModel) : ImageListModel :=
  with_stacks [] (redo_stack m) m.

(** ** What a bulk edit writes, and what it does row by row *)

(** The effects of one [write_image_tags_to_disk]. *)
Definition save_effects (attempt : string * string * bool) : list Effect :=
  let '(p, c, raises) := attempt in
  if raises then [write_text p c false; error_message_box (failed_to_save p)]
  else [write_text p c true].

(** The effects of a run of writes: path, caption and whether [write_text]
    raised [OSError]. *)
Definition save_log (attempts : list (string * string * bool)) : list Effect :=
  flat_map save_effects attempts.

(** The range a bulk edit reports for its changed rows. *)
Definition reported_range (changed : list nat) : list (nat * nat) :=
  match changed with
  | [] => []
  | first :: _ => [(first, List.last changed first)]
  end.

(** The value [image.tags] has after an assignment. *)
Definition new_value (a : Assignment) (old : list string) : list string :=
  match a with
  | keep => old
  | rebind new | in_place new => new
  end.

(** What a body does at a row when it does not raise. *)
Definition visit_of (body : Body) (row : nat) (p : string) (ts : list string)
  : Visit :=
  match body row p ts with
  | inr v => v
  | inl _ => mkVisit keep false 0
  end.

(** A body that never raises. *)
Definition total (body : Body) : Prop :=
  ∀ row p ts, body row p ts = inr (visit_of body row p ts).

(** What the body does at a row of [m]. *)
Definition visit_at (body : Body) (m : ImageListModel) (row : nat) : Visit :=
  visit_of body row (row_path m row) (row_tags m row).

(** The rule by which an operation counts a row, read off the model before
    and after the call. *)
Definition counts_as_changed (op : Operation) (before after : ImageListModel)
    (row : nat) : Prop :=
  match op with
  | SortTagsAlphabetically _ | SortTagsByFrequency _ _ =>
      row_caption after row ≠ row_caption before row
  | RenameTag old_tag _ only visible =>
      filtered_out only visible (row_path before row) (row_tags before row) = false ∧
      old_tag ∈ row_tags before row
  | DeleteTag tag only visible =>
      filtered_out only visible (row_path before row) (row_tags before row) = false ∧
      tag ∈ row_tags before row
  | FindAndReplace find_text _ only visible =>
      find_text ≠ EmptyString ∧
      filtered_out only visible (row_path before row) (row_tags before row) = false ∧
      contains find_text (row_caption before row) = true
  | RemoveDuplicateTags | RemoveEmptyTags =>
      length (row_tags after row) < length (row_tags before row)
  | ShuffleTags _ _ => 2 ≤ length (row_tags before row)
  | AddTags _ _ => False
  end.

Definition is_add_tags (op : Operation) : bool :=
  match op with AddTags _ _ => true | _ => false end.

(** ** Inputs of the worked examples *)

Definition approve : string → string → StandardButton := λ _ _, Yes.

Definition decline : string → string → StandardButton := λ _ _, No.

Definition all_images : string → list string → bool := λ _ _, true.

Definition two_images : ImageListModel :=
  loaded ", " [("1.png", ["cat"; "dog"]); ("2.png", ["bird"])].

(** ** [rowCount] *)

Definition rowCount (m : ImageListModel) : nat := length (images m).

(** ** [get_text_match_count] *)

(** [len(s)]: the number of characters, that is of bytes other than the
    continuation bytes 128..191 of UTF-8. *)
Fixpoint len (s : string) : nat :=
  match s with
  | EmptyString => 0
  | String c rest =>
      (if Nat.leb 128 (nat_of_ascii c) && Nat.ltb (nat_of_ascii c) 192 then 0 else 1)
      + len rest
  end.

(** [s.count(sub)] for a non-empty [sub]: occurrences are counted from the
    left and do not overlap. *)
Fixpoint count_from (sub : string) (skip : nat) (s : string) : nat :=
  match s with
  | EmptyString => 0
  | String _ rest =>
      match skip with
      | S k => count_from sub k rest
      | O =>
          if String.prefix sub s
          then S (count_from sub (String.length sub - 1) rest)
          else count_from sub 0 rest
      end
  end.

(** [s.count(sub)]; the empty string is found before every character and
    at the end. *)
Definition str_count (sub s : string) : nat :=
  match sub with
  | EmptyString => len s + 1
  | _ => count_from sub 0 s
  end.

(** [l.count(x)] *)
Definition list_count (x : string) (l : list string) : nat :=
  length (filter (λ y, y = x) l).

Definition get_text_match_count (text : string) (in_filtered_images_only : bool)
    (is_image_in_filtered_images : string → list string → bool)
    (whole_tags_only : bool) (m : ImageListModel) : nat :=
  foldl (λ match_count image,
           if filtered_out in_filtered_images_only is_image_in_filtered_images
                           (path image) (tags_of m image)
           then match_count
           else if whole_tags_only
           then match_count + list_count text (tags_of m image)
           else match_count
                + str_count text (join (separator m) (tags_of m image)))
        0 (images m).

(** What one image adds to the match count. *)
Definition matches_in (text : string) (in_filtered_images_only : bool)
    (is_image_in_filtered_images : string → list string → bool)
    (whole_tags_only : bool) (sep image_path : string) (image_tags : list string)
  : nat :=
  if filtered_out in_filtered_images_only is_image_in_filtered_images
                  image_path image_tags then 0
  else if whole_tags_only then list_count text image_tags
  else str_count text (join sep image_tags).

(** ** [load_directory]: the tags read from a caption file

    Lines 119 to 129 of the source: the caption is split on the separator,
    each piece is stripped and the empty ones are dropped; an empty caption
    gives no tags.  [None] stands for the [ValueError] that [str.split]
    raises on an empty separator. *)

Definition load_directory_tags (sep caption : string) : option (list string) :=
  if truthy caption
  then
    match split sep caption with
    | None => None
    | Some tags => Some (filter (λ tag, truthy tag = true) (strip <$> tags))
    end
  else Some [].

(** ** Vocabulary of the further properties *)

(** The item pushed onto the other stack: the popped item's name and flag,
    and the list objects the images reference at that moment. *)
Definition counterpart (item : HistoryItem) (m : ImageListModel) : HistoryItem :=
  mkHistoryItem (action_name item) (live m) (should_ask_for_confirmation item).

(** Every item on either stack has one entry per image. *)
Definition complete_items (m : ImageListModel) : Prop :=
  Forall (λ item, length (history_tags item) = length (images m))
         (undo_stack m ++ redo_stack m).

(** [update_image_tags] called for each of [edits] in turn. *)
Definition update_all (edits : list (nat * list string)) (m : ImageListModel)
  : ImageListModel :=
  foldl (λ m e, (update_image_tags e.1 e.2 m).1) m edits.

(** [image.tags] after [image.tags.extend(unique_tags)]. *)
Definition extended (new_tags image_tags : list string) : list string :=
  image_tags ++ filter (λ tag, tag ∉ image_tags) new_tags.

(** The operations that have nothing left to do once they have run:
    the two sorts, the two removals, delete, and rename to another
    tag. *)
Definition idempotent (op : Operation) : bool :=
  match op with
  | SortTagsAlphabetically _ | SortTagsByFrequency _ _
  | RemoveDuplicateTags | RemoveEmptyTags | DeleteTag _ _ _ => true
  | RenameTag old_tag new_tag _ _ => bool_decide (old_tag ≠ new_tag)
  | AddTags _ _ | ShuffleTags _ _ | FindAndReplace _ _ _ _ => false
  end.

(** A body that, on the tags it leaves, assigns the same tags again and
    counts nothing. *)
Definition settled (body : Body) : Prop :=
  ∀ row p ts,
    let ts' := new_value (assignment (visit_of body row p ts)) ts in
    counted (visit_of body row p ts') = false ∧
    new_value (assignment (visit_of body row p ts')) ts' = ts'.

(** * Proofs *)

(** ** The frame of the loop: copies stay as they are *)

Lemma kept_refl P m : apart P m → kept P m m.
Proof. by constructor. Qed.

Lemma kept_trans P m1 m2 m3 : kept P m1 m2 → kept P m2 m3 → kept P m1 m3.
Proof.
  intros [h1 a1 u1 r1 s1 p1 v1 g1] [h2 a2 u2 r2 s2 p2 v2 g2].
  constructor; try congruence; try lia; auto.
  intros l Hl. rewrite h2, h1; auto.
Qed.

Lemma live_lookup m i image :
  images m !! i = Some image → live m !! i = Some (tags image).
Proof. intros H. unfold live. by rewrite list_lookup_fmap, H. Qed.

Lemma elem_of_insert_inv {A} (l : list A) i x y :
  y ∈ <[i:=x]> l → y = x ∨ y ∈ l.
Proof.
  intros [j Hj]%list_elem_of_lookup.
  rewrite list_lookup_insert in Hj. case_decide.
  - left. congruence.
  - right. apply list_elem_of_lookup. eauto.
Qed.

Lemma paths_insert m i image l :
  images m !! i = Some image →
  path <$> <[i := mkImage (path image) l]> (images m) = path <$> images m.
Proof.
  intros H. rewrite list_fmap_insert. apply list_insert_id.
  by rewrite list_lookup_fmap, H.
Qed.

Lemma assign_kept P i image a m :
  apart P m → images m !! i = Some image → kept P m (assign i image a m).1.
Proof.
  intros Ha Hi. destruct a as [|new|new]; simpl.
  - by apply kept_refl.
  - constructor; simpl; try done.
    + intros l Hl. apply lookup_app_l. by apply Ha.
    + intros l Hl. destruct (Ha l Hl) as [Hlt Hnot]. split; simpl.
      * rewrite length_app. simpl. lia.
      * unfold live. simpl. rewrite list_fmap_insert. simpl.
        intros [->|Hin]%elem_of_insert_inv; [lia | by apply Hnot].
    + by apply paths_insert.
    + unfold valid_live, live. simpl. intros Hv.
      rewrite list_fmap_insert. simpl. apply Forall_insert.
      * eapply Forall_impl; [|exact Hv]. intros l Hl. simpl in Hl.
        rewrite length_app. simpl. lia.
      * rewrite length_app. simpl. lia.
    + rewrite length_app. lia.
  - assert (Hlive : tags image ∈ live m).
    { apply list_elem_of_lookup. exists i. by apply live_lookup. }
    constructor; simpl; try done.
    + intros l Hl. apply list_lookup_insert_ne.
      intros <-. by apply (Ha _ Hl).
    + intros l Hl. simpl. rewrite length_insert. by apply Ha.
    + unfold valid_live, live. simpl. by rewrite length_insert.
    + by rewrite length_insert.
Qed.

Lemma write_kept P image m :
  apart P m → kept P m (write_image_tags_to_disk image m).
Proof.
  intros Ha. unfold write_image_tags_to_disk.
  destruct (default false (head (os_errors m))); by constructor.
Qed.

Lemma emit_kept P e m : apart P m → kept P m (emit e m).
Proof. intros Ha. by constructor. Qed.

Lemma notify_changed_kept P changed m :
  apart P m → kept P m (notify_changed changed m).
Proof.
  intros Ha. destruct changed; simpl; [by apply kept_refl | by apply emit_kept].
Qed.

Lemma assign_lookup i image a m :
  images m !! i = Some image →
  images (assign i image a m).1 !! i = Some (assign i image a m).2.
Proof.
  intros Hi. destruct a; simpl; try done.
  apply list_lookup_insert_eq. by eapply lookup_lt_Some.
Qed.

Lemma for_rows_kept P body rows :
  ∀ m changed count,
    apart P m → kept P m (final (for_rows body rows m changed count)).
Proof.
  induction rows as [|i rest IH]; intros m changed count Ha; simpl.
  - by apply kept_refl.
  - destruct (images m !! i) as [image|] eqn:Hi; simpl; [|by apply kept_refl].
    destruct (body i (path image) (tags_of m image)) as [e|v]; simpl;
      [by apply kept_refl|].
    pose proof (assign_kept P i image (assignment v) m Ha Hi) as Hk.
    destruct (assign i image (assignment v) m) as [m1 image1]. simpl in Hk.
    destruct (counted v).
    + eapply kept_trans; [exact Hk|].
      eapply kept_trans; [apply write_kept, Hk|].
      apply IH. apply write_kept, Hk.
    + eapply kept_trans; [exact Hk|]. apply IH, Hk.
Qed.

(** ** Snapshots taken by [add_to_undo_stack] are copies *)

Lemma deref_app_l h c l : l < length h → deref (h ++ c) l = deref h l.
Proof. intros H. unfold deref. by rewrite lookup_app_l. Qed.

Lemma deref_fresh h c : deref (h ++ c) <$> seq (length h) (length c) = c.
Proof.
  apply list_eq. intros i. rewrite list_lookup_fmap.
  destruct (decide (i < length c)) as [Hi|Hi].
  - rewrite lookup_seq_lt by done. simpl. unfold deref.
    rewrite lookup_app_r by lia.
    replace (length h + i - length h) with i by lia.
    destruct (lookup_lt_is_Some_2 c i Hi) as [x Hx]. by rewrite Hx.
  - rewrite (proj2 (lookup_ge_None c i)) by lia.
    rewrite (proj2 (lookup_ge_None (seq _ _) i)); [done|].
    rewrite length_seq. lia.
Qed.

Lemma length_tag_state m : length (tag_state m) = length (images m).
Proof. unfold tag_state. by rewrite length_fmap. Qed.

Lemma tag_state_ext m m' :
  images m' = images m →
  (∀ l, l ∈ live m → deref (heap m') l = deref (heap m) l) →
  tag_state m' = tag_state m.
Proof.
  intros Hi Hd. unfold tag_state, tags_of. rewrite Hi.
  apply list_fmap_ext. intros i image Himage. apply Hd.
  apply list_elem_of_lookup. exists i. by apply live_lookup.
Qed.

Lemma valid_live_lt m l : valid_live m → l ∈ live m → l < length (heap m).
Proof. unfold valid_live. rewrite list.Forall_forall. intros H Hl. by apply H. Qed.

Lemma add_to_undo_stack_tag_state name ask m :
  valid_live m → tag_state (add_to_undo_stack name ask m) = tag_state m.
Proof.
  intros Hv. apply tag_state_ext; [done|]. intros l Hl. simpl.
  apply deref_app_l. by apply valid_live_lt.
Qed.

Lemma snapshot_ext m m' item :
  (∀ l, l ∈ history_tags item → heap m' !! l = heap m !! l) →
  snapshot m' item = snapshot m item.
Proof.
  intros H. unfold snapshot. apply list_fmap_ext. intros i l Hl.
  unfold deref. rewrite H; [done|]. apply list_elem_of_lookup. eauto.
Qed.

Lemma history_ext m m' :
  undo_stack m' = undo_stack m →
  (∀ l, on_undo_stack m l → heap m' !! l = heap m !! l) →
  history m' = history m.
Proof.
  intros Hu H. unfold history. rewrite Hu. apply list_fmap_ext.
  intros i item Hitem. apply snapshot_ext. intros l Hl. apply H.
  exists item. split; [|done]. apply list_elem_of_lookup. eauto.
Qed.

Lemma copied_history_apart m : copied_history m → apart (on_undo_stack m) m.
Proof.
  intros (_ & _ & Hall) l (item & Hitem & Hl).
  destruct (proj1 (list.Forall_forall _ _) Hall item Hitem) as [Hd _].
  by apply (proj1 (list.Forall_forall _ _) Hd).
Qed.

Lemma kept_length_images P m m' :
  kept P m m' → length (images m') = length (images m).
Proof.
  intros Hk. rewrite <- (length_fmap path (images m')).
  rewrite (kept_paths _ _ _ Hk). apply length_fmap.
Qed.

(** A call that leaves the undo stack's objects alone leaves the history
    as it was. *)
Lemma kept_copied_history m m' :
  copied_history m → kept (on_undo_stack m) m m' →
  copied_history m' ∧ history m' = history m.
Proof.
  intros Hc Hk. pose proof Hc as (Hv & Hb & Hall). split; [split; [|split]|].
  - by apply (kept_valid _ _ _ Hk).
  - by rewrite (kept_undo _ _ _ Hk).
  - rewrite (kept_undo _ _ _ Hk). apply list.Forall_forall. intros item Hitem.
    destruct (proj1 (list.Forall_forall _ _) Hall item Hitem) as [_ Hlen]. split.
    + apply list.Forall_forall. intros l Hl.
      apply (kept_apart _ _ _ Hk). by exists item.
    + by rewrite (kept_length_images _ _ _ Hk).
  - apply history_ext; [apply (kept_undo _ _ _ Hk)|].
    intros l Hl. by apply (kept_heap _ _ _ Hk).
Qed.

Lemma deque_append_fmap {A B} (f : A → B) x d :
  f <$> deque_append x d = deque_append (f x) (f <$> d).
Proof.
  unfold deque_append. rewrite fmap_drop, fmap_app, !length_app, length_fmap.
  done.
Qed.

Lemma length_deque_append {A} (x : A) d :
  length (deque_append x d) ≤ UNDO_STACK_SIZE.
Proof.
  unfold deque_append. rewrite length_drop, length_app. simpl. lia.
Qed.

Lemma elem_of_drop_inv {A} (y : A) n l : y ∈ drop n l → y ∈ l.
Proof.
  intros H. rewrite <- (take_drop n l). apply elem_of_app. by right.
Qed.

Lemma elem_of_deque_append {A} (y x : A) d :
  y ∈ deque_append x d → y = x ∨ y ∈ d.
Proof.
  unfold deque_append. intros H%elem_of_drop_inv.
  apply elem_of_app in H as [H|H]; [by right|].
  left. by apply list_elem_of_singleton in H.
Qed.

(** [add_to_undo_stack] pushes a copy of the current tag state and leaves
    the older copies as they were. *)
Lemma add_to_undo_stack_history name ask m :
  copied_history m →
  copied_history (add_to_undo_stack name ask m) ∧
  history (add_to_undo_stack name ask m) = deque_append (tag_state m) (history m).
Proof.
  intros (Hv & Hb & Hall).
  set (item := mkHistoryItem name (seq (length (heap m)) (length (tag_state m))) ask).
  assert (Hold : ∀ old, old ∈ undo_stack m →
            snapshot (add_to_undo_stack name ask m) old = snapshot m old).
  { intros old Hin. apply snapshot_ext. intros l Hl. simpl.
    apply lookup_app_l.
    destruct (proj1 (list.Forall_forall _ _) Hall old Hin) as [Hd _].
    by apply (proj1 (list.Forall_forall _ _) Hd). }
  split; [split; [|split]|].
  - unfold valid_live, live. simpl. eapply Forall_impl; [|exact Hv].
    intros l Hl. simpl in Hl. rewrite length_app. lia.
  - simpl. apply length_deque_append.
  - simpl. apply list.Forall_forall. intros it Hit.
    apply elem_of_deque_append in Hit as [->|Hit].
    + split; [|simpl; rewrite length_seq; apply length_tag_state].
      apply list.Forall_forall. intros l Hl. simpl in Hl.
      apply elem_of_seq in Hl. split.
      * simpl. rewrite length_app. lia.
      * intros Hin. pose proof (valid_live_lt m l Hv Hin). lia.
    + destruct (proj1 (list.Forall_forall _ _) Hall it Hit) as [Hd Hlen].
      split; [|done]. apply list.Forall_forall. intros l Hl.
      destruct (proj1 (list.Forall_forall _ _) Hd l Hl) as [Hlt Hnot]. split.
      * simpl. rewrite length_app. lia.
      * done.
  - unfold history. simpl. rewrite deque_append_fmap. f_equal.
    + unfold snapshot. simpl. apply deref_fresh.
    + apply list_fmap_ext. intros i old Hi. apply Hold.
      apply list_elem_of_lookup. eauto.
Qed.

(** ** Every operation is a snapshot followed by edits of the images *)

Lemma bulk_edit_kept P name body m :
  apart P (add_to_undo_stack name true m) →
  kept P (add_to_undo_stack name true m) (final (bulk_edit name body m)).
Proof.
  intros Ha. unfold bulk_edit.
  pose proof (for_rows_kept P body
    (seq 0 (length (images (add_to_undo_stack name true m))))
    (add_to_undo_stack name true m) [] 0 Ha) as Hk.
  destruct (outcome _); simpl; [|done].
  eapply kept_trans; [exact Hk|]. apply notify_changed_kept, Hk.
Qed.

Lemma add_tags_kept P new_tags image_indices m :
  let name := if length new_tags =? 1 then "Add Tag" else "Add Tags" in
  let m1 := add_to_undo_stack name (1 <? length image_indices) m in
  apart P m1 → kept P m1 (add_tags new_tags image_indices m).1.
Proof.
  intros name m1 Ha. unfold add_tags. fold name. fold m1.
  pose proof (for_rows_kept P (add_tags_body new_tags) image_indices m1 [] 0 Ha)
    as Hk.
  destruct (outcome _); simpl; [|done].
  destruct image_indices; simpl; [done|].
  eapply kept_trans; [exact Hk|]. apply emit_kept, Hk.
Qed.

Lemma perform_kept op m :
  takes_snapshot op = true →
  ∃ name ask, ∀ P,
    apart P (add_to_undo_stack name ask m) →
    kept P (add_to_undo_stack name ask m) (perform op m).
Proof.
  intros Hs. unfold perform.
  destruct op; simpl in *;
    try (eexists _, true; intros P Ha; by apply bulk_edit_kept).
  - eexists _, _. intros P Ha.
    pose proof (add_tags_kept P new_tags image_indices m Ha) as Hk.
    by destruct (add_tags new_tags image_indices m).
  - unfold find_and_replace. rewrite Hs. simpl.
    eexists _, true; intros P Ha; by apply bulk_edit_kept.
Qed.

Lemma perform_no_snapshot op m : takes_snapshot op = false → perform op m = m.
Proof.
  destruct op; simpl; try discriminate.
  intros Hs. unfold perform, run, find_and_replace. by rewrite Hs.
Qed.

(** An operation that takes a snapshot pushes the tag state it started
    from, and changes no older copy. *)
Lemma perform_history op m :
  copied_history m → takes_snapshot op = true →
  copied_history (perform op m) ∧
  history (perform op m) = deque_append (tag_state m) (history m).
Proof.
  intros Hc Hs. destruct (perform_kept op m Hs) as (name & ask & Hk).
  destruct (add_to_undo_stack_history name ask m Hc) as [Hc1 Hh1].
  destruct (kept_copied_history _ _ Hc1 (Hk _ (copied_history_apart _ Hc1)))
    as [Hc2 Hh2].
  split; [done|]. by rewrite Hh2.
Qed.

Lemma newest_small {A} (l : list A) : length l ≤ UNDO_STACK_SIZE → newest l = l.
Proof. intros H. unfold newest. by replace (length l - UNDO_STACK_SIZE) with 0 by lia. Qed.

Lemma newest_app {A} (a t : list A) : newest (newest a ++ t) = newest (a ++ t).
Proof.
  destruct (decide (length a ≤ UNDO_STACK_SIZE)) as [H|H].
  - by rewrite (newest_small a).
  - unfold newest. rewrite !length_app, length_drop.
    replace (length a - (length a - UNDO_STACK_SIZE) + length t - UNDO_STACK_SIZE)
      with (length t) by lia.
    replace (length a + length t - UNDO_STACK_SIZE)
      with ((length a - UNDO_STACK_SIZE) + length t) by lia.
    rewrite <- drop_drop. f_equal. rewrite drop_app_le by lia. done.
Qed.

Lemma deque_append_newest {A} (x : A) d : deque_append x d = newest (d ++ [x]).
Proof. done. Qed.

Lemma perform_all_history ops :
  ∀ m, copied_history m →
    copied_history (perform_all ops m) ∧
    history (perform_all ops m) = newest (history m ++ trail ops m).
Proof.
  induction ops as [|op ops IH]; intros m Hc; simpl.
  - split; [done|]. rewrite app_nil_r, newest_small; [done|].
    unfold history. rewrite length_fmap. apply Hc.
  - destruct (takes_snapshot op) eqn:Hs.
    + destruct (perform_history op m Hc Hs) as [Hc1 Hh1].
      destruct (IH _ Hc1) as [Hc2 Hh2]. split; [done|].
      rewrite Hh2, Hh1, deque_append_newest, newest_app.
      by rewrite <- app_assoc.
    + rewrite (perform_no_snapshot op m Hs). by apply IH.
Qed.

Lemma trail_head ops :
  ∀ m, match trail ops m with
       | [] => perform_all ops m = m
       | first :: _ => first = tag_state m
       end.
Proof.
  induction ops as [|op ops IH]; intros m; simpl; [done|].
  destruct (takes_snapshot op) eqn:Hs; simpl; [done|].
  rewrite (perform_no_snapshot op m Hs). apply IH.
Qed.

Lemma length_trail ops : ∀ m, length (trail ops m) ≤ length ops.
Proof.
  induction ops as [|op ops IH]; intros m; simpl; [done|].
  rewrite length_app. specialize (IH (perform op m)).
  destruct (takes_snapshot op); simpl; lia.
Qed.

Lemma length_trail_all ops :
  ∀ m, forallb takes_snapshot ops = true → length (trail ops m) = length ops.
Proof.
  induction ops as [|op ops IH]; intros m H; simpl in *; [done|].
  apply andb_prop in H as [-> H]. simpl. by rewrite IH.
Qed.

(** ** [restore_history_tags] installs the popped item's tags *)

Lemma pop_snoc {A} (front : list A) (x : A) : pop (front ++ [x]) = Some (front, x).
Proof.
  induction front as [|y front IH]; simpl; [done|]. by rewrite IH.
Qed.

Lemma pop_nil {A} (l : list A) : pop l = None → l = [].
Proof.
  destruct l as [|x l]; [done|]. simpl. by destruct (pop l) as [[? ?]|].
Qed.

Lemma pop_Some {A} (l front : list A) (x : A) :
  pop l = Some (front, x) → l = front ++ [x].
Proof.
  revert front. induction l as [|y l IH]; intros front; simpl; [done|].
  destruct (pop l) as [[front' z]|] eqn:Hp.
  - intros [= <- <-]. simpl. f_equal. by apply IH.
  - intros [= <- <-]. by rewrite (pop_nil l Hp).
Qed.

Lemma write_memory image m :
  memory (write_image_tags_to_disk image m) = memory m.
Proof.
  unfold write_image_tags_to_disk.
  by destruct (default false (head (os_errors m))).
Qed.

Lemma write_heap image m : heap (write_image_tags_to_disk image m) = heap m.
Proof. pose proof (write_memory image m) as H. unfold memory in H. congruence. Qed.

Lemma write_images image m : images (write_image_tags_to_disk image m) = images m.
Proof. pose proof (write_memory image m) as H. unfold memory in H. congruence. Qed.


Lemma notify_changed_memory changed m :
  memory (notify_changed changed m) = memory m.
Proof. by destruct changed. Qed.

Lemma tag_state_lookup m j :
  tag_state m !! j = tags_of m <$> images m !! j.
Proof. unfold tag_state. apply list_lookup_fmap. Qed.

(** After the loop every row the history item covers holds the item's
    tags; the other rows, the list objects and the stacks are untouched. *)
Lemma restore_rows_spec history :
  ∀ k m changed,
    let m' := (restore_rows k history m changed).1 in
    heap m' = heap m ∧ undo_stack m' = undo_stack m ∧
    redo_stack m' = redo_stack m ∧ separator m' = separator m ∧
    length (images m') = length (images m) ∧
    ∀ j, tag_state m' !! j =
         if decide (k ≤ j ∧ j < k + length history ∧ j < length (images m))
         then deref (heap m) <$> history !! (j - k)
         else tag_state m !! j.
Proof.
  induction history as [|h rest IH]; intros k m changed; simpl.
  { repeat split; try done. intros j. case_decide; [lia|done]. }
  destruct (images m !! k) as [image|] eqn:Hk; simpl.
  2:{ repeat split; try done. intros j. case_decide as Hj; [|done].
      apply lookup_ge_None in Hk. lia. }
  pose proof (lookup_lt_Some _ _ _ Hk) as Hlt.
  case_decide as Heq.
  - specialize (IH (S k) m changed). simpl in IH.
    destruct IH as (Hh & Hu & Hr & Hs & Hl & Hj).
    repeat split; try done. intros j. rewrite Hj.
    destruct (decide (j = k)) as [->|Hne].
    + rewrite decide_False by lia. rewrite decide_True by lia.
      replace (k - k) with 0 by lia. simpl.
      by rewrite tag_state_lookup, Hk, <- Heq.
    + case_decide; case_decide; try lia; try done.
      replace (j - k) with (S (j - S k)) by lia. done.
  - set (image' := mkImage (path image) h).
    set (m1 := write_image_tags_to_disk image'
                 (with_images (<[k:=image']> (images m)) m)).
    specialize (IH (S k) m1 (changed ++ [k])). simpl in IH.
    assert (Hm1 : memory m1 = memory (with_images (<[k:=image']> (images m)) m))
      by apply write_memory.
    unfold memory in Hm1. simpl in Hm1.
    injection Hm1 as Hs1 Hh1 Hi1 Hu1 Hr1.
    destruct IH as (Hh & Hu & Hr & Hs & Hl & Hj).
    rewrite Hh1 in *. rewrite Hi1, length_insert in Hl, Hj.
    repeat split; try congruence. intros j. rewrite Hj.
    destruct (decide (j = k)) as [->|Hne].
    + rewrite decide_False by lia. rewrite decide_True by lia.
      replace (k - k) with 0 by lia. simpl.
      rewrite tag_state_lookup, Hi1, list_lookup_insert_eq by done.
      simpl. unfold tags_of. by rewrite Hh1.
    + case_decide; case_decide; try lia.
      * replace (j - k) with (S (j - S k)) by lia. done.
      * rewrite !tag_state_lookup, Hi1, list_lookup_insert_ne by done.
        unfold tags_of. by rewrite Hh1.
Qed.

Lemma undo_empty reply m : undo_stack m = [] → undo reply m = m.
Proof. intros H. unfold undo, restore_history_tags. by rewrite H. Qed.

(** An approved [undo] pops the top item and leaves the images with the
    item's tags; no list object changes. *)
Lemma undo_spec reply m front item :
  (∀ title question, reply title question = Yes) →
  undo_stack m = front ++ [item] →
  length (history_tags item) = length (images m) →
  tag_state (undo reply m) = snapshot m item ∧
  heap (undo reply m) = heap m ∧
  undo_stack (undo reply m) = front ∧
  length (images (undo reply m)) = length (images m).
Proof.
  intros Hyes Hstack Hlen. unfold undo, restore_history_tags.
  rewrite Hstack, pop_snoc, Hyes. simpl. rewrite andb_false_r.
  set (m1 := with_stacks front _ m).
  pose proof (restore_rows_spec (history_tags item) 0 m1 []) as Hspec.
  destruct (restore_rows 0 (history_tags item) m1 []) as [m2 changed].
  simpl in Hspec. destruct Hspec as (Hh & Hu & Hr & Hs & Hl & Hj).
  pose proof (notify_changed_memory changed m2) as Hn.
  unfold memory in Hn. injection Hn as Hns Hnh Hni Hnu Hnr.
  unfold tag_state, tags_of. simpl. rewrite Hnh, Hni, Hnu.
  repeat split; try done.
  apply list_eq. intros j. fold (tags_of m2). fold (tag_state m2).
  rewrite Hj. unfold snapshot. rewrite list_lookup_fmap.
  case_decide as Hc.
  - by replace (j - 0) with j by lia.
  - rewrite (proj2 (lookup_ge_None (history_tags item) j)) by lia.
    simpl. apply lookup_ge_None. rewrite length_tag_state. simpl. lia.
Qed.

Lemma undo_times_pops reply :
  (∀ title question, reply title question = Yes) →
  ∀ back front m,
    undo_stack m = front ++ back →
    Forall (λ item, length (history_tags item) = length (images m)) back →
    let m' := undo_times (length back) reply m in
    undo_stack m' = front ∧ heap m' = heap m ∧
    length (images m') = length (images m) ∧
    match back with
    | [] => m' = m
    | first :: _ => tag_state m' = snapshot m first
    end.
Proof.
  intros Hyes. induction back as [|b back IH]; intros front m Hstack Hlen; simpl.
  { by rewrite app_nil_r in Hstack. }
  inversion Hlen as [|? ? Hb Hlen']; subst.
  destruct (IH (front ++ [b]) m) as (Hu & Hh & Hl & _); [|done|].
  { by rewrite <- app_assoc. }
  unfold undo_times in *.
  destruct (undo_spec reply _ front b Hyes Hu) as (Ht & Hh' & Hu' & Hl');
    [congruence|].
  repeat split; try congruence.
  rewrite Ht. unfold snapshot. by rewrite Hh.
Qed.

(** [k] approved undos install the [k]-th newest entry of the history. *)
Lemma undo_times_history reply m k :
  (∀ title question, reply title question = Yes) →
  Forall (λ item, length (history_tags item) = length (images m)) (undo_stack m) →
  0 < k ≤ length (undo_stack m) →
  Some (tag_state (undo_times k reply m)) = history m !! (length (undo_stack m) - k) ∧
  undo_stack (undo_times k reply m) = take (length (undo_stack m) - k) (undo_stack m).
Proof.
  intros Hyes Hlen Hk.
  set (n := length (undo_stack m) - k).
  destruct (undo_times_pops reply Hyes (drop n (undo_stack m))
              (take n (undo_stack m)) m) as (Hu & _ & _ & Ht).
  { by rewrite take_drop. }
  { rewrite <- (take_drop n (undo_stack m)) in Hlen.
    by apply Forall_app in Hlen as [_ ?]. }
  rewrite length_drop in Hu, Ht.
  replace (length (undo_stack m) - n) with k in Hu, Ht by lia.
  split; [|done]. unfold history. rewrite list_lookup_fmap.
  destruct (drop n (undo_stack m)) as [|first rest] eqn:Hd.
  - apply (f_equal length) in Hd. rewrite length_drop in Hd. simpl in Hd. lia.
  - assert (Hfirst : undo_stack m !! n = Some first).
    { rewrite <- (Nat.add_0_r n), <- lookup_drop, Hd. done. }
    by rewrite Hfirst, Ht.
Qed.

Lemma undo_times_empty reply n m :
  undo_stack m = [] → undo_times n reply m = m.
Proof.
  intros H. unfold undo_times. induction n as [|n IH]; simpl; [done|].
  rewrite IH. by apply undo_empty.
Qed.

Lemma undo_times_add reply a b m :
  undo_times (a + b) reply m = undo_times a reply (undo_times b reply m).
Proof. apply Nat.iter_add. Qed.

Lemma copied_history_lengths m :
  copied_history m →
  Forall (λ item, length (history_tags item) = length (images m)) (undo_stack m).
Proof.
  intros (_ & _ & Hall). eapply Forall_impl; [|exact Hall]. by intros item [_ ?].
Qed.

Lemma length_history m : length (history m) = length (undo_stack m).
Proof. unfold history. apply length_fmap. Qed.

(** The entry of the history that [length t - i] undos reach, when the
    operations pushed [t] and at most [UNDO_STACK_SIZE] entries of [t] from
    [i] on remain. *)
Lemma newest_lookup {A} (old t : list A) i :
  length t - i ≤ UNDO_STACK_SIZE → i < length t →
  newest (old ++ t) !! (length (newest (old ++ t)) - (length t - i)) = t !! i.
Proof.
  intros Hk Hi. unfold newest. rewrite length_drop, length_app, lookup_drop.
  unfold UNDO_STACK_SIZE in *.
  rewrite lookup_app_r by lia. f_equal. lia.
Qed.

(** The general form of the undo property: from a state whose history is
    made of copies, undoing once per operation restores the tags, provided
    the extra undos of operations that took no snapshot find the stack
    empty. *)
Lemma undo_after_operations m ops reply :
  copied_history m →
  length ops ≤ UNDO_STACK_SIZE →
  (∀ title question, reply title question = Yes) →
  undo_stack m = [] ∨ forallb takes_snapshot ops = true →
  tag_state (undo_times (length ops) reply (perform_all ops m)) = tag_state m.
Proof.
  intros Hc Hn Hyes Hcase.
  destruct (perform_all_history ops m Hc) as [Hcf Hh].
  pose proof (trail_head ops m) as Hhead.
  pose proof (length_trail ops m) as Hlt.
  destruct (trail ops m) as [|first t] eqn:Ht.
  - rewrite Hhead. destruct Hcase as [He|Hall].
    + by rewrite undo_times_empty.
    + apply (length_trail_all ops m) in Hall. rewrite Ht in Hall.
      by rewrite <- Hall.
  - subst first. set (mf := perform_all ops m) in *.
    set (k := length (tag_state m :: t)).
    assert (Hkn : k ≤ length ops) by done.
    assert (HkS : 0 < k ≤ length (undo_stack mf)).
    { rewrite <- length_history, Hh. unfold newest, k.
      rewrite length_drop, length_app. simpl. unfold UNDO_STACK_SIZE in *.
      simpl in Hlt. lia. }
    destruct (undo_times_history reply mf k Hyes (copied_history_lengths _ Hcf) HkS)
      as [Hstate Hstack].
    replace (length ops) with ((length ops - k) + k) by lia.
    rewrite undo_times_add.
    assert (Hsame : undo_times (length ops - k) reply (undo_times k reply mf)
                    = undo_times k reply mf).
    { destruct Hcase as [He|Hall].
      - apply undo_times_empty. rewrite Hstack.
        replace (length (undo_stack mf) - k) with 0; [done|].
        rewrite <- length_history, Hh. unfold history. rewrite He. simpl.
        rewrite newest_small by (simpl in *; lia). simpl. unfold k. simpl. lia.
      - apply (length_trail_all ops m) in Hall. rewrite Ht in Hall.
        replace (length ops - k) with 0 by (unfold k; lia). done. }
    rewrite Hsame. apply (inj Some). rewrite Hstate, Hh.
    rewrite <- length_history, Hh.
    pose proof (newest_lookup (history m) (tag_state m :: t) 0) as Hnl.
    rewrite Nat.sub_0_r in Hnl. fold k in Hnl. rewrite Hnl; [done| |simpl; lia].
    unfold k in Hkn. lia.
Qed.

Lemma loaded_tag_state sep records :
  tag_state (loaded sep records) = snd <$> records.
Proof.
  unfold tag_state, tags_of, loaded. simpl. apply list_eq. intros i.
  rewrite !list_lookup_fmap, list_lookup_imap.
  destruct (records !! i) as [r|] eqn:Hr; simpl; [|done].
  unfold deref. by rewrite list_lookup_fmap, Hr.
Qed.

Lemma loaded_live sep records :
  live (loaded sep records) = seq 0 (length records).
Proof.
  unfold live, loaded. simpl. apply list_eq. intros i.
  rewrite list_lookup_fmap, list_lookup_imap.
  destruct (records !! i) as [r|] eqn:Hr; simpl.
  - symmetry. apply lookup_seq. split; [done|]. by eapply lookup_lt_Some.
  - symmetry. apply lookup_ge_None. rewrite length_seq.
    by apply lookup_ge_None.
Qed.

Lemma loaded_well_formed sep records : well_formed (loaded sep records).
Proof.
  unfold well_formed. rewrite loaded_live. split.
  - apply list.Forall_forall. intros l Hl%elem_of_seq. simpl.
    rewrite length_fmap. lia.
  - apply NoDup_seq.
Qed.

Lemma loaded_copied_history sep records : copied_history (loaded sep records).
Proof.
  split; [apply loaded_well_formed|]. split; simpl; [lia|constructor].
Qed.

(** ** The stacks across a session *)

Lemma restore_history_tags_stacks is_undo reply m :
  restore_history_tags is_undo reply m = m ∨
  ∃ rest item current,
    (if is_undo then undo_stack m else redo_stack m) = rest ++ [item] ∧
    undo_stack (restore_history_tags is_undo reply m)
      = (if is_undo then rest else deque_append current (undo_stack m)) ∧
    redo_stack (restore_history_tags is_undo reply m)
      = (if is_undo then redo_stack m ++ [current] else rest).
Proof.
  unfold restore_history_tags.
  destruct (pop _) as [[rest item]|] eqn:Hp; [|by left].
  destruct (_ && _); [by left|]. right.
  eexists rest, item, _. split; [by apply pop_Some|].
  match goal with |- context [restore_rows 0 ?h ?m1 []] =>
    pose proof (restore_rows_spec h 0 m1 []) as Hspec;
    destruct (restore_rows 0 h m1 []) as [m2 changed] end.
  simpl in Hspec. destruct Hspec as (_ & Hu & Hr & _).
  pose proof (notify_changed_memory changed m2) as Hn.
  unfold memory in Hn. injection Hn as _ _ _ Hnu Hnr.
  simpl. rewrite Hnu, Hnr, Hu, Hr. by destruct is_undo.
Qed.

Lemma perform_stacks op m :
  takes_snapshot op = true →
  ∃ item, undo_stack (perform op m) = deque_append item (undo_stack m) ∧
          redo_stack (perform op m) = [].
Proof.
  intros Hs. destruct (perform_kept op m Hs) as (name & ask & Hk).
  specialize (Hk (λ _, False)). destruct Hk as [_ _ Hu Hr _ _ _ _]; [by intros ?|].
  eexists. by rewrite Hu, Hr.
Qed.

Lemma update_image_tags_stacks row new m :
  undo_stack (update_image_tags row new m).1 = undo_stack m ∧
  redo_stack (update_image_tags row new m).1 = redo_stack m.
Proof.
  unfold update_image_tags. destruct (images m !! row) as [image|]; [|done].
  case_decide; [done|]. simpl.
  match goal with |- context [write_image_tags_to_disk ?i ?m1] =>
    pose proof (write_memory i m1) as Hw end.
  unfold memory in Hw. injection Hw as _ _ _ Hu Hr. simpl. by rewrite Hu, Hr.
Qed.

Lemma step_undo_stack_bound m a :
  length (undo_stack m) ≤ UNDO_STACK_SIZE →
  length (undo_stack (step m a)) ≤ UNDO_STACK_SIZE.
Proof.
  intros Hb. destruct a as [op|reply|reply|row new]; cbn [step]; unfold undo, redo.
  - destruct (takes_snapshot op) eqn:Hs.
    + destruct (perform_stacks op m Hs) as (item & -> & _).
      apply length_deque_append.
    + by rewrite perform_no_snapshot.
  - destruct (restore_history_tags_stacks true reply m)
      as [->|(rest & item & current & Hst & -> & _)]; [done|].
    rewrite Hst, length_app in Hb. lia.
  - destruct (restore_history_tags_stacks false reply m)
      as [->|(rest & item & current & Hst & -> & _)]; [done|].
    apply length_deque_append.
  - by rewrite (proj1 (update_image_tags_stacks row new m)).
Qed.

Lemma session_undo_stack_bound actions :
  ∀ m, length (undo_stack m) ≤ UNDO_STACK_SIZE →
       length (undo_stack (session actions m)) ≤ UNDO_STACK_SIZE.
Proof.
  induction actions as [|a actions IH]; intros m Hb; simpl; [done|].
  apply IH. by apply step_undo_stack_bound.
Qed.

Lemma affects_history_false m a :
  undo_stack (step m a) = undo_stack m → redo_stack (step m a) = redo_stack m →
  affects_history m a = false.
Proof.
  intros Hu Hr. unfold affects_history. rewrite Hu, Hr.
  by apply bool_decide_eq_false_2; intros H.
Qed.

(** The redo stack is empty unless the last action that changed a stack
    was an undo or a redo. *)
Lemma redo_stack_invariant actions :
  ∀ m last,
    redo_stack m = [] ∨ is_undo_or_redo last = true →
    redo_stack (session actions m) = [] ∨
    is_undo_or_redo (last_history_action actions m last) = true.
Proof.
  induction actions as [|a actions IH]; intros m last Hinv; simpl; [done|].
  apply IH. destruct a as [op|reply|reply|row new]; simpl.
  - destruct (takes_snapshot op) eqn:Hs.
    + left. by destruct (perform_stacks op m Hs) as (item & _ & ->).
    + rewrite affects_history_false; simpl; by rewrite perform_no_snapshot.
  - destruct (affects_history m (press_undo reply)) eqn:Ha; [by right|].
    unfold affects_history in Ha. apply bool_decide_eq_false in Ha.
    destruct (decide ((undo_stack (step m (press_undo reply)),
                       redo_stack (step m (press_undo reply)))
                      = (undo_stack m, redo_stack m))) as [[= _ Hr]|Hne];
      [|by destruct Ha]. simpl in Hr. by rewrite Hr.
  - destruct (affects_history m (press_redo reply)) eqn:Ha; [by right|].
    unfold affects_history in Ha. apply bool_decide_eq_false in Ha.
    destruct (decide ((undo_stack (step m (press_redo reply)),
                       redo_stack (step m (press_redo reply)))
                      = (undo_stack m, redo_stack m))) as [[= _ Hr]|Hne];
      [|by destruct Ha]. simpl in Hr. by rewrite Hr.
  - destruct (update_image_tags_stacks row new m) as [Hu Hr].
    rewrite affects_history_false by done. by rewrite Hr.
Qed.

Lemma undo_after_overflow m first rest reply :
  copied_history m →
  length rest = UNDO_STACK_SIZE →
  forallb takes_snapshot (first :: rest) = true →
  (∀ title question, reply title question = Yes) →
  tag_state (undo_times UNDO_STACK_SIZE reply (perform_all (first :: rest) m))
  = tag_state (perform first m).
Proof.
  intros Hc Hlen Hall Hyes.
  destruct (perform_all_history (first :: rest) m Hc) as [Hcf Hh].
  pose proof (length_trail_all _ m Hall) as Hlt.
  simpl in Hall. apply andb_prop in Hall as [Hfirst Hrest].
  pose proof (length_trail_all _ (perform first m) Hrest) as Hlt'.
  pose proof (trail_head rest (perform first m)) as Hhead.
  set (mf := perform_all (first :: rest) m) in *.
  set (t := trail (first :: rest) m) in *.
  assert (Ht1 : t !! 1 = Some (tag_state (perform first m))).
  { unfold t. simpl. rewrite Hfirst. simpl.
    destruct (trail rest (perform first m)) as [|second t'].
    - simpl in Hlt'. unfold UNDO_STACK_SIZE in *. lia.
    - by subst second. }
  simpl in Hlt. unfold UNDO_STACK_SIZE in *.
  assert (HS : length (undo_stack mf) = 32).
  { rewrite <- length_history, Hh. unfold newest.
    rewrite length_drop, length_app. unfold UNDO_STACK_SIZE. lia. }
  destruct (undo_times_history reply mf 32 Hyes (copied_history_lengths _ Hcf))
    as [Hstate _]; [lia|].
  apply (inj Some). rewrite Hstate, Hh, <- Ht1.
  pose proof (newest_lookup (history m) t 1) as Hnl.
  rewrite <- Hh, length_history, HS in Hnl. rewrite Hh in Hnl.
  rewrite HS. replace (32 - 32) with (32 - (length t - 1)) by lia.
  apply Hnl; unfold UNDO_STACK_SIZE; lia.
Qed.

(** ** What the loop writes and which rows it counts *)

Lemma write_effects image m :
  effects (write_image_tags_to_disk image m)
  = effects m ++ save_effects (path image, join (separator m) (tags_of m image),
                               default false (head (os_errors m))) ∧
  os_errors (write_image_tags_to_disk image m) = tail (os_errors m).
Proof.
  unfold write_image_tags_to_disk, save_effects.
  destruct (default false (head (os_errors m))); simpl; [|done].
  by rewrite <- app_assoc.
Qed.

Lemma assign_world i image a m :
  effects (assign i image a m).1 = effects m ∧
  os_errors (assign i image a m).1 = os_errors m ∧
  separator (assign i image a m).1 = separator m ∧
  path (assign i image a m).2 = path image.
Proof. by destruct a. Qed.

Lemma row_path_ext m m' row :
  path <$> images m' = path <$> images m → row_path m' row = row_path m row.
Proof.
  intros H. unfold row_path. by rewrite <- !list_lookup_fmap, H.
Qed.

Lemma row_path_lookup m i image :
  images m !! i = Some image → row_path m i = path image.
Proof. intros H. unfold row_path. by rewrite H. Qed.

Lemma save_log_app a b : save_log (a ++ b) = save_log a ++ save_log b.
Proof. unfold save_log. apply flat_map_app. Qed.

Lemma no_locs_apart m : apart (λ _, False) m.
Proof. by intros l []. Qed.

(** The loop appends the rows it counts to the list of changed rows, and
    its effects are one write per counted row, in order, each of the row's
    image. *)
Lemma for_rows_log body rows :
  ∀ m changed count,
    let r := for_rows body rows m changed count in
    ∃ new_rows attempts,
      changed_image_indices r = changed ++ new_rows ∧
      new_rows `sublist_of` rows ∧
      effects (final r) = effects m ++ save_log attempts ∧
      attempts.*1.*1 = row_path m <$> new_rows ∧
      attempts.*2 = resize (length attempts) false (os_errors m) ∧
      os_errors (final r) = drop (length attempts) (os_errors m) ∧
      (outcome r = returned → ∀ row, row ∈ rows → row < length (images m)).
Proof.
  induction rows as [|i rest IH]; intros m changed count; simpl.
  { exists [], []. simpl. rewrite !app_nil_r, drop_0, resize_0.
    repeat split; try done. intros _ row Hrow. by apply elem_of_nil in Hrow. }
  destruct (images m !! i) as [image|] eqn:Hi; simpl.
  2:{ exists [], []. simpl. rewrite !app_nil_r, drop_0, resize_0.
      repeat split; try done. apply sublist_nil_l. }
  destruct (body i (path image) (tags_of m image)) as [e|v]; simpl.
  { exists [], []. simpl. rewrite !app_nil_r, drop_0, resize_0.
    repeat split; try done. apply sublist_nil_l. }
  pose proof (assign_kept _ i image (assignment v) m (no_locs_apart m) Hi) as Hk.
  destruct (assign_world i image (assignment v) m) as (He & Ho & Hs & Hp).
  destruct (assign i image (assignment v) m) as [m1 image1]. simpl in *.
  pose proof (lookup_lt_Some _ _ _ Hi) as Hlt.
  assert (Hbound : ∀ m2 : ImageListModel,
            length (images m2) = length (images m) →
            (∀ row, row ∈ rest → row < length (images m2)) →
            ∀ row, row ∈ i :: rest → row < length (images m)).
  { intros m2 Hlen Hall row [->|Hrow]%elem_of_cons; [done|].
    rewrite <- Hlen. by apply Hall. }
  destruct (counted v).
  - set (m2 := write_image_tags_to_disk image1 m1).
    destruct (write_effects image1 m1) as [He2 Ho2]. fold m2 in He2, Ho2.
    pose proof (write_kept _ image1 m1 (kept_apart _ _ _ Hk)) as Hk2. fold m2 in Hk2.
    destruct (IH m2 (changed ++ [i]) (count + removed v))
      as (new_rows & attempts & Hc & Hsub & Hlog & Hpaths & Hoks & Herr & Hin).
    set (a := (path image1, join (separator m1) (tags_of m1 image1),
               default false (head (os_errors m1)))) in *.
    exists (i :: new_rows), (a :: attempts). repeat split.
    + rewrite Hc, <- app_assoc. done.
    + by apply sublist_skip.
    + rewrite Hlog, He2, He, <- app_assoc. done.
    + rewrite !fmap_cons, Hpaths. unfold a. cbn [fst snd].
      rewrite Hp, (row_path_lookup m i image Hi). f_equal.
      apply list_fmap_ext. intros j row _. apply row_path_ext.
      rewrite (kept_paths _ _ _ Hk2). apply (kept_paths _ _ _ Hk).
    + rewrite fmap_cons, Hoks, Ho2. unfold a. cbn [fst snd length].
      rewrite Ho. destruct (os_errors m); simpl; [by rewrite resize_nil|done].
    + cbn [length]. rewrite Herr, Ho2, Ho.
      destruct (os_errors m); simpl; [by rewrite drop_nil|done].
    + intros Hout. apply (Hbound m2); [|by apply Hin].
      rewrite (kept_length_images _ _ _ Hk2). apply (kept_length_images _ _ _ Hk).
  - destruct (IH m1 changed (count + removed v))
      as (new_rows & attempts & Hc & Hsub & Hlog & Hpaths & Hoks & Herr & Hin).
    exists new_rows, attempts. repeat split; try done.
    + by apply sublist_cons.
    + by rewrite Hlog, He.
    + rewrite Hpaths. apply list_fmap_ext. intros j row _. apply row_path_ext.
      apply (kept_paths _ _ _ Hk).
    + by rewrite Hoks, Ho.
    + by rewrite Herr, Ho.
    + intros Hout. apply (Hbound m1); [|by apply Hin].
      apply (kept_length_images _ _ _ Hk).
Qed.

(** ** The loop row by row, when no two images share a list object *)

Lemma filter_ext_in {A} (P Q : A → Prop) `{∀ x, Decision (P x)}
    `{∀ x, Decision (Q x)} (l : list A) :
  (∀ x, x ∈ l → (P x ↔ Q x)) → filter P l = filter Q l.
Proof.
  induction l as [|x l IH]; intros Hext; [done|].
  rewrite !filter_cons.
  assert (Hl : filter P l = filter Q l).
  { apply IH. intros y Hy. apply Hext. by right. }
  pose proof (Hext x ltac:(by left)) as Hx.
  destruct (decide (P x)), (decide (Q x)); try tauto; by rewrite Hl.
Qed.

Lemma NoDup_insert_fresh {A} (l : list A) i x :
  NoDup l → x ∉ l → NoDup (<[i:=x]> l).
Proof.
  intros Hnd Hx. apply NoDup_alt. intros j k y Hj Hk.
  rewrite list_lookup_insert in Hj, Hk.
  destruct (decide (i = j ∧ i < length l)) as [Hij|Hij];
    destruct (decide (i = k ∧ i < length l)) as [Hik|Hik].
  - lia.
  - destruct Hx. apply list_elem_of_lookup. exists k. congruence.
  - destruct Hx. apply list_elem_of_lookup. exists j. congruence.
  - by eapply (proj1 (NoDup_alt l)).
Qed.

Lemma row_tags_lookup m i image :
  images m !! i = Some image → row_tags m i = tags_of m image.
Proof. intros H. unfold row_tags. by rewrite tag_state_lookup, H. Qed.

Lemma well_formed_memory m m' :
  memory m' = memory m → well_formed m → well_formed m'.
Proof.
  unfold memory. intros [= Hs Hh Hi Hu Hr].
  unfold well_formed, live. by rewrite Hh, Hi.
Qed.

Lemma tag_state_memory m m' : memory m' = memory m → tag_state m' = tag_state m.
Proof.
  unfold memory. intros [= Hs Hh Hi Hu Hr].
  unfold tag_state, tags_of. by rewrite Hh, Hi.
Qed.

(** One assignment changes the tags of its row and of no other. *)
Lemma assign_tag_state i image a m :
  well_formed m → images m !! i = Some image →
  tag_state (assign i image a m).1
    = <[i := new_value a (tags_of m image)]> (tag_state m) ∧
  well_formed (assign i image a m).1.
Proof.
  intros [Hv Hnd] Hi.
  pose proof (lookup_lt_Some _ _ _ Hi) as Hlt.
  assert (Hlive : tags image ∈ live m).
  { apply list_elem_of_lookup. exists i. by apply live_lookup. }
  pose proof (valid_live_lt m _ Hv Hlive) as Hvalid.
  destruct a as [|new|new]; simpl.
  - split; [|done]. symmetry. apply list_insert_id.
    by rewrite tag_state_lookup, Hi.
  - split.
    + apply list_eq. intros j. rewrite tag_state_lookup. simpl.
      destruct (decide (i = j)) as [<-|Hne].
      * rewrite !list_lookup_insert_eq by (by rewrite ?length_tag_state).
        simpl. unfold tags_of, deref. simpl.
        by rewrite lookup_app_r, Nat.sub_diag by lia.
      * rewrite !list_lookup_insert_ne by done. rewrite tag_state_lookup.
        destruct (images m !! j) as [image_j|] eqn:Hj; simpl; [|done].
        f_equal. unfold tags_of. simpl. apply deref_app_l.
        apply (valid_live_lt m); [done|].
        apply list_elem_of_lookup. exists j. by apply live_lookup.
    + split.
      * unfold live. simpl. rewrite list_fmap_insert. simpl.
        apply Forall_insert.
        -- eapply Forall_impl; [|exact Hv]. intros l Hl. simpl in Hl.
           rewrite length_app. simpl. lia.
        -- rewrite length_app. simpl. lia.
      * unfold live. simpl. rewrite list_fmap_insert. simpl.
        apply NoDup_insert_fresh; [done|].
        intros Hin. pose proof (valid_live_lt m _ Hv Hin). lia.
  - split; [|split].
    + apply list_eq. intros j. rewrite tag_state_lookup. simpl.
      destruct (decide (i = j)) as [<-|Hne].
      * rewrite list_lookup_insert_eq by (by rewrite ?length_tag_state).
        rewrite Hi. simpl. unfold tags_of, deref. simpl.
        by rewrite list_lookup_insert_eq.
      * rewrite list_lookup_insert_ne by done. rewrite tag_state_lookup.
        destruct (images m !! j) as [image_j|] eqn:Hj; simpl; [|done].
        f_equal. unfold tags_of, deref. simpl.
        rewrite list_lookup_insert_ne; [done|].
        intros Heq. apply Hne.
        apply (proj1 (NoDup_alt (live m)) Hnd i j (tags image));
          [by apply live_lookup|]. rewrite Heq. by apply live_lookup.
    + unfold valid_live, live in *. simpl. by rewrite length_insert.
    + done.
Qed.

Lemma row_tags_insert m m' i v j :
  tag_state m' = <[i := v]> (tag_state m) → i < length (images m) →
  row_tags m' j = if decide (i = j) then v else row_tags m j.
Proof.
  intros Ht Hlt. unfold row_tags. rewrite Ht. case_decide as Hij.
  - subst j. by rewrite list_lookup_insert_eq by (by rewrite length_tag_state).
  - by rewrite list_lookup_insert_ne.
Qed.

(** For a body that never raises, on distinct rows of a well-formed model:
    the loop returns, each visited row gets the value its own iteration
    assigns, computed from the tags the row had before the loop, and the
    rows counted are those whose own iteration counts them. *)
Lemma for_rows_total body rows :
  total body →
  ∀ m changed count,
    well_formed m → NoDup rows →
    (∀ row, row ∈ rows → row < length (images m)) →
    let r := for_rows body rows m changed count in
    outcome r = returned ∧
    well_formed (final r) ∧
    path <$> images (final r) = path <$> images m ∧
    (∀ j, row_tags (final r) j =
          if decide (j ∈ rows)
          then new_value (assignment (visit_at body m j)) (row_tags m j)
          else row_tags m j) ∧
    changed_image_indices r
      = changed ++ filter (λ j, counted (visit_at body m j) = true) rows.
Proof.
  intros Htotal. induction rows as [|i rest IH];
    intros m changed count Hwf Hnd Hbound; simpl.
  { rewrite app_nil_r. do 3 (split; [done|]). by split. }
  apply list.NoDup_cons in Hnd as [Hi_rest Hnd].
  assert (Hlt : i < length (images m)) by (apply Hbound; by left).
  destruct (lookup_lt_is_Some_2 _ _ Hlt) as [image Hi]. rewrite Hi.
  rewrite Htotal.
  assert (Hvisit : visit_of body i (path image) (tags_of m image)
                   = visit_at body m i).
  { unfold visit_at. by rewrite (row_path_lookup m i image Hi),
                                (row_tags_lookup m i image Hi). }
  rewrite Hvisit. set (v := visit_at body m i).
  destruct (assign_tag_state i image (assignment v) m Hwf Hi) as [Hts Hwf1].
  pose proof (assign_kept _ i image (assignment v) m (no_locs_apart m) Hi) as Hk.
  destruct (assign i image (assignment v) m) as [m1 image1]. simpl in *.
  rewrite <- (row_tags_lookup m i image Hi) in Hts.
  (* the state the rest of the loop starts from *)
  assert (Hnext : ∀ m2, memory m2 = memory m1 →
            well_formed m2 ∧
            path <$> images m2 = path <$> images m ∧
            (∀ row, row ∈ rest → row < length (images m2)) ∧
            (∀ j, row_tags m2 j
                  = if decide (i = j) then new_value (assignment v) (row_tags m i)
                    else row_tags m j) ∧
            (∀ j, j ∈ rest → visit_at body m2 j = visit_at body m j)).
  { intros m2 Hm2.
    assert (Hpaths : path <$> images m2 = path <$> images m).
    { rewrite <- (kept_paths _ _ _ Hk). unfold memory in Hm2. congruence. }
    assert (Htags : ∀ j, row_tags m2 j
                         = if decide (i = j)
                           then new_value (assignment v) (row_tags m i)
                           else row_tags m j).
    { intros j. apply row_tags_insert; [|done].
      by rewrite (tag_state_memory _ _ Hm2). }
    split; [by apply (well_formed_memory m1)|]. split; [done|]. split; [|split].
    - intros row Hrow. rewrite <- (length_fmap path), Hpaths, length_fmap.
      apply Hbound. by right.
    - done.
    - intros j Hj. unfold visit_at. rewrite (row_path_ext m m2 j Hpaths), Htags.
      rewrite decide_False; [done|]. by intros <-. }
  assert (Hfinish : ∀ m2 changed' count',
            memory m2 = memory m1 →
            changed' = changed ++ (if counted v then [i] else []) →
            let r := for_rows body rest m2 changed' count' in
            outcome r = returned ∧ well_formed (final r) ∧
            path <$> images (final r) = path <$> images m ∧
            (∀ j, row_tags (final r) j =
                  if decide (j ∈ i :: rest)
                  then new_value (assignment (visit_at body m j)) (row_tags m j)
                  else row_tags m j) ∧
            changed_image_indices r
              = changed ++ filter (λ j, counted (visit_at body m j) = true)
                                  (i :: rest)).
  { intros m2 changed' count' Hm2 ->.
    destruct (Hnext m2 Hm2) as (Hwf2 & Hpaths & Hbound2 & Htags & Hvis).
    destruct (IH m2 (changed ++ (if counted v then [i] else [])) count'
                 Hwf2 Hnd Hbound2) as (Hout & Hwff & Hpf & Hrows & Hchanged).
    split; [done|]. split; [done|]. split; [congruence|]. split.
    - intros j. rewrite Hrows, Htags.
      destruct (decide (i = j)) as [<-|Hne].
      + rewrite decide_False by done. rewrite decide_True by (by left). done.
      + destruct (decide (j ∈ rest)) as [Hj|Hj].
        * rewrite decide_True by (by right). by rewrite Hvis.
        * rewrite decide_False; [done|].
          intros [->|?]%elem_of_cons; done.
    - rewrite Hchanged, filter_cons. fold v. rewrite <- app_assoc. f_equal.
      rewrite (filter_ext_in _ (λ j, counted (visit_at body m j) = true) rest).
      + by destruct (counted v); [rewrite decide_True|rewrite decide_False].
      + intros j Hj. by rewrite Hvis. }
  destruct (counted v) eqn:Hcounted.
  - apply Hfinish; [apply write_memory|done].
  - apply Hfinish; [done|by rewrite app_nil_r].
Qed.

(** ** Reading the log *)

Lemma effects_since_app m m' log :
  effects m' = effects m ++ log → effects_since m m' = log.
Proof. intros H. unfold effects_since. by rewrite H, drop_app_length. Qed.

Lemma saved_paths_app a b : saved_paths (a ++ b) = saved_paths a ++ saved_paths b.
Proof. apply omap_app. Qed.

Lemma save_attempts_app a b :
  save_attempts (a ++ b) = save_attempts a ++ save_attempts b.
Proof. apply omap_app. Qed.

Lemma notifications_app a b :
  notifications (a ++ b) = notifications a ++ notifications b.
Proof. apply omap_app. Qed.

Lemma saved_paths_save_log attempts : saved_paths (save_log attempts) = attempts.*1.*1.
Proof.
  induction attempts as [|[[p c] raises] attempts IH]; [done|].
  change (save_log ((p, c, raises) :: attempts))
    with (save_effects (p, c, raises) ++ save_log attempts).
  rewrite saved_paths_app, IH. by destruct raises.
Qed.

Lemma save_attempts_save_log attempts :
  save_attempts (save_log attempts) = attempts.*1.
Proof.
  induction attempts as [|[[p c] raises] attempts IH]; [done|].
  change (save_log ((p, c, raises) :: attempts))
    with (save_effects (p, c, raises) ++ save_log attempts).
  rewrite save_attempts_app, IH. by destruct raises.
Qed.

Lemma notifications_save_log attempts : notifications (save_log attempts) = [].
Proof.
  induction attempts as [|[[p c] raises] attempts IH]; [done|].
  change (save_log ((p, c, raises) :: attempts))
    with (save_effects (p, c, raises) ++ save_log attempts).
  rewrite notifications_app, IH. by destruct raises.
Qed.

Lemma failures_reported_save_log attempts log :
  failures_reported log → failures_reported (save_log attempts ++ log).
Proof.
  intros Hlog. induction attempts as [|[[p c] raises] attempts IH]; [done|].
  change (save_log ((p, c, raises) :: attempts))
    with (save_effects (p, c, raises) ++ save_log attempts).
  by destruct raises.
Qed.

Lemma notifications_notify_changed changed m :
  effects (notify_changed changed m)
    = effects m ++ ((λ r, dataChanged r.1 r.2) <$> reported_range changed).
Proof. destruct changed; simpl; [by rewrite app_nil_r|done]. Qed.

Lemma notifications_reported ranges :
  notifications ((λ r, dataChanged r.1 r.2) <$> ranges) = ranges.
Proof.
  induction ranges as [|[a b] ranges IH]; [done|]. simpl. f_equal. exact IH.
Qed.

Lemma saved_paths_reported ranges :
  saved_paths ((λ r, dataChanged r.1 r.2) <$> ranges) = [].
Proof. by induction ranges. Qed.

Lemma save_attempts_reported ranges :
  save_attempts ((λ r, dataChanged r.1 r.2) <$> ranges) = [].
Proof. by induction ranges. Qed.

Lemma failures_reported_ranges ranges :
  failures_reported ((λ r, dataChanged r.1 r.2) <$> ranges).
Proof. by induction ranges. Qed.

(** The log of a bulk edit: the signal of [add_to_undo_stack], one write
    per changed row, and the range of the changed rows when the loop
    returns. *)
Lemma bulk_edit_log name body m :
  let r := bulk_edit name body m in
  ∃ attempts,
    effects (final r)
      = effects m ++ [update_undo_and_redo_actions_requested]
        ++ save_log attempts
        ++ ((λ r, dataChanged r.1 r.2) <$>
              (if decide (outcome r = returned)
               then reported_range (changed_image_indices r) else [])) ∧
    attempts.*1.*1 = row_path m <$> changed_image_indices r ∧
    attempts.*2 = resize (length attempts) false (os_errors m) ∧
    changed_image_indices r `sublist_of` seq 0 (length (images m)).
Proof.
  unfold bulk_edit. set (m1 := add_to_undo_stack name true m).
  set (r := for_rows body (seq 0 (length (images m1))) m1 [] 0).
  pose proof (for_rows_log body (seq 0 (length (images m1))) m1 [] 0) as H.
  cbv zeta in H. fold r in H.
  destruct H as (new_rows & attempts & Hc & Hsub & Hlog & Hpaths & Hoks & _ & _).
  change ([] ++ new_rows) with new_rows in Hc. exists attempts.
  assert (Hp : attempts.*1.*1 = row_path m <$> changed_image_indices r).
  { by rewrite Hpaths, Hc. }
  assert (Hs : changed_image_indices r `sublist_of` seq 0 (length (images m))).
  { by rewrite Hc. }
  assert (Hl : effects (final r)
               = effects m ++ [update_undo_and_redo_actions_requested]
                 ++ save_log attempts).
  { rewrite Hlog. simpl. by rewrite <- app_assoc. }
  destruct (outcome r) eqn:Hout; simpl.
  - rewrite notifications_notify_changed, Hl. by rewrite <- !app_assoc.
  - by rewrite Hout, app_nil_r.
Qed.

Lemma add_to_undo_stack_well_formed name ask m :
  well_formed m → well_formed (add_to_undo_stack name ask m).
Proof.
  intros [Hv Hnd]. split; [|done]. unfold valid_live, live. simpl.
  eapply Forall_impl; [|exact Hv]. intros l Hl. simpl in Hl.
  rewrite length_app. lia.
Qed.

Lemma row_tags_ext m m' row :
  tag_state m' = tag_state m → row_tags m' row = row_tags m row.
Proof. intros H. unfold row_tags. by rewrite H. Qed.

(** A bulk edit whose body never raises, on a well-formed model: each
    row's new tags and whether it is counted are decided by the row's own
    path and tags as they were before the call. *)
Lemma bulk_edit_total name body m :
  total body → well_formed m →
  let r := bulk_edit name body m in
  outcome r = returned ∧
  well_formed (final r) ∧
  separator (final r) = separator m ∧
  path <$> images (final r) = path <$> images m ∧
  (∀ row, row < length (images m) →
     row_tags (final r) row
     = new_value (assignment (visit_at body m row)) (row_tags m row)) ∧
  changed_image_indices r
    = filter (λ row, counted (visit_at body m row) = true)
             (seq 0 (length (images m))).
Proof.
  intros Htotal Hwf. unfold bulk_edit.
  set (m1 := add_to_undo_stack name true m).
  assert (Hvis : ∀ row, visit_at body m1 row = visit_at body m row).
  { intros row. unfold visit_at. f_equal. apply row_tags_ext.
    apply add_to_undo_stack_tag_state, Hwf. }
  destruct (for_rows_total body (seq 0 (length (images m1))) Htotal m1 [] 0)
    as (Hout & Hwf' & Hpaths & Hrows & Hchanged).
  { by apply add_to_undo_stack_well_formed. }
  { apply NoDup_seq. }
  { intros row Hrow%elem_of_seq. lia. }
  pose proof (for_rows_kept _ body (seq 0 (length (images m1))) m1 [] 0
                (no_locs_apart m1)) as Hk.
  set (r := for_rows body (seq 0 (length (images m1))) m1 [] 0) in *.
  rewrite Hout. simpl.
  pose proof (notify_changed_memory (changed_image_indices r) (final r)) as Hn.
  split; [done|]. split; [by apply (well_formed_memory (final r))|].
  split; [|split; [|split]].
  - unfold memory in Hn. injection Hn as -> _ _ _ _. apply (kept_separator _ _ _ Hk).
  - unfold memory in Hn. injection Hn as _ _ -> _ _. exact Hpaths.
  - intros row Hrow. rewrite (row_tags_ext _ _ row (tag_state_memory _ _ Hn)).
    rewrite Hrows, decide_True by (apply elem_of_seq; simpl; lia).
    rewrite Hvis. f_equal. apply row_tags_ext.
    apply add_to_undo_stack_tag_state, Hwf.
  - rewrite Hchanged. simpl. apply filter_ext_in. intros row _. by rewrite Hvis.
Qed.

Lemma total_intro (body : Body) :
  (∀ row p ts, ∃ v, body row p ts = inr v) → total body.
Proof.
  intros H row p ts. unfold visit_of. by destruct (H row p ts) as [v ->].
Qed.

Lemma sort_body_total sep order fixed : total (sort_body sep order fixed).
Proof.
  apply total_intro. intros row p ts. unfold sort_body, skip.
  repeat case_match; eauto.
Qed.

Lemma shuffle_body_total random_shuffle fixed :
  total (shuffle_body random_shuffle fixed).
Proof.
  apply total_intro. intros row p ts. unfold shuffle_body, skip.
  repeat case_match; eauto.
Qed.

Lemma remove_duplicate_body_total : total remove_duplicate_body.
Proof.
  apply total_intro. intros row p ts. unfold remove_duplicate_body, skip.
  repeat case_match; eauto.
Qed.

Lemma remove_empty_body_total : total remove_empty_body.
Proof.
  apply total_intro. intros row p ts. unfold remove_empty_body.
  repeat case_match; eauto.
Qed.

Lemma rename_body_total old_tag new_tag only visible :
  total (rename_body old_tag new_tag only visible).
Proof.
  apply total_intro. intros row p ts. unfold rename_body, skip.
  repeat case_match; eauto.
Qed.

Lemma delete_body_total tag only visible : total (delete_body tag only visible).
Proof.
  apply total_intro. intros row p ts. unfold delete_body, skip.
  repeat case_match; eauto.
Qed.

Lemma find_and_replace_body_total sep find_text replace_text only visible :
  sep ≠ EmptyString →
  total (find_and_replace_body sep find_text replace_text only visible).
Proof.
  intros Hsep. apply total_intro. intros row p ts.
  unfold find_and_replace_body, skip, split.
  destruct sep; [done|]. repeat case_match; eauto.
Qed.

(** What an observer of the log sees of a bulk edit that returns: one
    write per changed row, in order, and the range from the first to the
    last changed row, or no range when no row changed. *)
Lemma bulk_edit_observed name body m :
  let r := bulk_edit name body m in
  outcome r = returned →
  saved_paths (effects_since m (final r))
    = row_path m <$> changed_image_indices r ∧
  notifications (effects_since m (final r))
    = reported_range (changed_image_indices r) ∧
  changed_image_indices r `sublist_of` seq 0 (length (images m)).
Proof.
  intros r Hout.
  destruct (bulk_edit_log name body m) as (attempts & Hlog & Hpaths & _ & Hsub).
  fold r in Hlog, Hpaths, Hsub. rewrite decide_True in Hlog by done.
  rewrite (effects_since_app _ _ _ Hlog). split; [|split; [|done]].
  - rewrite !saved_paths_app, saved_paths_save_log, saved_paths_reported.
    simpl. by rewrite app_nil_r.
  - rewrite !notifications_app, notifications_save_log, notifications_reported.
    done.
Qed.

Lemma shuffle_counted random_shuffle fixed m row :
  counted (visit_at (shuffle_body random_shuffle fixed) m row) = true
  ↔ 2 ≤ length (row_tags m row).
Proof.
  unfold visit_at, visit_of, shuffle_body, skip.
  destruct (length (row_tags m row) <? 2) eqn:Hlen.
  - apply Nat.ltb_lt in Hlen. simpl. split; [done|lia].
  - apply Nat.ltb_ge in Hlen. by destruct fixed, (row_tags m row).
Qed.

(** ** Which rows each operation counts as changed *)

Lemma sort_counted sep order fixed row p ts :
  let v := visit_of (sort_body sep order fixed) row p ts in
  counted v = true ↔ join sep (new_value (assignment v) ts) ≠ join sep ts.
Proof.
  unfold visit_of, sort_body, skip.
  destruct (length ts <? 2); [simpl; split; [done|by intros []]|].
  destruct fixed, ts as [|first_tag others]; simpl;
    by rewrite negb_true_iff, String.eqb_neq.
Qed.

Lemma length_dict_fromkeys ts : length (dict_fromkeys ts) ≤ length ts.
Proof.
  induction ts as [|t ts IH]; simpl; [done|].
  pose proof (length_filter (λ y, y ≠ t) (dict_fromkeys ts)). lia.
Qed.

Lemma remove_duplicate_counted row p ts :
  let v := visit_of remove_duplicate_body row p ts in
  counted v = true ↔ length (new_value (assignment v) ts) < length ts.
Proof.
  unfold visit_of, remove_duplicate_body, skip.
  pose proof (length_dict_fromkeys ts) as Hle.
  destruct (length ts =? length (dict_fromkeys ts)) eqn:Heq; simpl.
  - split; [done|lia].
  - apply Nat.eqb_neq in Heq. split; [lia|done].
Qed.

Lemma remove_empty_counted row p ts :
  let v := visit_of remove_empty_body row p ts in
  counted v = true ↔ length (new_value (assignment v) ts) < length ts.
Proof.
  unfold visit_of, remove_empty_body.
  pose proof (length_filter (λ tag, truthy (strip tag) = true) ts) as Hle.
  destruct (length ts =? length (filter _ ts)) eqn:Heq; simpl.
  - apply Nat.eqb_eq in Heq. split; [done|lia].
  - apply Nat.eqb_neq in Heq. split; [lia|done].
Qed.

Lemma rename_counted old_tag new_tag only visible row p ts :
  counted (visit_of (rename_body old_tag new_tag only visible) row p ts) = true
  ↔ filtered_out only visible p ts = false ∧ old_tag ∈ ts.
Proof.
  unfold visit_of, rename_body, skip.
  destruct (filtered_out only visible p ts); simpl; [by split; [|intros []]|].
  case_bool_decide; simpl; [by split|]. by split; [|intros []].
Qed.

Lemma delete_counted tag only visible row p ts :
  counted (visit_of (delete_body tag only visible) row p ts) = true
  ↔ filtered_out only visible p ts = false ∧ tag ∈ ts.
Proof.
  unfold visit_of, delete_body, skip.
  destruct (filtered_out only visible p ts); simpl; [by split; [|intros []]|].
  case_bool_decide; simpl; [by split|]. by split; [|intros []].
Qed.

Lemma find_and_replace_counted sep find_text replace_text only visible row p ts :
  sep ≠ EmptyString →
  counted (visit_of (find_and_replace_body sep find_text replace_text
                       only visible) row p ts) = true
  ↔ filtered_out only visible p ts = false ∧
    contains find_text (join sep ts) = true.
Proof.
  intros Hsep. unfold visit_of, find_and_replace_body, skip, split.
  destruct (filtered_out only visible p ts); simpl; [by split; [|intros []]|].
  destruct (contains find_text (join sep ts)); simpl; [|by split; [|intros []]].
  by destruct sep.
Qed.

Lemma elem_of_changed (P : nat → Prop) `{∀ x, Decision (P x)} n row :
  row < n → row ∈ filter P (seq 0 n) ↔ P row.
Proof.
  intros Hrow. rewrite list_elem_of_filter, elem_of_seq. split; [tauto|].
  intros HP. split; [done|lia].
Qed.

(** On a well-formed model with a non-empty separator, every operation
    counts exactly the rows its rule names. *)
Lemma changed_rows_follow_the_rule op m row :
  well_formed m → separator m ≠ EmptyString → row < length (images m) →
  row ∈ changed_image_indices (run op m)
  ↔ counts_as_changed op m (perform op m) row.
Proof.
  intros Hwf Hsep Hrow. unfold perform.
  destruct op as [old_tag new_tag only visible|tag only visible|
                  new_tags image_indices|fixed|tag_counter fixed|
                  random_shuffle fixed| | |
                  find_text replace_text only visible]; simpl.
  - destruct (bulk_edit_total "Rename Tag"
                (rename_body old_tag new_tag only visible) m
                (rename_body_total _ _ _ _) Hwf) as (_ & _ & _ & _ & _ & Hc).
    unfold rename_tag. rewrite Hc, elem_of_changed by done.
    apply rename_counted.
  - destruct (bulk_edit_total "Delete Tag" (delete_body tag only visible) m
                (delete_body_total _ _ _) Hwf) as (_ & _ & _ & _ & _ & Hc).
    unfold delete_tag. rewrite Hc, elem_of_changed by done.
    apply delete_counted.
  - destruct (add_tags new_tags image_indices m). simpl.
    split; [by intros ?%elem_of_nil|done].
  - destruct (bulk_edit_total "Sort Tags" (sort_body (separator m) sorted fixed) m
                (sort_body_total _ _ _) Hwf) as (_ & _ & Hs & _ & Hr & Hc).
    unfold sort_tags_alphabetically. rewrite Hc, elem_of_changed by done.
    unfold row_caption at 1. rewrite Hs, (Hr row Hrow). apply sort_counted.
  - destruct (bulk_edit_total "Sort Tags"
                (sort_body (separator m) (sorted_by_count tag_counter) fixed) m
                (sort_body_total _ _ _) Hwf) as (_ & _ & Hs & _ & Hr & Hc).
    unfold sort_tags_by_frequency. rewrite Hc, elem_of_changed by done.
    unfold row_caption at 1. rewrite Hs, (Hr row Hrow). apply sort_counted.
  - destruct (bulk_edit_total "Shuffle Tags" (shuffle_body random_shuffle fixed) m
                (shuffle_body_total _ _) Hwf) as (_ & _ & _ & _ & _ & Hc).
    unfold shuffle_tags. rewrite Hc, elem_of_changed by done.
    apply shuffle_counted.
  - destruct (bulk_edit_total "Remove Duplicate Tags" remove_duplicate_body m
                remove_duplicate_body_total Hwf) as (_ & _ & _ & _ & Hr & Hc).
    unfold remove_duplicate_tags. rewrite Hc, elem_of_changed by done.
    rewrite (Hr row Hrow). apply remove_duplicate_counted.
  - destruct (bulk_edit_total "Remove Empty Tags" remove_empty_body m
                remove_empty_body_total Hwf) as (_ & _ & _ & _ & Hr & Hc).
    unfold remove_empty_tags. rewrite Hc, elem_of_changed by done.
    rewrite (Hr row Hrow). apply remove_empty_counted.
  - unfold find_and_replace. destruct find_text as [|c find_rest]; simpl.
    { split; [by intros ?%elem_of_nil|by intros [? _]]. }
    set (find_text := String c find_rest).
    destruct (bulk_edit_total "Find and Replace"
                (find_and_replace_body (separator m) find_text replace_text
                   only visible) m
                (find_and_replace_body_total _ _ _ _ _ Hsep) Hwf)
      as (_ & _ & _ & _ & _ & Hc).
    rewrite Hc, elem_of_changed by done.
    unfold visit_at. rewrite find_and_replace_counted by done.
    unfold row_caption. split; [by intros [? ?]|by intros (_ & ? & ?)].
Qed.

Lemma for_rows_all_counted body rows :
  (∀ i p ts v, body i p ts = inr v → counted v = true) →
  ∀ m changed count,
    let r := for_rows body rows m changed count in
    outcome r = returned → changed_image_indices r = changed ++ rows.
Proof.
  intros Hall. induction rows as [|i rest IH]; intros m changed count; simpl.
  { by rewrite app_nil_r. }
  destruct (images m !! i) as [image|]; simpl; [|done].
  destruct (body i (path image) (tags_of m image)) as [e|v] eqn:Hb; simpl;
    [done|].
  rewrite (Hall _ _ _ _ Hb).
  destruct (assign i image (assignment v) m) as [m1 image1].
  intros Hout. rewrite (IH _ _ _ Hout), <- app_assoc. done.
Qed.

(** [add_tags], when it returns, has written every target image, in the
    order given, and notified the range from the smallest to the largest
    target row. *)
Lemma add_tags_observed new_tags image_indices m :
  (add_tags new_tags image_indices m).2 = returned →
  saved_paths (effects_since m (add_tags new_tags image_indices m).1)
    = row_path m <$> image_indices ∧
  ∃ row others,
    image_indices = row :: others ∧
    notifications (effects_since m (add_tags new_tags image_indices m).1)
      = [(foldr Nat.min row others, foldr Nat.max row others)].
Proof.
  unfold add_tags.
  set (m1 := add_to_undo_stack _ _ m).
  set (r := for_rows (add_tags_body new_tags) image_indices m1 [] 0).
  pose proof (for_rows_log (add_tags_body new_tags) image_indices m1 [] 0) as H.
  cbv zeta in H. fold r in H.
  destruct H as (new_rows & attempts & Hc & _ & Hlog & Hpaths & _).
  pose proof (for_rows_all_counted (add_tags_body new_tags) image_indices
                ltac:(by intros i p ts v [= <-]) m1 [] 0) as Hall.
  cbv zeta in Hall. fold r in Hall.
  destruct (outcome r) eqn:Hout; simpl; [|done].
  specialize (Hall eq_refl). rewrite Hc in Hall. simpl in Hall. subst new_rows.
  destruct image_indices as [|row others]; simpl; [done|]. intros _.
  assert (Heff : effects (emit (dataChanged (foldr Nat.min row others)
                                            (foldr Nat.max row others)) (final r))
                 = effects m ++ [update_undo_and_redo_actions_requested]
                   ++ save_log attempts
                   ++ [dataChanged (foldr Nat.min row others)
                                   (foldr Nat.max row others)]).
  { simpl. rewrite Hlog. simpl. by rewrite <- !app_assoc. }
  rewrite (effects_since_app _ _ _ Heff). split.
  - rewrite !saved_paths_app, saved_paths_save_log, Hpaths. simpl.
    by rewrite app_nil_r.
  - eexists _, _. split; [done|].
    by rewrite !notifications_app, notifications_save_log.
Qed.

Lemma run_observed op m :
  is_add_tags op = false →
  outcome (run op m) = returned →
  saved_paths (effects_since m (perform op m))
    = row_path m <$> changed_image_indices (run op m) ∧
  notifications (effects_since m (perform op m))
    = reported_range (changed_image_indices (run op m)) ∧
  changed_image_indices (run op m) `sublist_of` seq 0 (length (images m)).
Proof.
  intros Hop. unfold perform.
  destruct op; simpl in *; try done; try apply bulk_edit_observed.
  unfold find_and_replace. destruct (truthy find_text); simpl.
  - apply bulk_edit_observed.
  - intros _. unfold effects_since. rewrite drop_all.
    split; [done|]. split; [done|]. apply sublist_nil_l.
Qed.

(** ** Failed writes change nothing in memory *)

Lemma memory_eq m m2 :
  memory m = memory m2 →
  separator m = separator m2 ∧ heap m = heap m2 ∧ images m = images m2 ∧
  undo_stack m = undo_stack m2 ∧ redo_stack m = redo_stack m2.
Proof. unfold memory. by intros [= -> -> -> -> ->]. Qed.

Lemma assign_same_memory i image a m m2 :
  memory m = memory m2 →
  memory (assign i image a m).1 = memory (assign i image a m2).1 ∧
  (assign i image a m).2 = (assign i image a m2).2.
Proof.
  intros (Hs & Hh & Hi & Hu & Hr)%memory_eq.
  destruct a; unfold memory; simpl; by rewrite ?Hs, ?Hh, ?Hi, ?Hu, ?Hr.
Qed.

Lemma effects_since_trans m m' m'' a b :
  effects m' = effects m ++ a → effects m'' = effects m' ++ b →
  effects_since m m'' = a ++ effects_since m' m''.
Proof.
  intros Ha Hb. unfold effects_since.
  rewrite Hb, !drop_app_length, Ha, <- app_assoc. by rewrite drop_app_length.
Qed.

Lemma save_attempts_save_effects p c raises :
  save_attempts (save_effects (p, c, raises)) = [(p, c)].
Proof. by destruct raises. Qed.

(** The loop run on two models that agree in memory, whatever their
    scripts of write failures: the runs agree in memory, in the rows they
    count, in their outcome, and in what they try to write. *)
Lemma for_rows_same_memory body rows :
  ∀ m m2 changed count,
    memory m = memory m2 →
    let r := for_rows body rows m changed count in
    let r2 := for_rows body rows m2 changed count in
    memory (final r) = memory (final r2) ∧
    changed_image_indices r = changed_image_indices r2 ∧
    removed_tag_count r = removed_tag_count r2 ∧
    outcome r = outcome r2 ∧
    save_attempts (effects_since m (final r))
      = save_attempts (effects_since m2 (final r2)).
Proof.
  induction rows as [|i rest IH]; intros m m2 changed count Hm; simpl.
  { unfold effects_since. by rewrite !drop_all. }
  pose proof (memory_eq _ _ Hm) as (Hs & Hh & Hi & _).
  rewrite <- Hi. unfold tags_of. rewrite <- Hh.
  destruct (images m !! i) as [image|]; simpl.
  2:{ unfold effects_since. by rewrite !drop_all. }
  destruct (body i (path image) (deref (heap m) (tags image))) as [e|v]; simpl.
  { unfold effects_since. by rewrite !drop_all. }
  destruct (assign_same_memory i image (assignment v) m m2 Hm) as [Hm1 Himage].
  destruct (assign_world i image (assignment v) m) as (He & _ & Hsep & _).
  destruct (assign_world i image (assignment v) m2) as (He2 & _ & Hsep2 & _).
  destruct (assign i image (assignment v) m) as [m1 image1].
  destruct (assign i image (assignment v) m2) as [m1' image1'].
  simpl in *. subst image1'.
  pose proof (memory_eq _ _ Hm1) as (Hs1 & Hh1 & _).
  destruct (counted v).
  - set (w := write_image_tags_to_disk image1 m1).
    set (w2 := write_image_tags_to_disk image1 m1').
    assert (Hw : memory w = memory w2).
    { unfold w, w2. by rewrite !write_memory. }
    destruct (IH w w2 (changed ++ [i]) (count + removed v) Hw)
      as (Hfm & Hfc & Hfr & Hfo & Hfa).
    do 4 (split; [done|]).
    destruct (write_effects image1 m1) as [Hwe _].
    destruct (write_effects image1 m1') as [Hwe2 _].
    fold w in Hwe. fold w2 in Hwe2. rewrite He in Hwe. rewrite He2 in Hwe2.
    destruct (for_rows_log body rest w (changed ++ [i]) (count + removed v))
      as (? & ? & _ & _ & Hlog & _).
    destruct (for_rows_log body rest w2 (changed ++ [i]) (count + removed v))
      as (? & ? & _ & _ & Hlog2 & _).
    rewrite (effects_since_trans _ _ _ _ _ Hwe Hlog),
            (effects_since_trans _ _ _ _ _ Hwe2 Hlog2).
    rewrite !save_attempts_app, !save_attempts_save_effects, Hfa.
    unfold tags_of. by rewrite Hs1, Hh1.
  - destruct (IH m1 m1' changed (count + removed v) Hm1)
      as (Hfm & Hfc & Hfr & Hfo & Hfa).
    do 4 (split; [done|]).
    unfold effects_since in *. by rewrite <- He, <- He2.
Qed.

Lemma failures_reported_app a b :
  failures_reported a → failures_reported b → failures_reported (a ++ b).
Proof.
  intros Ha Hb. remember (length a) as n eqn:Hn.
  revert a Hn Ha. induction (lt_wf n) as [n _ IH]. intros a Hn Ha.
  destruct a as [|e a]; [done|].
  assert (Hrest : failures_reported a → failures_reported (a ++ b)).
  { intros Hfa. apply (IH (length a)); [subst n; simpl; lia|done|done]. }
  destruct e as [first last| |p c ok|text]; simpl in *; try by apply Hrest.
  destruct ok; [by apply Hrest|].
  destruct a as [|[first last| |p' c' ok'|text] a']; simpl in *; try done.
  destruct Ha as [-> Ha]. split; [done|].
  apply (IH (length a')); [subst n; simpl; lia|done|done].
Qed.

Lemma failures_reported_saves attempts : failures_reported (save_log attempts).
Proof.
  rewrite <- (app_nil_r (save_log attempts)).
  by apply failures_reported_save_log.
Qed.

Lemma add_to_undo_stack_same_memory name ask m m2 :
  memory m = memory m2 →
  memory (add_to_undo_stack name ask m) = memory (add_to_undo_stack name ask m2).
Proof.
  intros (Hs & Hh & Hi & Hu & Hr)%memory_eq.
  unfold memory, add_to_undo_stack, tag_state, tags_of. simpl.
  by rewrite Hs, Hh, Hi, Hu.
Qed.

Lemma notify_changed_same_memory changed m m2 :
  memory m = memory m2 →
  memory (notify_changed changed m) = memory (notify_changed changed m2).
Proof. intros H. by rewrite !notify_changed_memory. Qed.

Lemma save_attempts_notify_changed m x changed log :
  effects x = effects m ++ log →
  save_attempts (effects_since m (notify_changed changed x))
  = save_attempts (effects_since m x).
Proof.
  intros Hx.
  rewrite (effects_since_trans m x (notify_changed changed x) log _ Hx
             (notifications_notify_changed changed x)).
  rewrite (effects_since_app _ _ _ Hx), save_attempts_app.
  rewrite (effects_since_app _ _ _ (notifications_notify_changed changed x)).
  by rewrite save_attempts_reported, app_nil_r.
Qed.

(** A bulk edit run with and without write failures. *)
Lemma bulk_edit_same_memory name body m m2 :
  memory m = memory m2 →
  let r := bulk_edit name body m in
  let r2 := bulk_edit name body m2 in
  memory (final r) = memory (final r2) ∧
  changed_image_indices r = changed_image_indices r2 ∧
  outcome r = outcome r2 ∧
  save_attempts (effects_since m (final r))
    = save_attempts (effects_since m2 (final r2)) ∧
  failures_reported (effects_since m (final r)).
Proof.
  intros Hm r r2.
  destruct (bulk_edit_log name body m) as (attempts & Hlog & _).
  fold r in Hlog.
  assert (Hreported : failures_reported (effects_since m (final r))).
  { rewrite (effects_since_app _ _ _ Hlog). simpl.
    apply failures_reported_app; [apply failures_reported_saves|].
    apply failures_reported_ranges. }
  enough (memory (final r) = memory (final r2) ∧
          changed_image_indices r = changed_image_indices r2 ∧
          outcome r = outcome r2 ∧
          save_attempts (effects_since m (final r))
          = save_attempts (effects_since m2 (final r2)))
    as (? & ? & ? & ?) by done.
  clear Hlog Hreported attempts. unfold r, r2, bulk_edit.
  pose proof (add_to_undo_stack_same_memory name true m m2 Hm) as Hm1.
  set (m1 := add_to_undo_stack name true m) in *.
  set (m1' := add_to_undo_stack name true m2) in *.
  pose proof (memory_eq _ _ Hm1) as (_ & _ & Hi & _). rewrite <- Hi.
  pose proof (for_rows_same_memory body (seq 0 (length (images m1))) m1 m1' [] 0 Hm1)
    as Hsame.
  pose proof (for_rows_log body (seq 0 (length (images m1))) m1 [] 0) as Hl1.
  pose proof (for_rows_log body (seq 0 (length (images m1))) m1' [] 0) as Hl2.
  cbv zeta in Hsame, Hl1, Hl2.
  set (q := for_rows body (seq 0 (length (images m1))) m1 [] 0) in *.
  set (q2 := for_rows body (seq 0 (length (images m1))) m1' [] 0) in *.
  destruct Hsame as (Hfm & Hfc & _ & Hfo & Hfa).
  destruct Hl1 as (? & log1 & _ & _ & Hl1 & _).
  destruct Hl2 as (? & log2 & _ & _ & Hl2 & _).
  assert (Hq : save_attempts (effects_since m (final q))
               = save_attempts (effects_since m2 (final q2))).
  { rewrite (effects_since_trans m m1 (final q)
               [update_undo_and_redo_actions_requested] _ eq_refl Hl1).
    rewrite (effects_since_trans m2 m1' (final q2)
               [update_undo_and_redo_actions_requested] _ eq_refl Hl2).
    by rewrite !save_attempts_app, Hfa. }
  rewrite <- Hfo, <- Hfc. destruct (outcome q) eqn:Hout; simpl.
  - split; [|split; [|split]]; try done.
    + by apply notify_changed_same_memory.
    + rewrite (save_attempts_notify_changed m (final q) _
                 ([update_undo_and_redo_actions_requested] ++ save_log log1)).
      2:{ rewrite Hl1. simpl. by rewrite <- app_assoc. }
      rewrite (save_attempts_notify_changed m2 (final q2) _
                 ([update_undo_and_redo_actions_requested] ++ save_log log2)).
      2:{ rewrite Hl2. simpl. by rewrite <- app_assoc. }
      exact Hq.
  - by rewrite <- Hfo, <- Hfc.
Qed.

Lemma save_attempts_emit m x e log :
  effects x = effects m ++ log →
  (∀ p c ok, e ≠ write_text p c ok) →
  save_attempts (effects_since m (emit e x)) = save_attempts (effects_since m x).
Proof.
  intros Hx He.
  rewrite (effects_since_trans m x (emit e x) log [e] Hx eq_refl).
  rewrite (effects_since_app _ _ _ Hx), save_attempts_app.
  rewrite (effects_since_app x (emit e x) [e] eq_refl).
  destruct e; simpl; try by rewrite app_nil_r. by destruct (He image_path caption ok).
Qed.

Lemma add_tags_same_memory new_tags image_indices m m2 :
  memory m = memory m2 →
  let r := add_tags new_tags image_indices m in
  let r2 := add_tags new_tags image_indices m2 in
  memory r.1 = memory r2.1 ∧ r.2 = r2.2 ∧
  save_attempts (effects_since m r.1) = save_attempts (effects_since m2 r2.1) ∧
  failures_reported (effects_since m r.1).
Proof.
  intros Hm. unfold add_tags.
  set (name := if length new_tags =? 1 then "Add Tag" else "Add Tags").
  set (ask := 1 <? length image_indices).
  pose proof (add_to_undo_stack_same_memory name ask m m2 Hm) as Hm1.
  set (m1 := add_to_undo_stack name ask m) in *.
  set (m1' := add_to_undo_stack name ask m2) in *.
  pose proof (for_rows_same_memory (add_tags_body new_tags) image_indices
                m1 m1' [] 0 Hm1) as Hsame.
  pose proof (for_rows_log (add_tags_body new_tags) image_indices m1 [] 0) as Hl1.
  pose proof (for_rows_log (add_tags_body new_tags) image_indices m1' [] 0) as Hl2.
  cbv zeta in Hsame, Hl1, Hl2.
  set (q := for_rows (add_tags_body new_tags) image_indices m1 [] 0) in *.
  set (q2 := for_rows (add_tags_body new_tags) image_indices m1' [] 0) in *.
  destruct Hsame as (Hfm & _ & _ & Hfo & Hfa).
  destruct Hl1 as (? & log1 & _ & _ & Hl1 & _).
  destruct Hl2 as (? & log2 & _ & _ & Hl2 & _).
  assert (Hq1 : effects (final q)
                = effects m ++ [update_undo_and_redo_actions_requested]
                  ++ save_log log1).
  { rewrite Hl1. simpl. by rewrite <- app_assoc. }
  assert (Hq2 : effects (final q2)
                = effects m2 ++ [update_undo_and_redo_actions_requested]
                  ++ save_log log2).
  { rewrite Hl2. simpl. by rewrite <- app_assoc. }
  assert (Hq : save_attempts (effects_since m (final q))
               = save_attempts (effects_since m2 (final q2))).
  { rewrite (effects_since_trans m m1 (final q)
               [update_undo_and_redo_actions_requested] _ eq_refl Hl1).
    rewrite (effects_since_trans m2 m1' (final q2)
               [update_undo_and_redo_actions_requested] _ eq_refl Hl2).
    by rewrite !save_attempts_app, Hfa. }
  assert (Hrep : failures_reported (effects_since m (final q))).
  { rewrite (effects_since_app _ _ _ Hq1). simpl. apply failures_reported_saves. }
  rewrite <- Hfo. destruct (outcome q) eqn:Hout; simpl; [|done].
  destruct image_indices as [|row others]; simpl; [done|].
  split; [|split; [done|split]].
  - pose proof (memory_eq _ _ Hfm) as (Hs & Hh & Hi & Hu & Hr).
    unfold memory. simpl. by rewrite Hs, Hh, Hi, Hu, Hr.
  - rewrite (save_attempts_emit m (final q) _ _ Hq1) by done.
    by rewrite (save_attempts_emit m2 (final q2) _ _ Hq2) by done.
  - rewrite (effects_since_trans m (final q) (emit _ (final q)) _ _ Hq1 eq_refl).
    apply failures_reported_app.
    + simpl. apply failures_reported_saves.
    + by rewrite (effects_since_app (final q) (emit _ (final q)) [_] eq_refl).
Qed.

(** Every operation run with and without write failures. *)
Lemma run_same_memory op m m2 :
  memory m = memory m2 →
  memory (final (run op m)) = memory (final (run op m2)) ∧
  changed_image_indices (run op m) = changed_image_indices (run op m2) ∧
  outcome (run op m) = outcome (run op m2) ∧
  save_attempts (effects_since m (final (run op m)))
    = save_attempts (effects_since m2 (final (run op m2))) ∧
  failures_reported (effects_since m (final (run op m))).
Proof.
  intros Hm. pose proof (memory_eq _ _ Hm) as (Hs & _).
  destruct op; simpl;
    try (unfold rename_tag, delete_tag, sort_tags_alphabetically,
           sort_tags_by_frequency, shuffle_tags, remove_duplicate_tags,
           remove_empty_tags; rewrite <- ?Hs; by apply bulk_edit_same_memory).
  - destruct (add_tags_same_memory new_tags image_indices m m2 Hm)
      as (H1 & H2 & H3 & H4).
    destruct (add_tags new_tags image_indices m),
             (add_tags new_tags image_indices m2). simpl in *. by subst.
  - unfold find_and_replace. destruct (truthy find_text); simpl.
    + rewrite <- Hs. by apply bulk_edit_same_memory.
    + unfold effects_since. by rewrite !drop_all.
Qed.

Lemma restore_rows_same_memory history :
  ∀ k m m2 changed,
    memory m = memory m2 →
    let r := restore_rows k history m changed in
    let r2 := restore_rows k history m2 changed in
    memory r.1 = memory r2.1 ∧ r.2 = r2.2 ∧
    (∃ log, effects r.1 = effects m ++ save_log log) ∧
    (∃ log, effects r2.1 = effects m2 ++ save_log log) ∧
    save_attempts (effects_since m r.1) = save_attempts (effects_since m2 r2.1).
Proof.
  induction history as [|h rest IH]; intros k m m2 changed Hm; simpl.
  { do 2 (split; [done|]). split; [by exists []; rewrite app_nil_r|].
    split; [by exists []; rewrite app_nil_r|].
    unfold effects_since. by rewrite !drop_all. }
  pose proof (memory_eq _ _ Hm) as (Hs & Hh & Hi & Hu & Hr).
  rewrite <- Hi. unfold tags_of. rewrite <- Hh.
  destruct (images m !! k) as [image|]; simpl.
  2:{ do 2 (split; [done|]). split; [by exists []; rewrite app_nil_r|].
      split; [by exists []; rewrite app_nil_r|].
      unfold effects_since. by rewrite !drop_all. }
  case_decide; [by apply IH|].
  set (image' := mkImage (path image) h).
  set (w := write_image_tags_to_disk image' (with_images _ m)).
  set (w2 := write_image_tags_to_disk image' (with_images _ m2)).
  assert (Hw : memory w = memory w2).
  { unfold w, w2. rewrite !write_memory. unfold memory. simpl.
    by rewrite Hs, Hh, Hu, Hr. }
  destruct (IH (S k) w w2 (changed ++ [k]) Hw)
    as (Hfm & Hfc & [log1 Hl1] & [log2 Hl2] & Hfa).
  destruct (write_effects image' (with_images (<[k:=image']> (images m)) m))
    as [Hwe _].
  destruct (write_effects image' (with_images (<[k:=image']> (images m)) m2))
    as [Hwe2 _].
  fold w in Hwe. fold w2 in Hwe2. simpl in Hwe, Hwe2.
  do 2 (split; [done|]). split; [|split].
  - eexists ((_, _, _) :: log1). rewrite Hl1, Hwe, <- app_assoc. done.
  - eexists ((_, _, _) :: log2). rewrite Hl2, Hwe2, <- app_assoc. done.
  - rewrite (effects_since_trans _ _ _ _ _ Hwe Hl1),
            (effects_since_trans _ _ _ _ _ Hwe2 Hl2).
    rewrite !save_attempts_app, Hfa. f_equal.
    destruct (default false (head (os_errors m))),
             (default false (head (os_errors m2)));
      simpl; unfold tags_of; simpl; by rewrite Hs, Hh.
Qed.

(** [undo] and [redo] run with and without write failures. *)
Lemma restore_history_tags_same_memory is_undo reply m m2 :
  memory m = memory m2 →
  let after := restore_history_tags is_undo reply m in
  let after2 := restore_history_tags is_undo reply m2 in
  memory after = memory after2 ∧
  save_attempts (effects_since m after) = save_attempts (effects_since m2 after2) ∧
  failures_reported (effects_since m after).
Proof.
  intros Hm. pose proof (memory_eq _ _ Hm) as (Hs & Hh & Hi & Hu & Hr).
  unfold restore_history_tags. rewrite <- Hu, <- Hr, <- Hi.
  set (source := if is_undo then undo_stack m else redo_stack m).
  assert (Hnone : memory m = memory m2 ∧
            save_attempts (effects_since m m) = save_attempts (effects_since m2 m2) ∧
            failures_reported (effects_since m m)).
  { unfold effects_since. by rewrite !drop_all. }
  destruct (pop source) as [[rest item]|]; [|done].
  destruct (_ && _); [done|].
  set (current := mkHistoryItem _ _ _).
  set (m1 := if is_undo then with_stacks rest (redo_stack m ++ [current]) m
             else with_stacks (deque_append current (undo_stack m)) rest m).
  set (m1' := if is_undo then with_stacks rest (redo_stack m ++ [current]) m2
              else with_stacks (deque_append current (undo_stack m)) rest m2).
  assert (Hm1 : memory m1 = memory m1').
  { unfold m1, m1', memory. destruct is_undo; simpl; by rewrite Hs, Hh, Hi. }
  assert (He1 : effects m1 = effects m) by (unfold m1; by destruct is_undo).
  assert (He1' : effects m1' = effects m2) by (unfold m1'; by destruct is_undo).
  pose proof (restore_rows_same_memory (history_tags item) 0 m1 m1' [] Hm1)
    as Hsame. cbv zeta in Hsame.
  destruct (restore_rows 0 (history_tags item) m1 []) as [x changed].
  destruct (restore_rows 0 (history_tags item) m1' []) as [x2 changed2].
  simpl in Hsame. destruct Hsame as (Hfm & <- & [log1 Hl1] & [log2 Hl2] & Hfa).
  rewrite He1 in Hl1. rewrite He1' in Hl2.
  assert (Hn1 : effects (notify_changed changed x)
                = effects m ++ save_log log1
                  ++ ((λ r, dataChanged r.1 r.2) <$> reported_range changed)).
  { by rewrite notifications_notify_changed, Hl1, <- app_assoc. }
  assert (Hn2 : effects (notify_changed changed x2)
                = effects m2 ++ save_log log2
                  ++ ((λ r, dataChanged r.1 r.2) <$> reported_range changed)).
  { by rewrite notifications_notify_changed, Hl2, <- app_assoc. }
  split; [|split].
  - pose proof (notify_changed_same_memory changed x x2 Hfm) as Hn.
    pose proof (memory_eq _ _ Hn) as (Hs' & Hh' & Hi' & Hu' & Hr').
    unfold memory. simpl. by rewrite Hs', Hh', Hi', Hu', Hr'.
  - rewrite (save_attempts_emit m _ _ _ Hn1) by done.
    rewrite (save_attempts_emit m2 _ _ _ Hn2) by done.
    rewrite (save_attempts_notify_changed m x changed _ Hl1).
    rewrite (save_attempts_notify_changed m2 x2 changed _ Hl2).
    unfold effects_since in *. by rewrite <- He1, <- He1'.
  - rewrite (effects_since_trans m _ (emit _ (notify_changed changed x)) _ _
               Hn1 eq_refl).
    rewrite (effects_since_app (notify_changed changed x) (emit _ _) [_] eq_refl).
    rewrite <- app_assoc.
    apply failures_reported_app; [apply failures_reported_saves|].
    apply failures_reported_app; [apply failures_reported_ranges|done].
Qed.

(** ** Sessions keep the model well-formed *)

Lemma sound_well_formed m : sound m → well_formed m.
Proof.
  intros [Hv Hc]. split.
  - apply list.Forall_forall. intros l Hl. apply (Hv (live m)); [by left|done].
  - apply NoDup_alt. intros i j l Hi Hj.
    by apply (Hc (live m) (live m) i j l); [left|left| |].
Qed.

Lemma consistent_subset refs refs' h :
  (∀ r, r ∈ refs' → r ∈ refs) → consistent refs h → consistent refs' h.
Proof.
  intros Hsub [Hv Hc]. split.
  - intros r l Hr. by apply Hv, Hsub.
  - intros r1 r2 i j l Hr1 Hr2. by apply Hc; apply Hsub.
Qed.

Lemma consistent_grow refs h h' :
  length h ≤ length h' → consistent refs h → consistent refs h'.
Proof.
  intros Hlen [Hv Hc]. split; [|done].
  intros r l Hr Hl. specialize (Hv r l Hr Hl). lia.
Qed.

(** New list objects, referenced row by row. *)
Lemma consistent_fresh refs h c :
  consistent refs h → consistent (seq (length h) (length c) :: refs) (h ++ c).
Proof.
  intros [Hv Hc]. split.
  - intros r l [->|Hr]%elem_of_cons Hl.
    + apply elem_of_seq in Hl. rewrite length_app. lia.
    + specialize (Hv r l Hr Hl). rewrite length_app. lia.
  - intros r1 r2 i j l [->|Hr1]%elem_of_cons [->|Hr2]%elem_of_cons H1 H2.
    + apply lookup_seq in H1 as [-> _]. apply lookup_seq in H2 as [? _]. lia.
    + apply lookup_seq in H1 as [-> _].
      assert (length h + i < length h); [|lia].
      apply (Hv r2); [done|]. apply list_elem_of_lookup. eauto.
    + apply lookup_seq in H2 as [-> _].
      assert (length h + j < length h); [|lia].
      apply (Hv r1); [done|]. apply list_elem_of_lookup. eauto.
    + by apply (Hc r1 r2 i j l).
Qed.

(** One row rebound to a new list object. *)
Lemma consistent_rebind r refs h i v :
  consistent (r :: refs) h →
  consistent (<[i := length h]> r :: refs) (h ++ [v]).
Proof.
  intros [Hv Hc].
  assert (Hold : ∀ r' l, r' ∈ refs → l ∈ r' → l < length h).
  { intros r' l Hr'. apply Hv. by right. }
  assert (Hnew : ∀ a l, <[i := length h]> r !! a = Some l →
            (a = i ∧ l = length h) ∨ (r !! a = Some l ∧ l < length h)).
  { intros a l Ha. rewrite list_lookup_insert in Ha. case_decide.
    - left. split; [lia|congruence].
    - right. split; [done|]. apply (Hv r); [by left|].
      apply list_elem_of_lookup. eauto. }
  split.
  - intros r' l [->|Hr']%elem_of_cons Hl.
    + apply list_elem_of_lookup in Hl as [a Ha].
      rewrite length_app. simpl. destruct (Hnew a l Ha) as [[_ ->]|[_ ?]]; lia.
    + specialize (Hold r' l Hr' Hl). rewrite length_app. lia.
  - intros r1 r2 a b l [->|Hr1]%elem_of_cons [->|Hr2]%elem_of_cons H1 H2.
    + destruct (Hnew a l H1) as [[Ha Hl1]|[H1' Hl1]],
               (Hnew b l H2) as [[Hb Hl2]|[H2' Hl2]]; try lia.
      by apply (Hc r r a b l); [left|left| |].
    + destruct (Hnew a l H1) as [[Ha Hl1]|[H1' Hl1]].
      * assert (l < length h); [|lia].
        apply (Hold r2); [done|]. apply list_elem_of_lookup. eauto.
      * by apply (Hc r r2 a b l); [left|right| |].
    + destruct (Hnew b l H2) as [[Hb Hl2]|[H2' Hl2]].
      * assert (l < length h); [|lia].
        apply (Hold r1); [done|]. apply list_elem_of_lookup. eauto.
      * by apply (Hc r1 r a b l); [right|left| |].
    + by apply (Hc r1 r2 a b l); [right|right| |].
Qed.

(** One row bound to the list object another reference holds for that
    row. *)
Lemma consistent_share r refs h k l other :
  consistent (r :: refs) h →
  other ∈ refs → other !! k = Some l →
  consistent (<[k := l]> r :: refs) h.
Proof.
  intros [Hv Hc] Hother Hk.
  assert (Hnew : ∀ a x, <[k := l]> r !! a = Some x →
            (a = k ∧ x = l) ∨ r !! a = Some x).
  { intros a x Ha. rewrite list_lookup_insert in Ha. case_decide.
    - left. split; [lia|congruence].
    - by right. }
  split.
  - intros r' x [->|Hr']%elem_of_cons Hx.
    + apply list_elem_of_lookup in Hx as [a Ha].
      destruct (Hnew a x Ha) as [[_ ->]|Hr].
      * apply (Hv other); [by right|]. apply list_elem_of_lookup. eauto.
      * apply (Hv r); [by left|]. apply list_elem_of_lookup. eauto.
    + apply (Hv r'); [by right|done].
  - intros r1 r2 a b x [->|Hr1]%elem_of_cons [->|Hr2]%elem_of_cons H1 H2.
    + destruct (Hnew a x H1) as [[Ha Hx1]|H1'],
               (Hnew b x H2) as [[Hb Hx2]|H2']; subst; try done.
      * symmetry. by apply (Hc r other b k l); [left|right| |].
      * by apply (Hc r other a k l); [left|right| |].
      * by apply (Hc r r a b x); [left|left| |].
    + destruct (Hnew a x H1) as [[Ha Hx1]|H1']; subst.
      * by apply (Hc other r2 k b l); [right|right| |].
      * by apply (Hc r r2 a b x); [left|right| |].
    + destruct (Hnew b x H2) as [[Hb Hx2]|H2']; subst.
      * by apply (Hc r1 other a k l); [right|right| |].
      * by apply (Hc r1 r a b x); [right|left| |].
    + by apply (Hc r1 r2 a b x); [right|right| |].
Qed.

Lemma assign_consistent S i image a m :
  consistent (live m :: S) (heap m) → images m !! i = Some image →
  consistent (live (assign i image a m).1 :: S) (heap (assign i image a m).1).
Proof.
  intros Hc Hi. destruct a as [|new|new]; simpl; [done| |].
  - unfold live. simpl. rewrite list_fmap_insert. simpl.
    by apply consistent_rebind.
  - eapply consistent_grow; [|exact Hc]. by rewrite length_insert.
Qed.

Lemma for_rows_consistent S body rows :
  ∀ m changed count,
    consistent (live m :: S) (heap m) →
    let m' := final (for_rows body rows m changed count) in
    consistent (live m' :: S) (heap m').
Proof.
  induction rows as [|i rest IH]; intros m changed count Hc; simpl; [done|].
  destruct (images m !! i) as [image|] eqn:Hi; simpl; [|done].
  destruct (body i (path image) (tags_of m image)) as [e|v]; simpl; [done|].
  pose proof (assign_consistent S i image (assignment v) m Hc Hi) as Hc1.
  destruct (assign i image (assignment v) m) as [m1 image1]. simpl in Hc1.
  destruct (counted v); apply IH; [|done].
  unfold live. by rewrite write_images, write_heap.
Qed.

Lemma sound_intro m S :
  consistent (live m :: S) (heap m) →
  (∀ item, item ∈ undo_stack m ++ redo_stack m → history_tags item ∈ live m :: S) →
  sound m.
Proof.
  intros Hc Hitems. eapply consistent_subset; [|exact Hc].
  intros r [->|Hr]%elem_of_cons; [by left|].
  apply list_elem_of_fmap in Hr as (item & -> & Hitem). by apply Hitems.
Qed.

Lemma sound_stack_refs m :
  sound m → consistent (live m :: references m) (heap m).
Proof.
  intros Hs. eapply consistent_subset; [|exact Hs].
  intros r [->|Hr]%elem_of_cons; [by left|done].
Qed.

Lemma item_in_references m item :
  item ∈ undo_stack m ++ redo_stack m → history_tags item ∈ references m.
Proof. intros H. right. apply list_elem_of_fmap. eauto. Qed.

Lemma add_to_undo_stack_sound name ask m :
  sound m → sound (add_to_undo_stack name ask m).
Proof.
  intros Hs.
  apply (sound_intro _ (seq (length (heap m)) (length (tag_state m))
                        :: references m)).
  - simpl. eapply consistent_subset; [|apply consistent_fresh, Hs].
    intros r [->|[->|Hr]%elem_of_cons]%elem_of_cons.
    + right. by left.
    + by left.
    + by right.
  - simpl. rewrite app_nil_r. intros item [->|Hitem]%elem_of_deque_append.
    + right. by left.
    + right. right. apply item_in_references. apply elem_of_app. by left.
Qed.

(** A call that leaves the stacks alone and keeps the references
    consistent keeps the model sound. *)
Lemma sound_same_stacks m m' :
  undo_stack m' = undo_stack m → redo_stack m' = redo_stack m →
  consistent (live m' :: references m) (heap m') → sound m'.
Proof.
  intros Hu Hr Hc. apply (sound_intro _ (references m)); [done|].
  rewrite Hu, Hr. intros item Hitem. right. by apply item_in_references.
Qed.

Lemma notify_changed_consistent S changed m :
  consistent (live m :: S) (heap m) →
  consistent (live (notify_changed changed m) :: S)
             (heap (notify_changed changed m)).
Proof. by destruct changed. Qed.

Lemma bulk_edit_sound name body m : sound m → sound (final (bulk_edit name body m)).
Proof.
  intros Hs. pose proof (add_to_undo_stack_sound name true m Hs) as Hs1.
  pose proof (bulk_edit_kept _ name body m
                (no_locs_apart (add_to_undo_stack name true m))) as Hk.
  apply (sound_same_stacks (add_to_undo_stack name true m));
    [apply (kept_undo _ _ _ Hk)|apply (kept_redo _ _ _ Hk)|].
  unfold bulk_edit.
  set (m1 := add_to_undo_stack name true m) in *.
  pose proof (for_rows_consistent _ body (seq 0 (length (images m1))) m1 [] 0
                (sound_stack_refs _ Hs1)) as Hc.
  cbv zeta in Hc.
  set (q := for_rows body (seq 0 (length (images m1))) m1 [] 0) in *.
  destruct (outcome q); [|done].
  by apply notify_changed_consistent.
Qed.

Lemma add_tags_sound new_tags image_indices m :
  sound m → sound (add_tags new_tags image_indices m).1.
Proof.
  intros Hs.
  set (name := if length new_tags =? 1 then "Add Tag" else "Add Tags").
  set (ask := 1 <? length image_indices).
  pose proof (add_to_undo_stack_sound name ask m Hs) as Hs1.
  pose proof (add_tags_kept _ new_tags image_indices m
                (no_locs_apart (add_to_undo_stack name ask m))) as Hk.
  apply (sound_same_stacks (add_to_undo_stack name ask m));
    [apply (kept_undo _ _ _ Hk)|apply (kept_redo _ _ _ Hk)|].
  unfold add_tags. fold name ask.
  pose proof (for_rows_consistent _ (add_tags_body new_tags) image_indices
                (add_to_undo_stack name ask m) [] 0
                (sound_stack_refs _ Hs1)) as Hc.
  destruct (outcome _); simpl; [|done].
  by destruct image_indices.
Qed.

Lemma perform_sound op m : sound m → sound (perform op m).
Proof.
  intros Hs. unfold perform.
  destruct op; simpl; try by apply bulk_edit_sound.
  - pose proof (add_tags_sound new_tags image_indices m Hs) as H.
    by destruct (add_tags new_tags image_indices m).
  - unfold find_and_replace. destruct (truthy find_text); simpl; [|done].
    by apply bulk_edit_sound.
Qed.

Lemma restore_rows_consistent refs full history :
  ∀ k m changed,
    full ∈ refs → (∀ a, history !! a = full !! (k + a)) →
    consistent (live m :: refs) (heap m) →
    let m' := (restore_rows k history m changed).1 in
    consistent (live m' :: refs) (heap m').
Proof.
  induction history as [|h rest IH]; intros k m changed Hfull Hhist Hc; simpl;
    [done|].
  destruct (images m !! k) as [image|] eqn:Hk; simpl; [|done].
  assert (Hrest : ∀ a, rest !! a = full !! (S k + a)).
  { intros a. replace (S k + a) with (k + S a) by lia.
    by rewrite <- (Hhist (S a)). }
  case_decide; [by apply IH|]. apply IH; [done|done|].
  unfold live. rewrite write_images, write_heap. simpl.
  rewrite list_fmap_insert. simpl.
  apply (consistent_share _ _ _ _ _ full); [done|done|].
  rewrite <- (Nat.add_0_r k), <- Hhist. done.
Qed.

Lemma restore_history_tags_sound is_undo reply m :
  sound m → sound (restore_history_tags is_undo reply m).
Proof.
  intros Hs. unfold restore_history_tags.
  set (source := if is_undo then undo_stack m else redo_stack m).
  destruct (pop source) as [[rest item]|] eqn:Hp; [|done].
  apply pop_Some in Hp.
  destruct (_ && _); [done|].
  set (current := mkHistoryItem _ _ _).
  set (m1 := if is_undo then with_stacks rest (redo_stack m ++ [current]) m
             else with_stacks (deque_append current (undo_stack m)) rest m).
  assert (Hitem : history_tags item ∈ references m).
  { apply item_in_references. unfold source in Hp.
    destruct is_undo; rewrite Hp, !elem_of_app, list_elem_of_singleton;
      naive_solver. }
  assert (Hm1 : heap m1 = heap m ∧ images m1 = images m).
  { unfold m1. by destruct is_undo. }
  destruct Hm1 as [Hh1 Hi1].
  pose proof (restore_rows_consistent (references m) (history_tags item)
                (history_tags item) 0 m1 [] Hitem ltac:(done)) as Hc.
  pose proof (restore_rows_spec (history_tags item) 0 m1 []) as Hspec.
  destruct (restore_rows 0 (history_tags item) m1 []) as [m2 changed].
  simpl in Hc, Hspec. destruct Hspec as (_ & Hu & Hr & _).
  apply (sound_intro _ (references m)).
  - pose proof (notify_changed_memory changed m2) as Hn.
    apply memory_eq in Hn as (_ & Hh & Hi & _).
    unfold live in *. simpl. rewrite Hh, Hi. apply Hc.
    rewrite Hi1, Hh1. by apply sound_stack_refs.
  - pose proof (notify_changed_memory changed m2) as Hn.
    apply memory_eq in Hn as (_ & _ & _ & Hnu & Hnr).
    simpl. rewrite Hnu, Hnr, Hu, Hr. intros it Hit. right.
    assert (Hcur : history_tags current ∈ references m) by (by left).
    unfold m1 in Hit. unfold source in Hp.
    destruct is_undo; simpl in Hit.
    + apply elem_of_app in Hit as [Hit|Hit].
      * apply item_in_references.
        rewrite Hp, !elem_of_app. naive_solver.
      * apply elem_of_app in Hit as [Hit|Hit].
        -- apply item_in_references. rewrite elem_of_app. naive_solver.
        -- apply list_elem_of_singleton in Hit. by subst it.
    + apply elem_of_app in Hit as [Hit|Hit].
      * apply elem_of_deque_append in Hit as [->|Hit]; [done|].
        apply item_in_references. rewrite elem_of_app. naive_solver.
      * apply item_in_references.
        rewrite Hp, !elem_of_app. naive_solver.
Qed.

Lemma update_image_tags_sound row new m :
  sound m → sound (update_image_tags row new m).1.
Proof.
  intros Hs. destruct (update_image_tags_stacks row new m) as [Hu Hr].
  apply (sound_same_stacks m); [done|done|].
  unfold update_image_tags.
  destruct (images m !! row) as [image|] eqn:Hi; [|by apply sound_stack_refs].
  case_decide; [by apply sound_stack_refs|].
  pose proof (assign_consistent _ row image (rebind new) m
                (sound_stack_refs _ Hs) Hi) as Hc.
  simpl in *. unfold live. by rewrite write_images, write_heap.
Qed.

Lemma step_sound m a : sound m → sound (step m a).
Proof.
  destruct a; simpl.
  - apply perform_sound.
  - apply restore_history_tags_sound.
  - apply restore_history_tags_sound.
  - apply update_image_tags_sound.
Qed.

Lemma loaded_sound sep records : sound (loaded sep records).
Proof.
  destruct (loaded_well_formed sep records) as [Hv Hnd]. split.
  - intros r l [->|Hr]%elem_of_cons Hl; [by apply valid_live_lt|].
    by apply elem_of_nil in Hr.
  - intros r1 r2 i j l [->|Hr1]%elem_of_cons [->|Hr2]%elem_of_cons;
      try (by apply elem_of_nil in Hr1); try (by apply elem_of_nil in Hr2).
    by apply (proj1 (NoDup_alt _) Hnd).
Qed.

(** Every state a session reaches from a loaded catalog is well-formed: no
    two images share a list object, and every image references an
    existing one. *)
Lemma session_well_formed actions sep records :
  well_formed (session actions (loaded sep records)).
Proof.
  apply sound_well_formed.
  generalize (loaded_sound sep records). generalize (loaded sep records).
  induction actions as [|a actions IH]; intros m Hs; simpl; [done|].
  by apply IH, step_sound.
Qed.

(** ** Older history does not matter

    What an operation and an undo do to the tags depends on the undo stack
    only through its newest items.  So the undo properties proved from an
    empty stack carry over to a model with any older items below. *)

Lemma with_stacks_id m : with_stacks (undo_stack m) (redo_stack m) m = m.
Proof. by destruct m. Qed.

Lemma with_stacks_twice u r u' r' m :
  with_stacks u r (with_stacks u' r' m) = with_stacks u r m.
Proof. done. Qed.

Lemma write_with_stacks u r image m :
  write_image_tags_to_disk image (with_stacks u r m)
  = with_stacks u r (write_image_tags_to_disk image m).
Proof.
  unfold write_image_tags_to_disk. simpl.
  by destruct (default false (head (os_errors m))).
Qed.

Lemma assign_with_stacks u r i image a m :
  assign i image a (with_stacks u r m)
  = (with_stacks u r (assign i image a m).1, (assign i image a m).2).
Proof. by destruct a. Qed.

Lemma for_rows_with_stacks u r body rows :
  ∀ m changed count,
    for_rows body rows (with_stacks u r m) changed count
    = restack u r (for_rows body rows m changed count).
Proof.
  induction rows as [|i rest IH]; intros m changed count; simpl; [done|].
  destruct (images m !! i) as [image|]; simpl; [|done].
  unfold tags_of. simpl. fold (tags_of m image).
  destruct (body i (path image) (tags_of m image)) as [e|v]; simpl; [done|].
  rewrite assign_with_stacks.
  destruct (assign i image (assignment v) m) as [m1 image1]. simpl.
  destruct (counted v); [|by apply IH].
  rewrite write_with_stacks. by apply IH.
Qed.

Lemma notify_changed_with_stacks u r changed m :
  notify_changed changed (with_stacks u r m)
  = with_stacks u r (notify_changed changed m).
Proof. by destruct changed. Qed.

Lemma add_to_undo_stack_with_stacks u r name ask m :
  add_to_undo_stack name ask (with_stacks u r m)
  = with_stacks
      (deque_append
         (mkHistoryItem name (seq (length (heap m)) (length (tag_state m))) ask) u)
      [] (add_to_undo_stack name ask m).
Proof. done. Qed.

Lemma bulk_edit_with_stacks u r name body m :
  bulk_edit name body (with_stacks u r m)
  = restack
      (deque_append
         (mkHistoryItem name (seq (length (heap m)) (length (tag_state m))) true) u)
      [] (bulk_edit name body m).
Proof.
  unfold bulk_edit. rewrite add_to_undo_stack_with_stacks.
  set (m1 := add_to_undo_stack name true m).
  change (images (with_stacks _ [] m1)) with (images m1).
  rewrite for_rows_with_stacks.
  set (q := for_rows body (seq 0 (length (images m1))) m1 [] 0).
  unfold restack. simpl. destruct (outcome q) eqn:Hout; simpl;
    [|by rewrite Hout].
  by rewrite notify_changed_with_stacks.
Qed.

(** An operation that takes a snapshot, on a model with other stacks:
    the same tags, and the same item pushed. *)
Lemma run_with_stacks op u r m :
  takes_snapshot op = true →
  run op (with_stacks u r m)
  = restack (deque_append (snapshot_item op m) u) [] (run op m).
Proof.
  intros Hs. unfold snapshot_item.
  destruct op; simpl in *; try apply bulk_edit_with_stacks.
  - unfold add_tags. rewrite add_to_undo_stack_with_stacks.
    set (m1 := add_to_undo_stack _ _ m). rewrite for_rows_with_stacks.
    set (q := for_rows _ image_indices m1 [] 0).
    unfold restack. simpl. destruct (outcome q) eqn:Hout; simpl; [|done].
    by destruct image_indices.
  - unfold find_and_replace. rewrite Hs. simpl. apply bulk_edit_with_stacks.
Qed.

Lemma run_undo_stack op m :
  takes_snapshot op = true →
  undo_stack (perform op m) = deque_append (snapshot_item op m) (undo_stack m) ∧
  redo_stack (perform op m) = [].
Proof.
  intros Hs. unfold perform.
  pose proof (run_with_stacks op (undo_stack m) (redo_stack m) m Hs) as H.
  rewrite with_stacks_id in H. by rewrite H.
Qed.

Lemma deque_append_older {A} (x : A) older d :
  ∃ older', deque_append x (older ++ d) = older' ++ deque_append x d.
Proof.
  unfold deque_append. rewrite <- app_assoc.
  destruct (decide (length (d ++ [x]) ≤ UNDO_STACK_SIZE)) as [Hle|Hgt].
  - exists (drop (length (older ++ d ++ [x]) - UNDO_STACK_SIZE) older).
    replace (length (d ++ [x]) - UNDO_STACK_SIZE) with 0 by lia.
    rewrite drop_app, drop_0. f_equal.
    rewrite length_app.
    replace (length older + length (d ++ [x]) - UNDO_STACK_SIZE - length older)
      with 0 by lia. done.
  - exists []. simpl. rewrite length_app.
    replace (length older + length (d ++ [x]) - UNDO_STACK_SIZE)
      with (length older + (length (d ++ [x]) - UNDO_STACK_SIZE)) by lia.
    by rewrite drop_app_add.
Qed.

Lemma perform_with_older op older m :
  ∃ older', perform op (with_older older m) = with_older older' (perform op m).
Proof.
  destruct (takes_snapshot op) eqn:Hs.
  - unfold perform, with_older. rewrite (run_with_stacks op _ _ m Hs). simpl.
    destruct (run_undo_stack op m Hs) as [Hu Hr]. unfold perform in Hu, Hr.
    rewrite Hu, Hr.
    destruct (deque_append_older (snapshot_item op m) older (undo_stack m))
      as [older' ->]. by exists older'.
  - exists older. by rewrite !perform_no_snapshot.
Qed.

Lemma perform_all_with_older ops :
  ∀ older m, ∃ older',
    perform_all ops (with_older older m) = with_older older' (perform_all ops m).
Proof.
  induction ops as [|op ops IH]; intros older m; simpl; [by exists older|].
  destruct (perform_with_older op older m) as [older' ->]. apply IH.
Qed.

Lemma with_older_tag_state older m : tag_state (with_older older m) = tag_state m.
Proof. done. Qed.

Lemma restore_rows_with_stacks u r history :
  ∀ k m changed,
    restore_rows k history (with_stacks u r m) changed
    = (with_stacks u r (restore_rows k history m changed).1,
       (restore_rows k history m changed).2).
Proof.
  induction history as [|h rest IH]; intros k m changed; simpl; [done|].
  destruct (images m !! k) as [image|]; simpl; [|done].
  unfold tags_of. simpl. case_decide; [by apply IH|].
  change (with_images ?ims (with_stacks u r m))
    with (with_stacks u r (with_images ims m)).
  rewrite write_with_stacks. by apply IH.
Qed.

(** An undo that finds an item of [m]'s own pops the same item whatever
    lies below. *)
Lemma undo_with_older reply older m :
  undo_stack m ≠ [] →
  undo reply (with_older older m) = with_older older (undo reply m).
Proof.
  intros Hne. unfold undo, restore_history_tags, with_older.
  cbn [undo_stack redo_stack images with_stacks].
  destruct (pop (undo_stack m)) as [[rest item]|] eqn:Hp;
    [|by apply pop_nil in Hp].
  assert (Hpop : pop (older ++ undo_stack m) = Some (older ++ rest, item)).
  { apply pop_Some in Hp. rewrite Hp, app_assoc. apply pop_snoc. }
  rewrite Hpop. destruct (_ && _); [done|].
  rewrite !restore_rows_with_stacks.
  destruct (restore_rows 0 (history_tags item) m []) as [m2 changed].
  cbn [fst snd]. by rewrite !notify_changed_with_stacks.
Qed.

Lemma undo_times_with_older reply older :
  ∀ k m, k ≤ length (undo_stack m) →
    (∀ title question, reply title question = Yes) →
    Forall (λ item, length (history_tags item) = length (images m)) (undo_stack m) →
    undo_times k reply (with_older older m)
    = with_older older (undo_times k reply m).
Proof.
  induction k as [|k IH]; intros m Hk Hyes Hlen; [done|].
  unfold undo_times in *. simpl. rewrite IH by (done || lia).
  apply undo_with_older. destruct k as [|k].
  - simpl. intros Hnil. rewrite Hnil in Hk. simpl in Hk. lia.
  - destruct (undo_times_history reply m (S k) Hyes Hlen ltac:(lia))
      as [_ Hstack].
    unfold undo_times in Hstack. rewrite Hstack. intros Hnil.
    apply (f_equal length) in Hnil. rewrite length_take in Hnil.
    simpl in Hnil. lia.
Qed.

Lemma with_older_without_history m :
  with_older (undo_stack m) (without_history m) = m.
Proof. destruct m. unfold with_older, without_history. simpl. by rewrite app_nil_r. Qed.

Lemma without_history_copied m : valid_live m → copied_history (without_history m).
Proof. intros Hv. split; [done|]. split; simpl; [lia|constructor]. Qed.

Lemma length_undo_stack_after ops m :
  copied_history m → undo_stack m = [] →
  length ops ≤ UNDO_STACK_SIZE → forallb takes_snapshot ops = true →
  length (undo_stack (perform_all ops m)) = length ops.
Proof.
  intros Hc He Hn Hall.
  destruct (perform_all_history ops m Hc) as [_ Hh].
  rewrite <- length_history, Hh. unfold history at 1. rewrite He. simpl.
  rewrite newest_small; by rewrite length_trail_all.
Qed.

(** From any model whose images reference existing list objects, whatever
    its history: undoing once per operation restores the tags, for
    operations that each take a snapshot. *)
Lemma undo_after_operations_anywhere m ops reply :
  valid_live m →
  length ops ≤ UNDO_STACK_SIZE →
  (∀ title question, reply title question = Yes) →
  forallb takes_snapshot ops = true →
  tag_state (undo_times (length ops) reply (perform_all ops m)) = tag_state m.
Proof.
  intros Hv Hn Hyes Hall.
  pose proof (without_history_copied m Hv) as Hc.
  rewrite <- (with_older_without_history m) at 1.
  destruct (perform_all_with_older ops (undo_stack m) (without_history m))
    as [older ->].
  destruct (perform_all_history ops _ Hc) as [Hcf _].
  rewrite undo_times_with_older; try done.
  - rewrite with_older_tag_state.
    rewrite (undo_after_operations (without_history m) ops reply Hc Hn Hyes);
      [done|by left].
  - by rewrite length_undo_stack_after.
  - by apply copied_history_lengths.
Qed.

Lemma undo_after_overflow_anywhere m first rest reply :
  valid_live m →
  length rest = UNDO_STACK_SIZE →
  forallb takes_snapshot (first :: rest) = true →
  (∀ title question, reply title question = Yes) →
  tag_state (undo_times UNDO_STACK_SIZE reply (perform_all (first :: rest) m))
  = tag_state (perform first m).
Proof.
  intros Hv Hlen Hall Hyes.
  pose proof (without_history_copied m Hv) as Hc.
  pose proof (undo_after_overflow (without_history m) first rest reply
                Hc Hlen Hall Hyes) as Hgoal.
  destruct (perform_all_history (first :: rest) _ Hc) as [Hcf Hh].
  assert (Hsize : UNDO_STACK_SIZE
                  ≤ length (undo_stack (perform_all (first :: rest)
                                          (without_history m)))).
  { rewrite <- length_history, Hh. unfold newest.
    rewrite length_drop, length_app, (length_trail_all _ _ Hall).
    cbn [length]. rewrite Hlen. lia. }
  revert Hgoal Hsize. generalize UNDO_STACK_SIZE. intros k Hgoal Hsize.
  destruct (perform_with_older first (undo_stack m) (without_history m))
    as [older1 H1].
  destruct (perform_all_with_older (first :: rest) (undo_stack m)
              (without_history m)) as [older H2].
  rewrite with_older_without_history in H1, H2. rewrite H1, H2.
  rewrite undo_times_with_older; [|done|done|by apply copied_history_lengths].
  by rewrite !with_older_tag_state.
Qed.

Lemma session_valid_live actions sep records :
  valid_live (session actions (loaded sep records)).
Proof. apply session_well_formed. Qed.

(** With an empty find text [find_and_replace] pushes nothing, so that an
    [undo()] after it pops what an earlier operation pushed. *)
Lemma undo_after_empty_find_pops_older_item :
  let m := perform (RenameTag "cat" "lynx" false all_images) two_images in
  let op := FindAndReplace EmptyString "x" false all_images in
  takes_snapshot op = false ∧
  perform op m = m ∧
  tag_state m = [["lynx"; "dog"]; ["bird"]] ∧
  tag_state (undo approve (perform op m)) = [["cat"; "dog"]; ["bird"]].
Proof. by vm_compute. Qed.

(** ** Rows and paths never change *)

Lemma restore_rows_paths history :
  ∀ k m changed,
    path <$> images (restore_rows k history m changed).1 = path <$> images m.
Proof.
  induction history as [|h rest IH]; intros k m changed; simpl; [done|].
  destruct (images m !! k) as [image|] eqn:Hk; [|done].
  case_decide; [apply IH|]. rewrite IH. simpl.
  rewrite write_images. simpl. by apply paths_insert.
Qed.

Lemma restore_history_tags_paths is_undo reply m :
  path <$> images (restore_history_tags is_undo reply m) = path <$> images m.
Proof.
  unfold restore_history_tags.
  destruct (pop _) as [[rest item]|]; [|done].
  destruct (_ && _); [done|].
  match goal with |- context [restore_rows 0 ?h ?m1 []] =>
    pose proof (restore_rows_paths h 0 m1 []) as Hp;
    destruct (restore_rows 0 h m1 []) as [m2 changed] end.
  simpl in Hp.
  pose proof (notify_changed_memory changed m2) as Hn.
  unfold memory in Hn. injection Hn as _ _ Hi _ _. simpl. rewrite Hi, Hp.
  by destruct is_undo.
Qed.

Lemma add_to_undo_stack_apart name ask m : apart (λ _, False) (add_to_undo_stack name ask m).
Proof. by intros l []. Qed.

Lemma perform_paths op m : path <$> images (perform op m) = path <$> images m.
Proof.
  destruct (takes_snapshot op) eqn:Hs; [|by rewrite perform_no_snapshot].
  destruct (perform_kept op m Hs) as (name & ask & Hk).
  specialize (Hk (λ _, False) (add_to_undo_stack_apart name ask m)).
  by rewrite (kept_paths _ _ _ Hk).
Qed.

Lemma update_image_tags_paths row new m :
  path <$> images (update_image_tags row new m).1 = path <$> images m.
Proof.
  unfold update_image_tags. destruct (images m !! row) as [image|] eqn:Hi; [|done].
  case_decide; [done|]. simpl. rewrite write_images. simpl.
  by apply paths_insert.
Qed.

Lemma step_paths m a : path <$> images (step m a) = path <$> images m.
Proof.
  destruct a as [op|reply|reply|row new]; cbn [step]; unfold undo, redo.
  - apply perform_paths.
  - apply restore_history_tags_paths.
  - apply restore_history_tags_paths.
  - apply update_image_tags_paths.
Qed.

Lemma session_paths actions : ∀ m, path <$> images (session actions m) = path <$> images m.
Proof.
  induction actions as [|a actions IH]; intros m; simpl; [done|].
  by rewrite IH, step_paths.
Qed.

(** ** The two stacks together *)

Lemma deque_append_room {A} (x : A) d :
  length d < UNDO_STACK_SIZE → deque_append x d = d ++ [x].
Proof.
  intros H. unfold deque_append. rewrite length_app. simpl.
  replace (length d + 1 - UNDO_STACK_SIZE) with 0 by lia. done.
Qed.

Lemma step_stacks_bound m a :
  length (undo_stack m) + length (redo_stack m) ≤ UNDO_STACK_SIZE →
  length (undo_stack (step m a)) + length (redo_stack (step m a)) ≤ UNDO_STACK_SIZE.
Proof.
  intros Hb. destruct a as [op|reply|reply|row new]; cbn [step]; unfold undo, redo.
  - destruct (takes_snapshot op) eqn:Hs.
    + destruct (perform_stacks op m Hs) as (item & -> & ->). simpl.
      pose proof (length_deque_append item (undo_stack m)). lia.
    + by rewrite perform_no_snapshot.
  - destruct (restore_history_tags_stacks true reply m)
      as [->|(rest & item & current & Hst & -> & ->)]; [done|].
    rewrite Hst in Hb. rewrite !length_app in *. simpl in *. lia.
  - destruct (restore_history_tags_stacks false reply m)
      as [->|(rest & item & current & Hst & -> & ->)]; [done|].
    rewrite Hst in Hb. rewrite length_app in Hb. simpl in Hb.
    rewrite deque_append_room by lia. rewrite length_app. simpl. lia.
  - destruct (update_image_tags_stacks row new m) as [-> ->]. done.
Qed.

Lemma session_stacks_bound actions :
  ∀ m, length (undo_stack m) + length (redo_stack m) ≤ UNDO_STACK_SIZE →
       length (undo_stack (session actions m))
       + length (redo_stack (session actions m)) ≤ UNDO_STACK_SIZE.
Proof.
  induction actions as [|a actions IH]; intros m Hb; simpl; [done|].
  apply IH. by apply step_stacks_bound.
Qed.

(** ** Who is asked *)

Lemma restore_history_tags_no_question (is_undo : bool) reply reply' m rest item :
  (if is_undo then undo_stack m else redo_stack m) = rest ++ [item] →
  should_ask_for_confirmation item = false →
  restore_history_tags is_undo reply m = restore_history_tags is_undo reply' m.
Proof.
  intros Hst Hask. unfold restore_history_tags.
  by rewrite Hst, pop_snoc, Hask.
Qed.

Lemma restore_history_tags_declined (is_undo : bool) reply m rest item :
  (if is_undo then undo_stack m else redo_stack m) = rest ++ [item] →
  should_ask_for_confirmation item = true →
  reply (undo_or_redo_string is_undo) (question is_undo item) ≠ Yes →
  restore_history_tags is_undo reply m = m.
Proof.
  intros Hst Hask Hno. unfold restore_history_tags.
  rewrite Hst, pop_snoc, Hask. simpl. by rewrite bool_decide_eq_false_2.
Qed.

Lemma deque_append_last {A} (x : A) d : ∃ front, deque_append x d = front ++ [x].
Proof.
  unfold deque_append. rewrite length_app. simpl.
  destruct (decide (length d + 1 - UNDO_STACK_SIZE ≤ length d)) as [Hle|Hgt].
  - exists (drop (length d + 1 - UNDO_STACK_SIZE) d). by rewrite drop_app_le.
  - unfold UNDO_STACK_SIZE in *. lia.
Qed.

(** ** What an undo or a redo that goes through leaves *)

Lemma restore_history_tags_spec (is_undo : bool) reply m rest item :
  (if is_undo then undo_stack m else redo_stack m) = rest ++ [item] →
  should_ask_for_confirmation item = false ∨
  reply (undo_or_redo_string is_undo) (question is_undo item) = Yes →
  let m' := restore_history_tags is_undo reply m in
  heap m' = heap m ∧ separator m' = separator m ∧
  undo_stack m'
    = (if is_undo then rest else deque_append (counterpart item m) (undo_stack m)) ∧
  redo_stack m'
    = (if is_undo then redo_stack m ++ [counterpart item m] else rest) ∧
  length (images m') = length (images m) ∧
  ∀ j, tag_state m' !! j =
       if decide (j < length (history_tags item) ∧ j < length (images m))
       then deref (heap m) <$> history_tags item !! j
       else tag_state m !! j.
Proof.
  intros Hst Hgo. unfold restore_history_tags. rewrite Hst, pop_snoc.
  assert (Hcond : should_ask_for_confirmation item
                  && negb (bool_decide
                       (reply (undo_or_redo_string is_undo) (question is_undo item)
                        = Yes)) = false).
  { destruct Hgo as [->| ->]; [done|]. by rewrite andb_false_r. }
  rewrite Hcond. clear Hcond.
  match goal with |- context [restore_rows 0 ?h ?x []] =>
    set (m1 := x);
    pose proof (restore_rows_spec h 0 m1 []) as Hspec;
    destruct (restore_rows 0 h m1 []) as [m2 changed] end.
  simpl in Hspec. destruct Hspec as (Hh & Hu & Hr & Hs & Hl & Hj).
  pose proof (notify_changed_memory changed m2) as Hn.
  unfold memory in Hn. injection Hn as Hns Hnh Hni Hnu Hnr.
  assert (H1 : heap m1 = heap m ∧ images m1 = images m ∧ separator m1 = separator m)
    by (unfold m1; by destruct is_undo).
  destruct H1 as (H1h & H1i & H1s).
  assert (Hts1 : tag_state m1 = tag_state m).
  { unfold tag_state, tags_of. by rewrite H1h, H1i. }
  unfold tag_state, tags_of. simpl. rewrite Hnh, Hni, Hnu, Hnr, Hns.
  split; [congruence|]. split; [congruence|].
  split; [rewrite Hu; unfold m1; by destruct is_undo|].
  split; [rewrite Hr; unfold m1; by destruct is_undo|].
  split; [congruence|].
  intros j. fold (tags_of m2). fold (tag_state m2). rewrite Hj, H1h, H1i, Hts1.
  replace (j - 0) with j by lia.
  case_decide; case_decide; try done; lia.
Qed.

Lemma restore_history_tags_cases (is_undo : bool) reply m :
  restore_history_tags is_undo reply m = m ∨
  ∃ rest item,
    (if is_undo then undo_stack m else redo_stack m) = rest ++ [item] ∧
    (should_ask_for_confirmation item = false ∨
     reply (undo_or_redo_string is_undo) (question is_undo item) = Yes).
Proof.
  unfold restore_history_tags.
  destruct (pop _) as [[rest item]|] eqn:Hp; [|by left].
  destruct (should_ask_for_confirmation item) eqn:Hask; simpl.
  - case_bool_decide as Hr; simpl; [|by left].
    right. exists rest, item. split; [by apply pop_Some|]. right. done.
  - right. exists rest, item. split; [by apply pop_Some|]. by left.
Qed.

Lemma Forall_deque_append {A} (P : A → Prop) x d :
  P x → Forall P d → Forall P (deque_append x d).
Proof.
  intros Hx Hd. apply list.Forall_forall. intros y Hy.
  apply elem_of_deque_append in Hy as [->|Hy]; [done|].
  by apply (proj1 (list.Forall_forall P d) Hd).
Qed.

Lemma length_images_paths m m' :
  path <$> images m' = path <$> images m → length (images m') = length (images m).
Proof. intros H. by rewrite <- (length_fmap path), H, length_fmap. Qed.

Lemma step_complete_items m a : complete_items m → complete_items (step m a).
Proof.
  unfold complete_items. intros Hc.
  pose proof (length_images_paths m (step m a) (step_paths m a)) as Hlen.
  rewrite Hlen. apply Forall_app in Hc as [Hu Hr].
  destruct a as [op|reply|reply|row new]; cbn [step] in *; unfold undo, redo in *.
  - destruct (takes_snapshot op) eqn:Hs.
    + destruct (run_undo_stack op m Hs) as [-> ->]. rewrite app_nil_r.
      apply Forall_deque_append; [|done]. simpl.
      by rewrite length_seq, length_tag_state.
    + rewrite perform_no_snapshot by done. by apply Forall_app.
  - destruct (restore_history_tags_cases true reply m) as [->|(rest & item & Hst & Hgo)];
      [by apply Forall_app|].
    destruct (restore_history_tags_spec true reply m rest item Hst Hgo)
      as (_ & _ & -> & -> & _).
    rewrite Hst in Hu. apply Forall_app in Hu as [Hrest _].
    apply Forall_app. split; [done|]. apply Forall_app. split; [done|].
    apply Forall_singleton. simpl. unfold live. by rewrite length_fmap.
  - destruct (restore_history_tags_cases false reply m) as [->|(rest & item & Hst & Hgo)];
      [by apply Forall_app|].
    destruct (restore_history_tags_spec false reply m rest item Hst Hgo)
      as (_ & _ & -> & -> & _).
    rewrite Hst in Hr. apply Forall_app in Hr as [Hrest _].
    apply Forall_app. split; [|done].
    apply Forall_deque_append; [|done]. simpl. unfold live. by rewrite length_fmap.
  - destruct (update_image_tags_stacks row new m) as [-> ->]. by apply Forall_app.
Qed.

Lemma session_complete_items actions :
  ∀ m, complete_items m → complete_items (session actions m).
Proof.
  induction actions as [|a actions IH]; intros m Hc; simpl; [done|].
  apply IH. by apply step_complete_items.
Qed.

Lemma loaded_complete_items sep records : complete_items (loaded sep records).
Proof. unfold complete_items. simpl. constructor. Qed.

Lemma snoc_of_nonempty {A} (l : list A) : l ≠ [] → ∃ front x, l = front ++ [x].
Proof.
  intros Hne. destruct (pop l) as [[front x]|] eqn:Hp.
  - exists front, x. by apply pop_Some.
  - by apply pop_nil in Hp.
Qed.

Lemma tag_state_live m : deref (heap m) <$> live m = tag_state m.
Proof. unfold live, tag_state, tags_of. by rewrite <- list_fmap_compose. Qed.

Lemma snapshot_heap m m' item :
  heap m' = heap m → snapshot m' item = snapshot m item.
Proof. intros H. unfold snapshot. by rewrite H. Qed.

(** After an undo or a redo that goes through, with an item that has one
    entry per image, the images carry the item's tags. *)
Lemma restore_history_tags_tag_state (is_undo : bool) reply m rest item :
  (if is_undo then undo_stack m else redo_stack m) = rest ++ [item] →
  should_ask_for_confirmation item = false ∨
  reply (undo_or_redo_string is_undo) (question is_undo item) = Yes →
  length (history_tags item) = length (images m) →
  tag_state (restore_history_tags is_undo reply m) = snapshot m item.
Proof.
  intros Hst Hgo Hlen.
  destruct (restore_history_tags_spec is_undo reply m rest item Hst Hgo)
    as (_ & _ & _ & _ & Hl & Hj).
  apply list_eq. intros j. rewrite Hj. unfold snapshot. rewrite list_lookup_fmap.
  case_decide as Hc; [done|].
  rewrite (proj2 (lookup_ge_None (history_tags item) j)) by lia.
  simpl. apply lookup_ge_None. rewrite length_tag_state. lia.
Qed.

Lemma undo_then_redo reply m front item :
  (∀ title question, reply title question = Yes) →
  undo_stack m = front ++ [item] →
  length (history_tags item) = length (images m) →
  length (undo_stack m) ≤ UNDO_STACK_SIZE →
  let m' := redo reply (undo reply m) in
  tag_state m' = tag_state m ∧ heap m' = heap m ∧
  history m' = history m ∧ redo_stack m' = redo_stack m ∧
  (λ i, (action_name i, should_ask_for_confirmation i)) <$> undo_stack m'
  = (λ i, (action_name i, should_ask_for_confirmation i)) <$> undo_stack m.
Proof.
  intros Hyes Hst Hlen Hb. unfold redo, undo.
  set (m1 := restore_history_tags true reply m).
  destruct (restore_history_tags_spec true reply m front item Hst (or_intror (Hyes _ _)))
    as (Hh1 & Hs1 & Hu1 & Hr1 & Hl1 & _).
  pose proof (restore_history_tags_tag_state true reply m front item Hst
                (or_intror (Hyes _ _)) Hlen) as Ht1.
  fold m1 in Hh1, Hs1, Hu1, Hr1, Hl1, Ht1. cbv zeta in *.
  assert (Hlen2 : length (history_tags (counterpart item m)) = length (images m1)).
  { simpl. unfold live. rewrite length_fmap. congruence. }
  destruct (restore_history_tags_spec false reply m1 (redo_stack m) (counterpart item m)
              Hr1 (or_intror (Hyes _ _)))
    as (Hh2 & Hs2 & Hu2 & Hr2 & Hl2 & _).
  pose proof (restore_history_tags_tag_state false reply m1 (redo_stack m)
                (counterpart item m) Hr1 (or_intror (Hyes _ _)) Hlen2) as Ht2.
  cbv zeta in *.
  rewrite Hst, length_app in Hb. simpl in Hb.
  rewrite Hu1, deque_append_room in Hu2 by lia.
  split; [|split; [congruence|split; [|split; [done|]]]].
  - rewrite Ht2. unfold snapshot. simpl. rewrite Hh1. apply tag_state_live.
  - unfold history. rewrite Hu2, Hst, !fmap_app. simpl. f_equal.
    + apply list_fmap_ext. intros i x _. apply snapshot_heap. congruence.
    + f_equal. unfold snapshot at 1. simpl. rewrite Hh2.
      rewrite tag_state_live. exact Ht1.
  - rewrite Hu2, Hst, !fmap_app. done.
Qed.

Lemma redo_then_undo reply m rest item :
  (∀ title question, reply title question = Yes) →
  redo_stack m = rest ++ [item] →
  length (history_tags item) = length (images m) →
  length (undo_stack m) + length (redo_stack m) ≤ UNDO_STACK_SIZE →
  let m' := undo reply (redo reply m) in
  tag_state m' = tag_state m ∧ heap m' = heap m ∧
  undo_stack m' = undo_stack m ∧
  snapshot m' <$> redo_stack m' = snapshot m <$> redo_stack m ∧
  (λ i, (action_name i, should_ask_for_confirmation i)) <$> redo_stack m'
  = (λ i, (action_name i, should_ask_for_confirmation i)) <$> redo_stack m.
Proof.
  intros Hyes Hst Hlen Hb. unfold redo, undo.
  set (m1 := restore_history_tags false reply m).
  destruct (restore_history_tags_spec false reply m rest item Hst (or_intror (Hyes _ _)))
    as (Hh1 & Hs1 & Hu1 & Hr1 & Hl1 & _).
  pose proof (restore_history_tags_tag_state false reply m rest item Hst
                (or_intror (Hyes _ _)) Hlen) as Ht1.
  fold m1 in Hh1, Hs1, Hu1, Hr1, Hl1, Ht1. cbv zeta in *.
  rewrite Hst, length_app in Hb. simpl in Hb.
  rewrite deque_append_room in Hu1 by lia.
  assert (Hlen2 : length (history_tags (counterpart item m)) = length (images m1)).
  { simpl. unfold live. rewrite length_fmap. congruence. }
  destruct (restore_history_tags_spec true reply m1 (undo_stack m) (counterpart item m)
              Hu1 (or_intror (Hyes _ _)))
    as (Hh2 & Hs2 & Hu2 & Hr2 & Hl2 & _).
  pose proof (restore_history_tags_tag_state true reply m1 (undo_stack m)
                (counterpart item m) Hu1 (or_intror (Hyes _ _)) Hlen2) as Ht2.
  cbv zeta in *.
  split; [|split; [congruence|split; [done|split]]].
  - rewrite Ht2. unfold snapshot. simpl. rewrite Hh1. apply tag_state_live.
  - rewrite Hr2, Hr1, Hst, !fmap_app. simpl. f_equal.
    + apply list_fmap_ext. intros i x _. apply snapshot_heap. congruence.
    + f_equal. unfold snapshot at 1. simpl. rewrite Hh2.
      rewrite tag_state_live. exact Ht1.
  - rewrite Hr2, Hr1, Hst, !fmap_app. done.
Qed.

(** ** What an undo or a redo writes *)

Lemma restore_rows_log history :
  ∀ k m changed,
    let r := restore_rows k history m changed in
    let value := λ j, deref (heap m) <$> history !! (j - k) in
    let rows := filter (λ j, tag_state m !! j ≠ value j)
                       (seq k (length history `min` (length (images m) - k))) in
    r.2 = changed ++ rows ∧
    ∃ attempts,
      effects r.1 = effects m ++ save_log attempts ∧
      attempts.*1
      = (λ j, (row_path m j, join (separator m) (default [] (value j)))) <$> rows.
Proof.
  induction history as [|h rest IH]; intros k m changed.
  { simpl. split; [by rewrite app_nil_r|]. exists []. simpl. by rewrite app_nil_r. }
  cbn [restore_rows]. cbv zeta.
  destruct (images m !! k) as [image|] eqn:Hk.
  2:{ apply lookup_ge_None in Hk.
      replace (length (h :: rest) `min` (length (images m) - k)) with 0 by lia.
      simpl. split; [by rewrite app_nil_r|]. exists []. simpl. by rewrite app_nil_r. }
  pose proof (lookup_lt_Some _ _ _ Hk) as Hlt.
  replace (length (h :: rest) `min` (length (images m) - k))
    with (S (length rest `min` (length (images m) - S k))) by (simpl length; lia).
  cbn [seq]. rewrite filter_cons. replace (k - k) with 0 by lia.
  cbn [lookup list_lookup fmap option_fmap option_map].
  rewrite tag_state_lookup, Hk. cbn [fmap option_fmap option_map].
  assert (Hshift : ∀ j, j ∈ seq (S k) (length rest `min` (length (images m) - S k)) →
            (h :: rest) !! (j - k) = rest !! (j - S k)).
  { intros j Hj%elem_of_seq. replace (j - k) with (S (j - S k)) by lia. done. }
  case_decide as Heq.
  - rewrite decide_False by (intros Hne; apply Hne; by rewrite Heq).
    specialize (IH (S k) m changed). cbv zeta in IH.
    destruct IH as (Hc & attempts & He & Ha).
    erewrite (filter_ext_in _ _ (seq (S k) _)).
    + split; [exact Hc|]. exists attempts. split; [done|]. rewrite Ha.
      apply list_fmap_ext. intros i j Hj. simpl.
      rewrite Hshift; [done|]. apply list_elem_of_lookup_2 in Hj.
      by apply list_elem_of_filter in Hj as [_ Hj].
    + intros j Hj. simpl. by rewrite Hshift.
  - rewrite decide_True by (intros [= Hx]; by apply Heq).
    set (image' := mkImage (path image) h).
    set (m0 := with_images (<[k:=image']> (images m)) m).
    set (m1 := write_image_tags_to_disk image' m0).
    specialize (IH (S k) m1 (changed ++ [k])). cbv zeta in IH.
    assert (Hm1 : memory m1 = memory m0) by apply write_memory.
    unfold memory in Hm1. simpl in Hm1. injection Hm1 as Hs1 Hh1 Hi1 Hu1 Hr1.
    destruct (write_effects image' m0) as [Hw _]. fold m1 in Hw. simpl in Hw.
    destruct IH as (Hc & attempts & He & Ha).
    rewrite Hh1, Hi1, length_insert, Hs1 in *.
    assert (Hrows : ∀ j, j ∈ seq (S k) (length rest `min` (length (images m) - S k)) →
              tag_state m1 !! j = tag_state m !! j).
    { intros j Hj%elem_of_seq. rewrite !tag_state_lookup, Hi1.
      rewrite list_lookup_insert_ne by lia. unfold tags_of. by rewrite Hh1. }
    erewrite (filter_ext_in _ _ (seq (S k) _)) in Hc, Ha.
    + split; [by rewrite Hc, <- app_assoc|].
      eexists ((_, _, _) :: attempts). split.
      * rewrite He, Hw. change (save_log (?a :: attempts))
          with (save_effects a ++ save_log attempts).
        by rewrite <- app_assoc.
      * rewrite !fmap_cons. cbn [fst]. f_equal.
        -- f_equal; [by rewrite (row_path_lookup m k image Hk)|].
           replace (k - k) with 0 by lia. done.
        -- rewrite Ha. apply list_fmap_ext. intros i j Hj. simpl.
           apply list_elem_of_lookup_2 in Hj.
           apply list_elem_of_filter in Hj as [_ Hj].
           f_equal; [|by rewrite Hshift].
           apply row_path_ext. rewrite Hi1. by apply paths_insert.
    + intros j Hj. simpl. rewrite Hrows, Hshift by done. done.
    + intros j Hj. simpl. rewrite Hrows, Hshift by done. done.
Qed.

Lemma row_tags_Some m j :
  j < length (images m) → tag_state m !! j = Some (row_tags m j).
Proof.
  intros Hj. unfold row_tags.
  destruct (tag_state m !! j) eqn:E; [done|].
  apply lookup_ge_None in E. rewrite length_tag_state in E. lia.
Qed.

(** ** Direct edits *)

Lemma update_image_tags_kept P row new m :
  apart P m → kept P m (update_image_tags row new m).1.
Proof.
  intros Ha. unfold update_image_tags.
  destruct (images m !! row) as [image|] eqn:Hi; [|by apply kept_refl].
  case_decide; [by apply kept_refl|].
  pose proof (assign_kept P row image (rebind new) m Ha Hi) as Hk.
  destruct (assign row image (rebind new) m) as [m1 image1]. simpl in *.
  eapply kept_trans; [exact Hk|].
  eapply kept_trans; [apply emit_kept, (kept_apart _ _ _ Hk)|].
  apply write_kept, emit_kept, (kept_apart _ _ _ Hk).
Qed.

Lemma update_all_kept P edits : ∀ m, apart P m → kept P m (update_all edits m).
Proof.
  induction edits as [|e edits IH]; intros m Ha; simpl; [by apply kept_refl|].
  pose proof (update_image_tags_kept P e.1 e.2 m Ha) as Hk.
  eapply kept_trans; [exact Hk|]. apply IH, (kept_apart _ _ _ Hk).
Qed.

Lemma snapshot_item_apart op name ask m :
  valid_live m →
  apart (λ l, l ∈ history_tags (snapshot_item op m)) (add_to_undo_stack name ask m).
Proof.
  intros Hv l Hl. simpl in Hl. apply elem_of_seq in Hl. simpl.
  rewrite length_app. split; [lia|].
  intros Hin. pose proof (valid_live_lt m l Hv Hin). lia.
Qed.

(** The item an operation pushes keeps the tag state the operation found,
    through the operation itself and any direct edits after it. *)
Lemma snapshot_item_kept op m m' :
  valid_live m → takes_snapshot op = true →
  (∀ P, apart P (perform op m) → kept P (perform op m) m') →
  snapshot m' (snapshot_item op m) = tag_state m ∧
  undo_stack m' = deque_append (snapshot_item op m) (undo_stack m) ∧
  length (images m') = length (images m).
Proof.
  intros Hv Hs Hk'.
  destruct (perform_kept op m Hs) as (name & ask & Hk).
  set (P := λ l, l ∈ history_tags (snapshot_item op m)).
  specialize (Hk P (snapshot_item_apart op name ask m Hv)).
  specialize (Hk' P (kept_apart _ _ _ Hk)).
  pose proof (kept_trans _ _ _ _ Hk Hk') as Hkk.
  split; [|split].
  - unfold snapshot.
    transitivity (deref (heap m ++ tag_state m)
                    <$> seq (length (heap m)) (length (tag_state m)));
      [|apply deref_fresh].
    apply list_fmap_ext. intros i l Hl. apply list_elem_of_lookup_2 in Hl.
    unfold deref. by rewrite (kept_heap _ _ _ Hkk l Hl).
  - rewrite (kept_undo _ _ _ Hk'). by destruct (run_undo_stack op m Hs) as [-> _].
  - rewrite (kept_length_images _ _ _ Hkk). done.
Qed.

(** ** The match count and the operations *)

Lemma foldl_add {A} (f : nat → A → nat) (c : A → nat) l :
  (∀ a x, f a x = a + c x) → ∀ a, foldl f a l = a + sum_list (c <$> l).
Proof.
  intros Hf. induction l as [|x l IH]; intros a; [simpl; lia|].
  rewrite fmap_cons. cbn [foldl sum_list]. rewrite IH, Hf. unfold id. lia.
Qed.

Lemma get_text_match_count_rows text only visible whole m :
  get_text_match_count text only visible whole m
  = sum_list ((λ row, matches_in text only visible whole (separator m)
                        (row_path m row) (row_tags m row))
              <$> seq 0 (length (images m))).
Proof.
  unfold get_text_match_count.
  rewrite (foldl_add _ (λ image, matches_in text only visible whole (separator m)
                                   (path image) (tags_of m image))).
  2:{ intros a image. unfold matches_in. repeat case_match; lia. }
  simpl. f_equal.
  apply list_eq. intros j. rewrite !list_lookup_fmap.
  destruct (decide (j < length (images m))) as [Hj|Hj].
  - rewrite lookup_seq_lt by done. simpl.
    destruct (lookup_lt_is_Some_2 _ _ Hj) as [image Hi]. rewrite Hi. simpl.
    by rewrite (row_path_lookup m j image Hi), (row_tags_lookup m j image Hi).
  - rewrite (proj2 (lookup_ge_None _ _)) by lia.
    rewrite (proj2 (lookup_ge_None _ _)); [done|]. rewrite length_seq. lia.
Qed.

Lemma filter_empty_iff {A} (P : A → Prop) `{∀ x, Decision (P x)} (l : list A) :
  filter P l = [] ↔ ∀ x, x ∈ l → ¬ P x.
Proof.
  split.
  - intros Hf x Hx HP. by apply (filter_nil_not_elem_of P l x).
  - intros Hall. induction l as [|y l IH]; [done|].
    rewrite filter_cons, decide_False by (apply Hall; by left).
    apply IH. intros x Hx. apply Hall. by right.
Qed.

Lemma sum_list_zero_iff (f : nat → nat) (l : list nat) :
  sum_list (f <$> l) = 0 ↔ ∀ x, x ∈ l → f x = 0.
Proof.
  induction l as [|y l IH].
  - split; [|done]. intros _ x Hx. by apply elem_of_nil in Hx.
  - rewrite fmap_cons. cbn [sum_list]. unfold id. split.
    + intros [Hy Hl]%Nat.eq_add_0 x [->|Hx]%elem_of_cons; [done|].
      by apply IH.
    + intros Hall. rewrite (Hall y) by (by left).
      apply IH. intros x Hx. apply Hall. by right.
Qed.

Lemma count_from_zero sub s :
  sub ≠ EmptyString → count_from sub 0 s = 0 ↔ contains sub s = false.
Proof.
  intros Hne. induction s as [|c rest IH].
  - simpl. destruct sub; [done|]. simpl. done.
  - cbn [count_from contains].
    destruct (String.prefix sub (String c rest)); simpl; [split; done|].
    exact IH.
Qed.

Lemma str_count_zero sub s :
  sub ≠ EmptyString → str_count sub s = 0 ↔ contains sub s = false.
Proof. intros Hne. destruct sub; [done|]. by apply count_from_zero. Qed.

Lemma list_count_zero x l : list_count x l = 0 ↔ x ∉ l.
Proof.
  unfold list_count. rewrite length_zero_iff_nil, filter_empty_iff.
  split.
  - intros H Hx. by apply (H x).
  - intros H y Hy ->. done.
Qed.

Lemma bulk_edit_changes_nothing name body m :
  total body → well_formed m →
  changed_image_indices (bulk_edit name body m) = []
  ↔ ∀ row, row < length (images m) → counted (visit_at body m row) = false.
Proof.
  intros Ht Hwf.
  destruct (bulk_edit_total name body m Ht Hwf) as (_ & _ & _ & _ & _ & ->).
  rewrite filter_empty_iff. split.
  - intros H row Hrow. apply not_true_is_false, H, elem_of_seq. lia.
  - intros H row Hrow%elem_of_seq. rewrite H by lia. done.
Qed.

Lemma matches_in_zero text only visible whole sep p ts :
  matches_in text only visible whole sep p ts = 0
  ↔ ¬ (filtered_out only visible p ts = false ∧
       if whole then text ∈ ts
       else str_count text (join sep ts) ≠ 0).
Proof.
  unfold matches_in. destruct (filtered_out only visible p ts).
  - split; [intros _ [? _]; done|done].
  - destruct whole.
    + rewrite list_count_zero. split; [intros H [_ ?]; done|].
      intros H Hin. apply H. done.
    + split; [intros H [_ ?]; done|]. intros H.
      destruct (decide (str_count text (join sep ts) = 0)); [done|].
      destruct H. done.
Qed.

Lemma get_text_match_count_zero text only visible whole m :
  get_text_match_count text only visible whole m = 0
  ↔ ∀ row, row < length (images m) →
      matches_in text only visible whole (separator m)
                 (row_path m row) (row_tags m row) = 0.
Proof.
  rewrite get_text_match_count_rows, sum_list_zero_iff. split.
  - intros H row Hrow. apply H, elem_of_seq. lia.
  - intros H row Hrow%elem_of_seq. apply H. lia.
Qed.

Lemma not_counted_iff (v : Visit) (P : Prop) :
  (counted v = true ↔ P) → (counted v = false ↔ ¬ P).
Proof. intros H. rewrite <- H. by destruct (counted v). Qed.

(** ** What rename and delete leave *)

Lemma rename_row old_tag new_tag only visible row p ts :
  new_value (assignment (visit_of (rename_body old_tag new_tag only visible) row p ts)) ts
  = if filtered_out only visible p ts then ts
    else (λ t, if decide (t = old_tag) then new_tag else t) <$> ts.
Proof.
  unfold visit_of, rename_body, skip.
  destruct (filtered_out only visible p ts); [done|].
  case_bool_decide as Hin; [done|]. simpl.
  induction ts as [|t ts IH]; [done|]. simpl.
  apply not_elem_of_cons in Hin as [Hne Hin].
  rewrite decide_False by done. f_equal. by apply IH.
Qed.

Lemma delete_row tag only visible row p ts :
  new_value (assignment (visit_of (delete_body tag only visible) row p ts)) ts
  = if filtered_out only visible p ts then ts
    else filter (λ t, t ≠ tag) ts.
Proof.
  unfold visit_of, delete_body, skip.
  destruct (filtered_out only visible p ts); [done|].
  case_bool_decide as Hin; [done|]. simpl.
  induction ts as [|t ts IH]; [done|].
  apply not_elem_of_cons in Hin as [Hne Hin].
  rewrite filter_cons, decide_True by done. f_equal. by apply IH.
Qed.

Lemma list_count_cons x y l :
  list_count x (y :: l) = (if decide (y = x) then 1 else 0) + list_count x l.
Proof. unfold list_count. rewrite filter_cons. by case_decide. Qed.

Lemma list_count_renamed x old_tag new_tag l :
  old_tag ≠ new_tag →
  list_count x ((λ t, if decide (t = old_tag) then new_tag else t) <$> l)
  = if decide (x = old_tag) then 0
    else if decide (x = new_tag) then list_count new_tag l + list_count old_tag l
    else list_count x l.
Proof.
  intros Hne. induction l as [|t l IH].
  { simpl. by repeat case_decide. }
  rewrite fmap_cons, !list_count_cons, IH.
  repeat case_decide; subst; try done; lia.
Qed.

Lemma list_count_deleted x tag l :
  list_count x (filter (λ t, t ≠ tag) l)
  = if decide (x = tag) then 0 else list_count x l.
Proof.
  induction l as [|t l IH].
  { simpl. by case_decide. }
  rewrite filter_cons, (list_count_cons x t l).
  destruct (decide (t ≠ tag)) as [Hne|Heq%dec_stable];
    rewrite ?list_count_cons, IH; repeat case_decide; subst; try done; lia.
Qed.

Lemma whole_tag_count text visible m :
  get_text_match_count text false visible true m
  = sum_list ((λ row, list_count text (row_tags m row)) <$> seq 0 (length (images m))).
Proof. by rewrite get_text_match_count_rows. Qed.

Lemma sum_list_ext (f g : nat → nat) l :
  (∀ x, x ∈ l → f x = g x) → sum_list (f <$> l) = sum_list (g <$> l).
Proof.
  intros H. f_equal. apply list_fmap_ext. intros i x Hx. apply H.
  by apply list_elem_of_lookup_2 in Hx.
Qed.

Lemma sum_list_add (f g : nat → nat) l :
  sum_list ((λ x, f x + g x) <$> l) = sum_list (f <$> l) + sum_list (g <$> l).
Proof.
  induction l as [|x l IH]; [done|].
  rewrite !fmap_cons. change (sum_list (?a :: ?b)) with (a + sum_list b).
  rewrite IH. lia.
Qed.

Lemma sum_list_zero (f : nat → nat) l :
  (∀ x, x ∈ l → f x = 0) → sum_list (f <$> l) = 0.
Proof. by intros H; apply sum_list_zero_iff. Qed.

(** ** Reading back a caption that was written *)

Lemma append_cons x (a b : string) : String x a +:+ b = String x (a +:+ b).
Proof. done. Qed.

Lemma append_nil_l (b : string) : EmptyString +:+ b = b.
Proof. done. Qed.

Lemma append_nil_r (a : string) : a +:+ EmptyString = a.
Proof. induction a as [|x a IH]; [done|]. by rewrite append_cons, IH. Qed.

Lemma append_assoc (a b c : string) : (a +:+ b) +:+ c = a +:+ (b +:+ c).
Proof.
  induction a as [|x a IH]; [done|]. by rewrite !append_cons, IH.
Qed.

Lemma prefix_append (a b : string) : String.prefix a (a +:+ b) = true.
Proof.
  induction a as [|x a IH]; [by destruct b|]. rewrite append_cons.
  cbn [String.prefix]. by destruct (ascii_dec x x).
Qed.

Lemma absent_cons c x t :
  contains (String c EmptyString) (String x t) = false →
  c ≠ x ∧ contains (String c EmptyString) t = false.
Proof.
  cbn [contains String.prefix]. destruct (ascii_dec c x) as [->|Hne].
  - by destruct t.
  - simpl. done.
Qed.

Lemma split_from_skip sep cur x : ∀ rest,
  split_from sep (String.length x) cur (x +:+ rest) = split_from sep 0 cur rest.
Proof.
  induction x as [|c x IH]; intros rest; [by destruct rest|].
  rewrite append_cons. apply IH.
Qed.

Lemma split_from_tag c sep' t : ∀ cur rest,
  contains (String c EmptyString) t = false →
  split_from (String c sep') 0 cur (t +:+ String c sep' +:+ rest)
  = (cur +:+ t) :: split_from (String c sep') 0 EmptyString rest.
Proof.
  induction t as [|x t IH]; intros cur rest Habs.
  - rewrite append_nil_l, append_nil_r.
    pose proof (prefix_append (String c sep') rest) as Hp.
    rewrite append_cons in *. cbn [split_from]. rewrite Hp.
    f_equal. replace (String.length (String c sep') - 1) with (String.length sep')
      by (simpl; lia).
    apply split_from_skip.
  - apply absent_cons in Habs as [Hne Habs]. rewrite append_cons.
    cbn [split_from String.prefix].
    destruct (ascii_dec c x) as [?|_]; [done|].
    rewrite IH by done. f_equal. by rewrite append_assoc.
Qed.

Lemma split_from_last c sep' t : ∀ cur,
  contains (String c EmptyString) t = false →
  split_from (String c sep') 0 cur t = [cur +:+ t].
Proof.
  induction t as [|x t IH]; intros cur Habs.
  - simpl. by rewrite append_nil_r.
  - apply absent_cons in Habs as [Hne Habs]. cbn [split_from String.prefix].
    destruct (ascii_dec c x) as [?|_]; [done|].
    rewrite IH by done. by rewrite append_assoc.
Qed.

(** Splitting a joined caption gives back the tags, when no tag holds the
    character the separator starts with. *)
Lemma split_join c sep' tags :
  tags ≠ [] →
  Forall (λ t, contains (String c EmptyString) t = false) tags →
  split (String c sep') (join (String c sep') tags) = Some tags.
Proof.
  intros Hne Habs. unfold split, join. f_equal.
  induction tags as [|t tags IH]; [done|].
  inversion Habs as [|? ? Ht Htags]; subst.
  destruct tags as [|t2 tags].
  - simpl. by rewrite split_from_last.
  - change (String.concat (String c sep') (t :: t2 :: tags))
      with (t +:+ String c sep' +:+ String.concat (String c sep') (t2 :: tags)).
    rewrite split_from_tag by done. rewrite append_nil_l. f_equal. by apply IH.
Qed.

Lemma join_empty sep tags :
  sep ≠ EmptyString → join sep tags = EmptyString →
  tags = [] ∨ tags = [EmptyString].
Proof.
  intros Hsep. unfold join. destruct tags as [|t [|t2 tags]]; simpl.
  - by left.
  - intros ->. by right.
  - destruct t; [|done]. destruct sep; done.
Qed.

(** ** The sorts *)

Lemma insert_by_perm {A} (before : A → A → bool) x l :
  insert_by before x l ≡ₚ x :: l.
Proof.
  induction l as [|y l IH]; simpl; [done|].
  destruct (before x y); [done|]. rewrite IH. apply Permutation_swap.
Qed.

Lemma sort_by_perm {A} (before : A → A → bool) l : sort_by before l ≡ₚ l.
Proof.
  induction l as [|x l IH]; [done|].
  change (sort_by before (x :: l)) with (insert_by before x (sort_by before l)).
  by rewrite insert_by_perm, IH.
Qed.

Lemma insert_by_sorted {A} (before : A → A → bool) x l :
  (∀ a b, before a b = true ∨ before b a = true) →
  Sorted (λ a b, before a b = true) l →
  Sorted (λ a b, before a b = true) (insert_by before x l).
Proof.
  intros Htotal Hl. induction Hl as [|y l Hl IH Hhd]; simpl.
  { by repeat constructor. }
  destruct (before x y) eqn:Hxy.
  - constructor; [by constructor|by constructor].
  - constructor; [done|].
    assert (Hyx : before y x = true) by (destruct (Htotal x y); congruence).
    destruct Hhd as [|z l Hyz]; simpl; [by constructor|].
    destruct (before x z); by constructor.
Qed.

Lemma sort_by_sorted {A} (before : A → A → bool) l :
  (∀ a b, before a b = true ∨ before b a = true) →
  Sorted (λ a b, before a b = true) (sort_by before l).
Proof.
  intros Htotal. induction l as [|x l IH]; [constructor|].
  change (sort_by before (x :: l)) with (insert_by before x (sort_by before l)).
  by apply insert_by_sorted.
Qed.

(** A list in order is left as it is. *)
Lemma sort_by_id {A} (before : A → A → bool) l :
  Sorted (λ a b, before a b = true) l → sort_by before l = l.
Proof.
  induction 1 as [|x l Hl IH Hhd]; [done|].
  change (sort_by before (x :: l)) with (insert_by before x (sort_by before l)).
  rewrite IH. destruct Hhd as [|y l Hxy]; [done|]. simpl. by rewrite Hxy.
Qed.

Lemma sort_by_twice {A} (before : A → A → bool) l :
  (∀ a b, before a b = true ∨ before b a = true) →
  sort_by before (sort_by before l) = sort_by before l.
Proof. intros Htotal. by apply sort_by_id, sort_by_sorted. Qed.

(** The sort is stable: elements with the same key keep their order. *)
Lemma insert_by_stable {A} (key : A → nat) (before : A → A → bool) k x l :
  (∀ a b, before a b = true → key b ≤ key a) →
  (∀ a b, key a = key b → before a b = true) →
  filter (λ a, key a = k) (insert_by before x l)
  = filter (λ a, key a = k) (x :: l).
Proof.
  intros Hle Heq. induction l as [|y l IH]; [done|]. simpl.
  destruct (before x y) eqn:Hxy; [done|].
  rewrite filter_cons, IH, !filter_cons.
  destruct (decide (key y = k)) as [Hy|Hy], (decide (key x = k)) as [Hx|Hx]; try done.
  rewrite Heq in Hxy by congruence. done.
Qed.

Lemma sort_by_stable {A} (key : A → nat) (before : A → A → bool) k l :
  (∀ a b, before a b = true → key b ≤ key a) →
  (∀ a b, key a = key b → before a b = true) →
  filter (λ a, key a = k) (sort_by before l) = filter (λ a, key a = k) l.
Proof.
  intros Hle Heq. induction l as [|x l IH]; [done|].
  change (sort_by before (x :: l)) with (insert_by before x (sort_by before l)).
  rewrite (insert_by_stable key) by done. by rewrite !filter_cons, IH.
Qed.

Lemma Sorted_weaken {A} (R R' : A → A → Prop) l :
  (∀ a b, R a b → R' a b) → Sorted R l → Sorted R' l.
Proof.
  intros HR. induction 1 as [|x l Hl IH Hhd]; constructor; [done|].
  destruct Hhd; constructor. by apply HR.
Qed.

Lemma sorted_order l : StronglySorted String.le (sorted l).
Proof.
  apply Sorted_StronglySorted; [intros a b c Hab Hbc; by etrans|].
  eapply Sorted_weaken; [|apply (sort_by_sorted String.leb), String.leb_total].
  intros a b Hab. unfold String.le. by rewrite Hab.
Qed.

Lemma sorted_by_count_order tag_counter l :
  StronglySorted (λ a b, tag_counter b ≤ tag_counter a) (sorted_by_count tag_counter l).
Proof.
  apply Sorted_StronglySorted; [intros a b c ??; lia|].
  eapply Sorted_weaken; [|apply (sort_by_sorted _)].
  - intros a b Hab%Nat.leb_le. done.
  - intros a b. rewrite !Nat.leb_le. lia.
Qed.

Lemma sort_row sep order fixed row p ts :
  new_value (assignment (visit_of (sort_body sep order fixed) row p ts)) ts
  = if length ts <? 2 then ts
    else match fixed, ts with
         | true, first_tag :: others => first_tag :: order others
         | _, _ => order ts
         end.
Proof.
  unfold visit_of, sort_body, skip. destruct (length ts <? 2); [done|].
  by destruct fixed, ts.
Qed.

Lemma short_list {A} (l : list A) :
  (length l <? 2) = true → l = [] ∨ ∃ x, l = [x].
Proof.
  intros H%Nat.ltb_lt. destruct l as [|x [|y l]]; simpl in H; [by left|eauto|lia].
Qed.

(** ** Running an operation twice *)

Lemma tag_state_rows m m' :
  length (images m') = length (images m) →
  (∀ row, row < length (images m) → row_tags m' row = row_tags m row) →
  tag_state m' = tag_state m.
Proof.
  intros Hlen Hrows. apply list_eq. intros j.
  destruct (decide (j < length (images m))) as [Hj|Hj].
  - rewrite !row_tags_Some by lia. f_equal. by apply Hrows.
  - rewrite !(proj2 (lookup_ge_None _ _)); [done|..];
      rewrite length_tag_state; lia.
Qed.

Lemma bulk_edit_twice name body m :
  total body → settled body → well_formed m →
  let m1 := final (bulk_edit name body m) in
  let r2 := bulk_edit name body m1 in
  outcome r2 = returned ∧
  changed_image_indices r2 = [] ∧ tag_state (final r2) = tag_state m1.
Proof.
  intros Ht Hs Hwf m1 r2.
  destruct (bulk_edit_total name body m Ht Hwf)
    as (_ & Hwf1 & _ & Hpaths1 & Hrows1 & _). fold m1 in Hwf1, Hpaths1, Hrows1.
  destruct (bulk_edit_total name body m1 Ht Hwf1)
    as (Hout2 & _ & _ & Hpaths2 & Hrows2 & Hchanged2). fold r2 in Hout2, Hpaths2, Hrows2, Hchanged2.
  pose proof (length_images_paths _ _ Hpaths1) as Hlen1.
  assert (Hv : ∀ row, row < length (images m) →
            counted (visit_at body m1 row) = false ∧
            new_value (assignment (visit_at body m1 row)) (row_tags m1 row)
            = row_tags m1 row).
  { intros row Hrow. unfold visit_at.
    rewrite (row_path_ext m m1 row Hpaths1), (Hrows1 row Hrow). apply Hs. }
  split; [done|]. split.
  - rewrite Hchanged2. apply filter_empty_iff. intros row Hrow%elem_of_seq.
    rewrite (proj1 (Hv row ltac:(lia))). done.
  - apply tag_state_rows; [exact (length_images_paths _ _ Hpaths2)|].
    intros row Hrow. rewrite Hrows2 by done. apply Hv. lia.
Qed.

Lemma sort_body_settled sep order fixed :
  (∀ l, order (order l) = order l) →
  (∀ l, length (order l) = length l) →
  settled (sort_body sep order fixed).
Proof.
  intros Hidem Hlen row p ts ts'.
  assert (Hsame : new_value (assignment (visit_of (sort_body sep order fixed) row p ts')) ts'
                  = ts').
  { unfold ts'. rewrite !sort_row.
    destruct (length ts <? 2) eqn:Hshort; [by rewrite Hshort|].
    destruct fixed, ts as [|first_tag others]; simpl in Hshort; try done.
    - simpl length. rewrite Hlen, Hshort, Hidem. done.
    - rewrite Hlen. simpl length. rewrite Hshort.
      destruct (order (first_tag :: others)) eqn:E; by rewrite <- ?E, Hidem.
    }
  split; [|done].
  pose proof (sort_counted sep order fixed row p ts') as Hc. cbv zeta in Hc.
  rewrite Hsame in Hc. destruct (counted _); [|done]. by destruct (proj1 Hc).
Qed.

Lemma dict_fromkeys_not_in (x : string) (l : list string) :
  x ∉ l → filter (λ y, y ≠ x) l = l.
Proof.
  induction l as [|y l IH]; [done|]. intros [Hne Hin]%not_elem_of_cons.
  rewrite filter_cons, decide_True by done. f_equal. by apply IH.
Qed.

Lemma elem_of_dict_fromkeys x l : x ∈ dict_fromkeys l ↔ x ∈ l.
Proof.
  induction l as [|y l IH]; [done|]. simpl.
  rewrite !elem_of_cons, list_elem_of_filter, IH.
  destruct (decide (x = y)) as [->|Hne]; [by split; left|].
  split; [intros [?|[_ ?]]; [done|by right]|intros [?|?]; [done|by right]].
Qed.

Lemma NoDup_dict_fromkeys l : NoDup (dict_fromkeys l).
Proof.
  induction l as [|y l IH]; simpl; [constructor|].
  apply list.NoDup_cons. split.
  - rewrite list_elem_of_filter. by intros [? _].
  - by apply list.NoDup_filter.
Qed.

Lemma dict_fromkeys_NoDup l : NoDup l → dict_fromkeys l = l.
Proof.
  induction 1 as [|x l Hx Hl IH]; [done|]. simpl. rewrite IH.
  by rewrite dict_fromkeys_not_in.
Qed.

Lemma remove_duplicate_row row p ts :
  new_value (assignment (visit_of remove_duplicate_body row p ts)) ts
  = dict_fromkeys ts.
Proof.
  unfold visit_of, remove_duplicate_body, skip.
  destruct (length ts =? length (dict_fromkeys ts)) eqn:Heq; [|done]. simpl.
  apply Nat.eqb_eq in Heq. symmetry. clear row p.
  induction ts as [|t ts IH]; [done|]. simpl in *.
  pose proof (length_filter (λ y, y ≠ t) (dict_fromkeys ts)) as H1.
  pose proof (length_dict_fromkeys ts) as H2.
  assert (Hf : filter (λ y, y ≠ t) (dict_fromkeys ts) = dict_fromkeys ts).
  { destruct (decide (t ∈ dict_fromkeys ts)) as [Hin|Hnin];
      [|by apply dict_fromkeys_not_in].
    pose proof (length_filter_lt (λ y, y ≠ t) (dict_fromkeys ts) t Hin
                  ltac:(by intros ?)). lia. }
  rewrite Hf. f_equal. apply IH. rewrite Hf in Heq. lia.
Qed.

Lemma remove_duplicate_body_settled : settled remove_duplicate_body.
Proof.
  intros row p ts ts'.
  assert (Hts' : ts' = dict_fromkeys ts) by apply remove_duplicate_row.
  assert (Hsame : new_value (assignment (visit_of remove_duplicate_body row p ts')) ts'
                  = ts').
  { rewrite remove_duplicate_row, Hts'. apply dict_fromkeys_NoDup, NoDup_dict_fromkeys. }
  split; [|done].
  pose proof (remove_duplicate_counted row p ts') as Hc. cbv zeta in Hc.
  rewrite Hsame in Hc. destruct (counted _); [|done].
  pose proof (proj1 Hc eq_refl). lia.
Qed.

Lemma remove_empty_row row p ts :
  new_value (assignment (visit_of remove_empty_body row p ts)) ts
  = filter (λ tag, truthy (strip tag) = true) ts.
Proof.
  unfold visit_of, remove_empty_body.
  by destruct (length ts =? length (filter _ ts)).
Qed.

Lemma filter_twice {A} (P : A → Prop) `{∀ x, Decision (P x)} (l : list A) :
  filter P (filter P l) = filter P l.
Proof.
  induction l as [|x l IH]; [done|]. rewrite filter_cons.
  case_decide; [|done]. by rewrite filter_cons, decide_True, IH.
Qed.

Lemma remove_empty_body_settled : settled remove_empty_body.
Proof.
  intros row p ts ts'.
  assert (Hts' : ts' = filter (λ tag, truthy (strip tag) = true) ts)
    by apply remove_empty_row.
  assert (Hsame : new_value (assignment (visit_of remove_empty_body row p ts')) ts'
                  = ts').
  { rewrite remove_empty_row, Hts'. apply filter_twice. }
  split; [|done].
  pose proof (remove_empty_counted row p ts') as Hc. cbv zeta in Hc.
  rewrite Hsame in Hc. destruct (counted _); [|done].
  pose proof (proj1 Hc eq_refl). lia.
Qed.

Lemma delete_body_settled tag only visible : settled (delete_body tag only visible).
Proof.
  intros row p ts ts'.
  assert (Hts' : ts' = if filtered_out only visible p ts then ts
                       else filter (λ t, t ≠ tag) ts) by apply delete_row.
  assert (Hnot : ¬ (filtered_out only visible p ts' = false ∧ tag ∈ ts')).
  { intros [Hf Hin]. rewrite Hts' in Hin.
    destruct (filtered_out only visible p ts) eqn:Hf0.
    - rewrite Hts' in Hf. congruence.
    - apply list_elem_of_filter in Hin as [Hne _]. done. }
  split.
  - apply not_true_is_false. by rewrite delete_counted.
  - rewrite delete_row. destruct (filtered_out only visible p ts') eqn:Hf; [done|].
    apply dict_fromkeys_not_in. intros Hin. by apply Hnot.
Qed.

Lemma rename_body_settled old_tag new_tag only visible :
  old_tag ≠ new_tag → settled (rename_body old_tag new_tag only visible).
Proof.
  intros Hne row p ts ts'.
  assert (Hts' : ts' = if filtered_out only visible p ts then ts
                       else (λ t, if decide (t = old_tag) then new_tag else t) <$> ts)
    by apply rename_row.
  assert (Hnot : ¬ (filtered_out only visible p ts' = false ∧ old_tag ∈ ts')).
  { intros [Hf Hin]. rewrite Hts' in Hin.
    destruct (filtered_out only visible p ts) eqn:Hf0.
    - rewrite Hts' in Hf. congruence.
    - apply list_elem_of_fmap in Hin as (t & Ht & _).
      case_decide; congruence. }
  split.
  - apply not_true_is_false. by rewrite rename_counted.
  - rewrite rename_row. destruct (filtered_out only visible p ts') eqn:Hf; [done|].
    assert (Hin : old_tag ∉ ts') by (intros Hin; by apply Hnot).
    clear -Hin. induction ts' as [|t ts' IH]; [done|].
    apply not_elem_of_cons in Hin as [Hne Hin]. simpl.
    rewrite decide_False by done. f_equal. by apply IH.
Qed.

(** ** The loop, one row at a time: what is written and what is counted *)

Lemma for_rows_step body i rest m changed count :
  total body → well_formed m → i < length (images m) →
  let v := visit_at body m i in
  ∃ m2,
    for_rows body (i :: rest) m changed count
    = for_rows body rest m2 (changed ++ (if counted v then [i] else []))
               (count + removed v) ∧
    well_formed m2 ∧
    path <$> images m2 = path <$> images m ∧
    separator m2 = separator m ∧
    (∀ j, row_tags m2 j
          = if decide (i = j) then new_value (assignment v) (row_tags m i)
            else row_tags m j) ∧
    (∀ j, j ≠ i → visit_at body m2 j = visit_at body m j) ∧
    effects m2
    = effects m ++
      (if counted v
       then save_effects (row_path m i,
                          join (separator m) (new_value (assignment v) (row_tags m i)),
                          default false (head (os_errors m)))
       else []) ∧
    os_errors m2 = (if counted v then tail (os_errors m) else os_errors m).
Proof.
  intros Htotal Hwf Hlt v. cbn [for_rows].
  destruct (lookup_lt_is_Some_2 _ _ Hlt) as [image Hi]. rewrite Hi, Htotal.
  assert (Hvisit : visit_of body i (path image) (tags_of m image) = v).
  { unfold v, visit_at. by rewrite (row_path_lookup m i image Hi),
                                   (row_tags_lookup m i image Hi). }
  rewrite Hvisit.
  destruct (assign_tag_state i image (assignment v) m Hwf Hi) as [Hts Hwf1].
  pose proof (assign_kept _ i image (assignment v) m (no_locs_apart m) Hi) as Hk.
  pose proof (assign_lookup i image (assignment v) m Hi) as Hl1.
  destruct (assign_world i image (assignment v) m) as (He1 & Ho1 & Hs1 & Hp1).
  destruct (assign i image (assignment v) m) as [m1 image1]. simpl in *.
  rewrite <- (row_tags_lookup m i image Hi) in Hts.
  assert (Hnew : tags_of m1 image1 = new_value (assignment v) (row_tags m i)).
  { pose proof (tag_state_lookup m1 i) as Hl. rewrite Hl1, Hts in Hl.
    rewrite list_lookup_insert_eq in Hl by (by rewrite length_tag_state).
    simpl in Hl. congruence. }
  assert (Hnext : ∀ m2, memory m2 = memory m1 →
            well_formed m2 ∧
            path <$> images m2 = path <$> images m ∧
            separator m2 = separator m ∧
            (∀ j, row_tags m2 j
                  = if decide (i = j) then new_value (assignment v) (row_tags m i)
                    else row_tags m j) ∧
            (∀ j, j ≠ i → visit_at body m2 j = visit_at body m j)).
  { intros m2 Hm2.
    assert (Hpaths : path <$> images m2 = path <$> images m).
    { rewrite <- (kept_paths _ _ _ Hk). unfold memory in Hm2. congruence. }
    assert (Htags : ∀ j, row_tags m2 j
                         = if decide (i = j)
                           then new_value (assignment v) (row_tags m i)
                           else row_tags m j).
    { intros j. apply row_tags_insert; [|done].
      by rewrite (tag_state_memory _ _ Hm2). }
    split; [by apply (well_formed_memory m1)|]. split; [done|].
    split; [unfold memory in Hm2; congruence|]. split; [done|].
    intros j Hj. unfold visit_at. rewrite (row_path_ext m m2 j Hpaths), Htags.
    rewrite decide_False; [done|]. by intros <-. }
  destruct (counted v) eqn:Hcounted.
  - exists (write_image_tags_to_disk image1 m1). split; [done|].
    destruct (Hnext _ (write_memory image1 m1)) as (H1 & H2 & H3 & H4 & H5).
    do 5 (split; [done|]).
    destruct (write_effects image1 m1) as [Hw Ho]. rewrite Hw, Ho.
    rewrite He1, Ho1, Hs1, Hp1, Hnew, (row_path_lookup m i image Hi). done.
  - exists m1. rewrite !app_nil_r. split; [done|].
    destruct (Hnext m1 eq_refl) as (H1 & H2 & H3 & H4 & H5).
    do 5 (split; [done|]). done.
Qed.

(** What the loop writes, with which captions, and the count it returns. *)
Lemma for_rows_written body rows :
  total body →
  ∀ m changed count,
    well_formed m → NoDup rows →
    (∀ row, row ∈ rows → row < length (images m)) →
    let r := for_rows body rows m changed count in
    removed_tag_count r
    = count + sum_list ((λ j, removed (visit_at body m j)) <$> rows) ∧
    ∃ attempts,
      effects (final r) = effects m ++ save_log attempts ∧
      attempts.*1
      = (λ j, (row_path m j,
               join (separator m)
                    (new_value (assignment (visit_at body m j)) (row_tags m j))))
        <$> filter (λ j, counted (visit_at body m j) = true) rows.
Proof.
  intros Htotal. induction rows as [|i rest IH];
    intros m changed count Hwf Hnd Hbound.
  { simpl. split; [lia|]. exists []. simpl. by rewrite app_nil_r. }
  apply list.NoDup_cons in Hnd as [Hi_rest Hnd].
  assert (Hlt : i < length (images m)) by (apply Hbound; by left).
  destruct (for_rows_step body i rest m changed count Htotal Hwf Hlt)
    as (m2 & -> & Hwf2 & Hpaths & Hsep & Htags & Hvis' & Heff & _).
  assert (Hvis : ∀ j, j ∈ rest → visit_at body m2 j = visit_at body m j).
  { intros j Hj. apply Hvis'. by intros ->. }
  destruct (IH m2 (changed ++ (if counted (visit_at body m i) then [i] else []))
               (count + removed (visit_at body m i)) Hwf2 Hnd)
    as (Hcount & attempts & He & Ha).
  { intros row Hrow. rewrite (length_images_paths _ _ Hpaths). apply Hbound. by right. }
  split.
  - rewrite Hcount, fmap_cons. change (sum_list (?a :: ?b)) with (a + sum_list b).
    rewrite (sum_list_ext _ (λ j, removed (visit_at body m j)) rest)
      by (intros j Hj; by rewrite Hvis).
    lia.
  - assert (Ha' : attempts.*1
                  = (λ j, (row_path m j,
                           join (separator m)
                                (new_value (assignment (visit_at body m j))
                                           (row_tags m j))))
                    <$> filter (λ j, counted (visit_at body m j) = true) rest).
    { rewrite Ha.
      rewrite (filter_ext_in _ (λ j, counted (visit_at body m j) = true) rest)
        by (intros j Hj; by rewrite Hvis).
      apply list_fmap_ext. intros k j Hj.
      apply list_elem_of_lookup_2, list_elem_of_filter in Hj as [_ Hj].
      rewrite (row_path_ext m m2 j Hpaths), Hsep, Hvis, Htags by done.
      rewrite decide_False; [done|]. by intros <-. }
    rewrite filter_cons. destruct (counted (visit_at body m i)) eqn:Hc.
    + rewrite decide_True by done.
      eexists ((_, _, _) :: attempts). split.
      * rewrite He, Heff. change (save_log (?a :: attempts))
          with (save_effects a ++ save_log attempts).
        by rewrite <- app_assoc.
      * rewrite !fmap_cons. cbn [fst]. by rewrite Ha'.
    + rewrite decide_False by done. exists attempts.
      rewrite He, Heff, app_nil_r. done.
Qed.

Lemma bulk_edit_written name body m :
  total body → well_formed m →
  let r := bulk_edit name body m in
  removed_tag_count r
  = sum_list ((λ j, removed (visit_at body m j)) <$> seq 0 (length (images m))) ∧
  save_attempts (effects_since m (final r))
  = (λ j, (row_path m j, row_caption (final r) j)) <$> changed_image_indices r.
Proof.
  intros Htotal Hwf r.
  destruct (bulk_edit_total name body m Htotal Hwf)
    as (Hout & _ & Hsep & _ & Hrows & Hchanged). fold r in Hout, Hsep, Hrows, Hchanged.
  revert Hout Hsep Hrows Hchanged. unfold r, bulk_edit. clear r.
  set (m1 := add_to_undo_stack name true m).
  assert (Hwf1 : well_formed m1) by (by apply add_to_undo_stack_well_formed).
  assert (Hvis : ∀ row, visit_at body m1 row = visit_at body m row).
  { intros row. unfold visit_at. f_equal. apply row_tags_ext.
    apply add_to_undo_stack_tag_state, Hwf. }
  destruct (for_rows_total body (seq 0 (length (images m1))) Htotal m1 [] 0 Hwf1)
    as (Hout1 & _); [apply NoDup_seq|intros row Hrow%elem_of_seq; lia|].
  destruct (for_rows_written body (seq 0 (length (images m1))) Htotal m1 [] 0 Hwf1)
    as (Hcount & attempts & He & Ha);
    [apply NoDup_seq|intros row Hrow%elem_of_seq; lia|].
  set (r1 := for_rows body (seq 0 (length (images m1))) m1 [] 0) in *.
  rewrite Hout1. cbn [final removed_tag_count changed_image_indices outcome].
  intros _ Hsep Hrows Hchanged. split.
  - rewrite Hcount. simpl. apply sum_list_ext. intros j _. by rewrite Hvis.
  - set (m' := notify_changed (changed_image_indices r1) (final r1)) in *.
    assert (Heff : effects m'
                   = effects m ++ [update_undo_and_redo_actions_requested]
                     ++ save_log attempts
                     ++ ((λ r, dataChanged r.1 r.2)
                           <$> reported_range (changed_image_indices r1))).
    { unfold m'. rewrite notifications_notify_changed, He. simpl.
      by rewrite <- !app_assoc. }
    rewrite (effects_since_app _ _ _ Heff).
    rewrite !save_attempts_app, save_attempts_save_log, save_attempts_reported.
    simpl. rewrite app_nil_r, Ha, Hchanged. simpl.
    rewrite (filter_ext_in _ (λ j, counted (visit_at body m j) = true))
      by (intros j _; by rewrite Hvis).
    apply list_fmap_ext. intros k j Hj.
    apply list_elem_of_lookup_2, list_elem_of_filter in Hj as [_ Hj%elem_of_seq].
    simpl in Hj. unfold row_caption. rewrite Hsep, Hrows by lia.
    rewrite Hvis. f_equal. f_equal. f_equal. apply row_tags_ext.
    apply add_to_undo_stack_tag_state, Hwf.
Qed.

(** ** What the removals leave and return *)

Lemma dict_fromkeys_sublist l : dict_fromkeys l `sublist_of` l.
Proof.
  induction l as [|x l IH]; [done|]. simpl. apply sublist_skip.
  etrans; [apply sublist_filter|exact IH].
Qed.

Lemma remove_duplicate_removed row p ts :
  removed (visit_of remove_duplicate_body row p ts)
  = length ts - length (dict_fromkeys ts).
Proof.
  unfold visit_of, remove_duplicate_body, skip.
  destruct (length ts =? length (dict_fromkeys ts)) eqn:Heq; [|done].
  apply Nat.eqb_eq in Heq. simpl. lia.
Qed.

Lemma remove_empty_removed row p ts :
  removed (visit_of remove_empty_body row p ts)
  = length ts - length (filter (λ tag, truthy (strip tag) = true) ts).
Proof.
  unfold visit_of, remove_empty_body.
  destruct (length ts =? length (filter _ ts)) eqn:Heq; [|done].
  apply Nat.eqb_eq in Heq. simpl. lia.
Qed.

(** ** What [add_tags] leaves *)

Lemma add_tags_body_total new_tags : total (add_tags_body new_tags).
Proof. apply total_intro. intros row p ts. eexists. reflexivity. Qed.

Lemma add_tags_visit new_tags m row :
  visit_at (add_tags_body new_tags) m row
  = mkVisit (in_place (extended new_tags (row_tags m row))) true 0.
Proof. done. Qed.

Lemma elem_of_extended new_tags ts tag :
  tag ∈ extended new_tags ts ↔ tag ∈ ts ∨ tag ∈ new_tags.
Proof.
  unfold extended. rewrite elem_of_app, list_elem_of_filter.
  destruct (decide (tag ∈ ts)); split; intros H; tauto.
Qed.

Lemma extended_twice new_tags ts :
  extended new_tags (extended new_tags ts) = extended new_tags ts.
Proof.
  unfold extended at 1. rewrite (proj2 (filter_empty_iff _ new_tags)).
  - apply app_nil_r.
  - intros tag Hin Hnot. apply Hnot, elem_of_extended. by right.
Qed.

Lemma add_rows new_tags rows :
  ∀ m changed count,
    well_formed m →
    (∀ row, row ∈ rows → row < length (images m)) →
    let r := for_rows (add_tags_body new_tags) rows m changed count in
    outcome r = returned ∧ well_formed (final r) ∧
    path <$> images (final r) = path <$> images m ∧
    separator (final r) = separator m ∧
    (∀ j, row_tags (final r) j
          = if decide (j ∈ rows) then extended new_tags (row_tags m j)
            else row_tags m j) ∧
    ∃ attempts,
      effects (final r) = effects m ++ save_log attempts ∧
      attempts.*1
      = (λ j, (row_path m j, join (separator m) (extended new_tags (row_tags m j))))
        <$> rows.
Proof.
  induction rows as [|i rest IH]; intros m changed count Hwf Hbound.
  { simpl. do 4 (split; [done|]). split; [done|]. exists []. simpl.
    by rewrite app_nil_r. }
  assert (Hlt : i < length (images m)) by (apply Hbound; by left).
  destruct (for_rows_step (add_tags_body new_tags) i rest m changed count
              (add_tags_body_total _) Hwf Hlt)
    as (m2 & -> & Hwf2 & Hpaths & Hsep & Htags & _ & Heff & _).
  rewrite add_tags_visit in *. cbn [counted removed assignment new_value] in *.
  destruct (IH m2 (changed ++ [i]) (count + 0) Hwf2)
    as (Hout & Hwff & Hpf & Hsf & Hrows & attempts & He & Ha).
  { intros row Hrow. rewrite (length_images_paths _ _ Hpaths). apply Hbound. by right. }
  assert (Hext : ∀ j, extended new_tags (row_tags m2 j)
                      = if decide (i = j) then extended new_tags (row_tags m i)
                        else extended new_tags (row_tags m j)).
  { intros j. rewrite Htags. case_decide; [apply extended_twice|done]. }
  split; [done|]. split; [done|]. split; [congruence|]. split; [congruence|].
  split.
  - intros j. rewrite Hrows.
    destruct (decide (i = j)) as [<-|Hne].
    + rewrite (decide_True (P := i ∈ i :: rest)) by (by left).
      case_decide; [by rewrite Hext, decide_True|by rewrite Htags, decide_True].
    + rewrite Hext, Htags, !(decide_False (P := i = j)) by done.
      destruct (decide (j ∈ rest)) as [Hj|Hj].
      * by rewrite decide_True by (by right).
      * rewrite decide_False; [done|]. intros [?|?]%elem_of_cons; done.
  - eexists ((_, _, _) :: attempts). split.
    + rewrite He, Heff. change (save_log (?a :: attempts))
        with (save_effects a ++ save_log attempts).
      by rewrite <- app_assoc.
    + rewrite !fmap_cons. cbn [fst]. f_equal. rewrite Ha.
      apply list_fmap_ext. intros k j Hj.
      rewrite (row_path_ext m m2 j Hpaths), Hsep, Hext.
      by case_decide; subst.
Qed.

Lemma add_tags_rows new_tags image_indices m :
  well_formed m → image_indices ≠ [] →
  (∀ row, row ∈ image_indices → row < length (images m)) →
  let r := add_tags new_tags image_indices m in
  r.2 = returned ∧
  (∀ row, row < length (images m) →
     row_tags r.1 row
     = if decide (row ∈ image_indices) then extended new_tags (row_tags m row)
       else row_tags m row) ∧
  separator r.1 = separator m ∧ path <$> images r.1 = path <$> images m ∧
  save_attempts (effects_since m r.1)
  = (λ j, (row_path m j, row_caption r.1 j)) <$> image_indices.
Proof.
  intros Hwf Hne Hbound. unfold add_tags.
  set (name := if length new_tags =? 1 then "Add Tag" else "Add Tags").
  set (m1 := add_to_undo_stack name (1 <? length image_indices) m).
  assert (Hts1 : tag_state m1 = tag_state m)
    by apply add_to_undo_stack_tag_state, Hwf.
  destruct (add_rows new_tags image_indices m1 [] 0
              (add_to_undo_stack_well_formed _ _ _ Hwf) Hbound)
    as (Hout & _ & Hpaths & Hsep & Hrows & attempts & He & Ha).
  set (r := for_rows (add_tags_body new_tags) image_indices m1 [] 0) in *.
  rewrite Hout. destruct image_indices as [|row others] eqn:Hidx; [done|].
  rewrite <- Hidx in *. cbn [fst snd].
  set (m' := emit _ (final r)).
  assert (Hrows' : ∀ j, row_tags m' j
                        = if decide (j ∈ image_indices)
                          then extended new_tags (row_tags m j) else row_tags m j).
  { intros j. unfold m'. 
    transitivity (row_tags (final r) j); [done|]. rewrite Hrows.
    by rewrite !(row_tags_ext m m1 j Hts1). }
  split; [done|]. split; [intros j _; apply Hrows'|].
  split; [exact Hsep|]. split; [exact Hpaths|].
  assert (Heff : effects m'
                 = effects m ++ [update_undo_and_redo_actions_requested]
                   ++ save_log attempts
                   ++ [dataChanged (foldr Nat.min row others) (foldr Nat.max row others)]).
  { unfold m'. simpl. rewrite He. simpl. by rewrite <- !app_assoc. }
  rewrite (effects_since_app _ _ _ Heff).
  rewrite !save_attempts_app, save_attempts_save_log. simpl.
  rewrite app_nil_r, Ha. apply list_fmap_ext. intros k j Hj.
  apply list_elem_of_lookup_2 in Hj. unfold row_caption.
  rewrite Hrows', decide_True by done.
  change (separator m') with (separator (final r)). rewrite Hsep.
  by rewrite (row_tags_ext m m1 j Hts1).
Qed.

(** ** Every write carries the caption the image ends with *)

Lemma add_tags_returned new_tags image_indices m :
  (add_tags new_tags image_indices m).2 = returned →
  image_indices ≠ [] ∧ ∀ row, row ∈ image_indices → row < length (images m).
Proof.
  unfold add_tags.
  set (m1 := add_to_undo_stack _ _ m).
  pose proof (for_rows_log (add_tags_body new_tags) image_indices m1 [] 0) as Hlog.
  cbv zeta in Hlog.
  destruct Hlog as (new_rows & attempts & _ & _ & _ & _ & _ & _ & Hb).
  set (r := for_rows _ _ _ _ _) in *.
  destruct (outcome r); [|done].
  intros Hret. split; [by destruct image_indices|].
  intros j Hj. by apply Hb.
Qed.

Lemma bulk_edit_captions name body m :
  total body → well_formed m →
  Forall (λ pc, ∃ row, row < length (images m) ∧
                       pc = (row_path m row, row_caption (final (bulk_edit name body m)) row))
         (save_attempts (effects_since m (final (bulk_edit name body m)))).
Proof.
  intros Ht Hwf.
  destruct (bulk_edit_written name body m Ht Hwf) as [_ ->].
  destruct (bulk_edit_total name body m Ht Hwf) as (_ & _ & _ & _ & _ & ->).
  apply Forall_fmap, list.Forall_forall. intros row Hrow.
  apply list_elem_of_filter in Hrow as [_ Hrow%elem_of_seq].
  exists row. split; [lia|done].
Qed.

(** ** The shuffle *)

Lemma shuffle_row random_shuffle fixed row p ts :
  new_value (assignment (visit_of (shuffle_body random_shuffle fixed) row p ts)) ts
  = if length ts <? 2 then ts
    else match fixed, ts with
         | true, first_tag :: remaining_tags =>
             first_tag :: random_shuffle row remaining_tags
         | _, _ => random_shuffle row ts
         end.
Proof.
  unfold visit_of, shuffle_body, skip. destruct (length ts <? 2); [done|].
  by destruct fixed, ts.
Qed.

(** ** The caption [find_and_replace] leaves *)

Lemma prefix_split a : ∀ s, String.prefix a s = true → ∃ rest, s = a +:+ rest.
Proof.
  induction a as [|x a IH]; intros s Hp.
  - by exists s.
  - destruct s as [|y s]; [done|]. cbn [String.prefix] in Hp.
    destruct (ascii_dec x y) as [->|]; [|done].
    destruct (IH s Hp) as [rest ->]. by exists rest.
Qed.

Lemma length_append (a b : string) :
  String.length (a +:+ b) = String.length a + String.length b.
Proof. induction a as [|x a IH]; [done|]. rewrite append_cons. simpl. by rewrite IH. Qed.

Lemma split_from_nonempty sep : ∀ s k cur, split_from sep k cur s ≠ [].
Proof.
  induction s as [|c s IH]; intros k cur; [done|]. cbn [split_from].
  destruct k; [|apply IH]. destruct (String.prefix sep (String c s)); [done|apply IH].
Qed.

Lemma join_cons sep x l : l ≠ [] → join sep (x :: l) = x +:+ sep +:+ join sep l.
Proof. by destruct l. Qed.

(** Joining what [split] gives restores the string. *)
Lemma join_split_from sep :
  sep ≠ EmptyString →
  ∀ n s cur, String.length s ≤ n →
    join sep (split_from sep 0 cur s) = cur +:+ s.
Proof.
  intros Hsep. induction n as [|n IH]; intros s cur Hlen.
  { destruct s; [|simpl in Hlen; lia]. simpl. by rewrite append_nil_r. }
  destruct s as [|c rest]; [simpl; by rewrite append_nil_r|].
  cbn [split_from]. destruct (String.prefix sep (String c rest)) eqn:Hp.
  - destruct (prefix_split _ _ Hp) as [rest' Hs].
    destruct sep as [|c0 sep']; [done|]. rewrite append_cons in Hs.
    injection Hs as <- ->.
    replace (String.length (String c sep') - 1) with (String.length sep')
      by (simpl; lia).
    rewrite split_from_skip, join_cons by apply split_from_nonempty.
    rewrite IH.
    + by rewrite append_nil_l, append_cons.
    + simpl in Hlen. rewrite length_append in Hlen. lia.
  - rewrite IH by (simpl in Hlen; lia). by rewrite append_assoc.
Qed.

Lemma join_split sep s tags : split sep s = Some tags → join sep tags = s.
Proof.
  unfold split. destruct sep as [|c sep']; [done|]. intros [= <-].
  rewrite (join_split_from (String c sep') ltac:(done) (String.length s)) by done.
  apply append_nil_l.
Qed.

Lemma find_and_replace_row sep find_text replace_text only visible row p ts :
  sep ≠ EmptyString →
  join sep (new_value (assignment (visit_of (find_and_replace_body sep find_text
                                               replace_text only visible) row p ts)) ts)
  = if negb (filtered_out only visible p ts) && contains find_text (join sep ts)
    then replace find_text replace_text (join sep ts)
    else join sep ts.
Proof.
  intros Hsep. unfold visit_of, find_and_replace_body, skip.
  destruct (filtered_out only visible p ts); [done|]. simpl negb. cbv iota.
  simpl andb. destruct (contains find_text (join sep ts)); [|done].
  simpl negb. cbv iota.
  destruct (split sep _) as [tags|] eqn:Hsplit.
  - simpl. by apply join_split.
  - unfold split in Hsplit. by destruct sep.
Qed.

(** ** Matches counted and matches replaced *)

Lemma prefix_length a : ∀ s, String.prefix a s = true → String.length a ≤ String.length s.
Proof.
  intros s Hp. destruct (prefix_split a s Hp) as [rest ->].
  rewrite length_append. lia.
Qed.

(** [replace] and [count] find the same occurrences: each one takes the
    old text out and puts the new text in. *)
Lemma replace_from_length old new :
  old ≠ EmptyString →
  ∀ s k,
    String.length (replace_from old new k s) + count_from old k s * String.length old
    + k `min` String.length s
    = String.length s + count_from old k s * String.length new.
Proof.
  intros Hold. induction s as [|c rest IH]; intros k; [simpl; lia|].
  cbn [replace_from count_from]. destruct k as [|k].
  - destruct (String.prefix old (String c rest)) eqn:Hp.
    + pose proof (prefix_length _ _ Hp) as Hlen. simpl in Hlen.
      specialize (IH (String.length old - 1)).
      assert (0 < String.length old) by (destruct old; [done|simpl; lia]).
      rewrite length_append. simpl String.length. nia.
    + specialize (IH 0). simpl String.length. simpl in IH. lia.
  - specialize (IH k). simpl String.length. lia.
Qed.

(** ** The order of the effects *)

Lemma bulk_edit_order name body m :
  let r := bulk_edit name body m in
  ∃ attempts ranges,
    effects_since m (final r)
    = update_undo_and_redo_actions_requested
      :: save_log attempts ++ ((λ r, dataChanged r.1 r.2) <$> ranges) ∧
    length ranges ≤ 1 ∧ (outcome r ≠ returned → ranges = []).
Proof.
  intros r. destruct (bulk_edit_log name body m) as (attempts & He & _).
  fold r in He. eexists attempts, _. split; [|split].
  - apply effects_since_app. rewrite He. simpl. reflexivity.
  - case_decide; [|simpl; lia].
    unfold reported_range. destruct (changed_image_indices r); simpl; lia.
  - intros Hne. by rewrite decide_False.
Qed.

Lemma add_tags_order new_tags image_indices m :
  let r := add_tags new_tags image_indices m in
  ∃ attempts ranges,
    effects_since m r.1
    = update_undo_and_redo_actions_requested
      :: save_log attempts ++ ((λ r, dataChanged r.1 r.2) <$> ranges) ∧
    length ranges ≤ 1 ∧ (r.2 ≠ returned → ranges = []).
Proof.
  unfold add_tags.
  set (m1 := add_to_undo_stack _ _ m).
  pose proof (for_rows_log (add_tags_body new_tags) image_indices m1 [] 0) as Hlog.
  cbv zeta in Hlog.
  destruct Hlog as (new_rows & attempts & _ & _ & He & _).
  set (r := for_rows _ _ _ _ _) in *.
  assert (He' : effects (final r)
                = effects m ++ update_undo_and_redo_actions_requested
                               :: save_log attempts).
  { rewrite He. simpl. by rewrite <- app_assoc. }
  destruct (outcome r).
  - destruct image_indices as [|row others]; cbn [fst snd].
    + exists attempts, []. simpl. rewrite app_nil_r.
      split; [by apply effects_since_app|]. split; [lia|done].
    + exists attempts, [(foldr Nat.min row others, foldr Nat.max row others)].
      split; [|split; [simpl; lia|done]].
      apply effects_since_app. simpl. rewrite He'. by rewrite <- app_assoc.
  - exists attempts, []. cbn [fst snd]. simpl. rewrite app_nil_r.
    split; [by apply effects_since_app|]. split; [lia|done].
Qed.

(** * The claims *)

(** C1.  Run any sequence of at most 32 of the nine bulk mutation
    operations and then call [undo()] once per operation, every
    confirmation approved: every image's tag list is again what it was
    before the first operation.  This holds from the state
    [load_directory] leaves, for every sequence; and from any state a
    session has reached since, for every sequence of operations that each
    take their snapshot (all do, but [find_and_replace] with an empty find
    text, which returns at once). *)
Theorem undo_once_per_operation_restores_tags :
  (∀ sep records (ops : list Operation) reply,
     length ops ≤ 32 →
     (∀ title question, reply title question = Yes) →
     tag_state (undo_times (length ops) reply
                  (perform_all ops (loaded sep records)))
     = tag_state (loaded sep records)) ∧
  (∀ sep records actions (ops : list Operation) reply,
     length ops ≤ 32 →
     forallb takes_snapshot ops = true →
     (∀ title question, reply title question = Yes) →
     tag_state (undo_times (length ops) reply
                  (perform_all ops (session actions (loaded sep records))))
     = tag_state (session actions (loaded sep records))).
Proof.
  split.
  - intros sep records ops reply Hn Hyes. apply undo_after_operations; try done.
    + apply loaded_copied_history.
    + by left.
  - intros sep records actions ops reply Hn Hall Hyes.
    apply undo_after_operations_anywhere; try done.
    apply session_valid_live.
Qed.

Lemma undo_once_per_operation_restores_tags_witness :
  let ops := [RenameTag "cat" "lynx" false all_images;
              AddTags ["owl"] [1];
              FindAndReplace EmptyString "x" false all_images;
              SortTagsAlphabetically false] in
  let earlier := [edit (DeleteTag "dog" false all_images);
                  press_undo approve; press_redo approve;
                  retag 1 ["bird"; "owl"]] in
  let later := [ShuffleTags (λ _ l, rev l) false; AddTags ["emu"] [0; 1]] in
  (length ops ≤ 32 ∧
   tag_state (undo_times (length ops) approve (perform_all ops two_images))
   = [["cat"; "dog"]; ["bird"]]) ∧
  (length later ≤ 32 ∧ forallb takes_snapshot later = true ∧
   tag_state (undo_times (length later) approve
                (perform_all later (session earlier two_images)))
   = [["cat"]; ["bird"; "owl"]]).
Proof.
  intros ops earlier later.
  destruct undo_once_per_operation_restores_tags as [Hloaded Hanywhere].
  split.
  - split; [simpl; lia|].
    exact (Hloaded ", " [("1.png", ["cat"; "dog"]); ("2.png", ["bird"])]
             ops approve ltac:(simpl; lia) ltac:(done)).
  - split; [simpl; lia|]. split; [done|].
    exact (Hanywhere ", " [("1.png", ["cat"; "dog"]); ("2.png", ["bird"])]
             earlier later approve ltac:(simpl; lia) eq_refl ltac:(done)).
Defined.

(** C2 does not hold of the code: [restore_history_tags] pushes the
    images' own list objects ([tags = [image.tags for image in
    self.images]]), where [add_to_undo_stack] pushes copies.  After rename,
    undo and redo, the item on the undo stack shares the second image's
    list with the image; [add_tags] then extends that list in place, the
    stored snapshot changes with it, and two undos later the second image
    has a tag it never had in the state being restored. *)
Theorem redo_pushes_the_images_own_lists :
  let m1 := perform (RenameTag "cat" "lynx" false all_images) two_images in
  let m3 := redo approve (undo approve m1) in
  let m4 := perform (AddTags ["owl"] [1]) m3 in
  tag_state two_images = [["cat"; "dog"]; ["bird"]] ∧
  (* the item [redo] pushed references the second image's list object *)
  (∃ item, undo_stack m3 = [item] ∧
           history_tags item !! 1 = tags <$> images m3 !! 1 ∧
           snapshot m3 item = [["cat"; "dog"]; ["bird"]]) ∧
  (* the in-place extension by [add_tags] alters the stored snapshot *)
  history m4 = [[["cat"; "dog"]; ["bird"; "owl"]]; [["lynx"; "dog"]; ["bird"]]] ∧
  (* and undoing both operations does not restore the loaded tags *)
  tag_state (undo_times 2 approve m4) = [["cat"; "dog"]; ["bird"; "owl"]].
Proof.
  intros m1 m3 m4. split; [by vm_compute|]. split; [|split; by vm_compute].
  eexists. split; [by vm_compute|]. split; by vm_compute.
Qed.

(** C3, as stated, fails for Add tags: adding a tag an image already has
    leaves its caption as it was, and the image is written to disk and
    notified all the same.  Nor is the caption what the other operations
    go by, the two sorts apart: renaming a tag to itself counts, writes and
    notifies every image that has the tag. *)
Lemma unchanged_images_are_written :
  let m' := (add_tags ["cat"] [0] two_images).1 in
  let r := rename_tag "cat" "cat" false all_images two_images in
  (row_caption m' 0 = row_caption two_images 0 ∧
   saved_paths (effects_since two_images m') = ["1.png"] ∧
   notifications (effects_since two_images m') = [(0, 0)]) ∧
  (row_caption (final r) 0 = row_caption two_images 0 ∧
   changed_image_indices r = [0] ∧
   saved_paths (effects_since two_images (final r)) = ["1.png"] ∧
   notifications (effects_since two_images (final r)) = [(0, 0)]).
Proof. by vm_compute. Qed.

(** C3, amended.  For every bulk operation other than Add tags, the images
    written to disk are exactly the rows the operation counts as changed,
    in row order, and the notification spans from the first to the last
    counted row, none being emitted when no row is counted.  The two sorts
    count a row exactly when its caption differs before and after; rename,
    delete and find/replace count every row in scope that holds the tag or
    text; remove duplicates and remove empty count a row exactly when its
    number of tags drops; shuffle counts every row with two tags or more.
    Add tags writes every target row and always notifies the range from
    the smallest to the largest target row. *)
Theorem changed_rows_are_written_and_notified :
  (∀ op m,
     is_add_tags op = false → outcome (run op m) = returned →
     saved_paths (effects_since m (perform op m))
       = row_path m <$> changed_image_indices (run op m) ∧
     notifications (effects_since m (perform op m))
       = reported_range (changed_image_indices (run op m)) ∧
     changed_image_indices (run op m) `sublist_of` seq 0 (length (images m))) ∧
  (∀ op m row,
     well_formed m → separator m ≠ EmptyString → row < length (images m) →
     row ∈ changed_image_indices (run op m)
     ↔ counts_as_changed op m (perform op m) row) ∧
  (∀ new_tags image_indices m,
     (add_tags new_tags image_indices m).2 = returned →
     saved_paths (effects_since m (add_tags new_tags image_indices m).1)
       = row_path m <$> image_indices ∧
     ∃ row others,
       image_indices = row :: others ∧
       notifications (effects_since m (add_tags new_tags image_indices m).1)
         = [(foldr Nat.min row others, foldr Nat.max row others)]).
Proof.
  split; [exact run_observed|]. split; [exact changed_rows_follow_the_rule|].
  exact add_tags_observed.
Qed.

Lemma changed_rows_are_written_and_notified_witness :
  let m := loaded ", " [("1.png", ["dog"; "cat"]); ("2.png", ["bird"; "owl"]);
                        ("3.png", ["owl"; "cat"])] in
  let op := SortTagsAlphabetically false in
  (is_add_tags op = false ∧ outcome (run op m) = returned ∧
   changed_image_indices (run op m) = [0; 2] ∧
   saved_paths (effects_since m (perform op m)) = ["1.png"; "3.png"] ∧
   notifications (effects_since m (perform op m)) = [(0, 2)]) ∧
  (well_formed m ∧ separator m ≠ EmptyString ∧ 1 < length (images m) ∧
   (1 ∈ changed_image_indices (run op m)
    ↔ row_caption (perform op m) 1 ≠ row_caption m 1)) ∧
  ((add_tags ["cat"] [2; 0] m).2 = returned ∧
   saved_paths (effects_since m (add_tags ["cat"] [2; 0] m).1)
     = ["3.png"; "1.png"]).
Proof.
  intros m op.
  assert (Hwf : well_formed m) by apply loaded_well_formed.
  destruct changed_rows_are_written_and_notified as (HA & HB & HC).
  destruct (HA op m eq_refl eq_refl) as (H1 & H2 & _).
  split; [|split].
  - split; [done|]. split; [done|]. split; [done|]. split; [exact H1|exact H2].
  - split; [exact Hwf|]. split; [done|]. split; [simpl; lia|].
    exact (HB op m 1 Hwf ltac:(done) ltac:(simpl; lia)).
  - split; [done|]. exact (proj1 (HC ["cat"] [2; 0] m eq_refl)).
Defined.

(** C4, as stated, fails: with the first tag kept fixed, an image with
    exactly two tags is counted as changed, written and notified. *)
Lemma shuffle_counts_two_tags_with_first_fixed :
  let m := loaded ", " [("1.png", ["cat"; "dog"])] in
  let r := shuffle_tags (λ _ l, l) true m in
  length (row_tags m 0) = 2 ∧
  changed_image_indices r = [0] ∧
  saved_paths (effects_since m (final r)) = ["1.png"] ∧
  notifications (effects_since m (final r)) = [(0, 0)].
Proof. by vm_compute. Qed.

(** C4, amended.  [shuffle_tags] counts an image as changed exactly when
    it has at least two tags, whether or not the first tag is kept fixed
    and whatever order [random.shuffle] leaves; the counted images are the
    ones written, and the notified range runs from the first to the last
    of them. *)
Theorem shuffle_counts_images_with_two_tags random_shuffle fixed m :
  well_formed m →
  let r := shuffle_tags random_shuffle fixed m in
  outcome r = returned ∧
  changed_image_indices r
    = filter (λ row, 2 ≤ length (row_tags m row)) (seq 0 (length (images m))) ∧
  saved_paths (effects_since m (final r))
    = row_path m <$> changed_image_indices r ∧
  notifications (effects_since m (final r))
    = reported_range (changed_image_indices r).
Proof.
  intros Hwf r.
  destruct (bulk_edit_total "Shuffle Tags" (shuffle_body random_shuffle fixed) m
              (shuffle_body_total _ _) Hwf) as (Hout & _ & _ & _ & _ & Hchanged).
  destruct (bulk_edit_observed "Shuffle Tags"
              (shuffle_body random_shuffle fixed) m Hout) as (Hsaved & Hnote & _).
  split; [done|]. split; [|by split].
  unfold r, shuffle_tags. rewrite Hchanged. apply filter_ext_in.
  intros row _. apply shuffle_counted.
Qed.

Lemma shuffle_counts_images_with_two_tags_witness :
  let m := loaded ", " [("1.png", ["cat"; "dog"; "owl"]); ("2.png", ["bird"]);
                        ("3.png", ["cat"; "dog"])] in
  let r := shuffle_tags (λ _ l, l) true m in
  well_formed m ∧
  changed_image_indices r = [0; 2] ∧
  saved_paths (effects_since m (final r)) = ["1.png"; "3.png"] ∧
  notifications (effects_since m (final r)) = [(0, 2)].
Proof.
  intros m r.
  assert (Hwf : well_formed m) by apply loaded_well_formed.
  destruct (shuffle_counts_images_with_two_tags (λ _ l, l) true m Hwf)
    as (_ & H2 & H3 & H4).
  split; [exact Hwf|]. split; [exact H2|]. split; [exact H3|exact H4].
Defined.

(** C5.  The undo stack never holds more than 32 items, whatever the
    session; appending to a full stack drops the oldest item and keeps the
    32 newest; and after 33 operations that each took a snapshot, from any
    state a session has reached, 32 approved undos lead to the tag state
    the first operation left, which is the state just before the second
    operation. *)
Theorem undo_stack_keeps_the_newest_32 :
  (∀ sep records actions,
     length (undo_stack (session actions (loaded sep records))) ≤ 32) ∧
  (∀ (item : HistoryItem) stack,
     length stack = 32 → deque_append item stack = drop 1 stack ++ [item]) ∧
  (∀ sep records actions first rest reply,
     length rest = 32 →
     forallb takes_snapshot (first :: rest) = true →
     (∀ title question, reply title question = Yes) →
     tag_state (undo_times 32 reply
                  (perform_all (first :: rest)
                     (session actions (loaded sep records))))
     = tag_state (perform first (session actions (loaded sep records)))).
Proof.
  split; [|split].
  - intros sep records actions. apply session_undo_stack_bound. simpl. lia.
  - intros item stack Hlen. unfold deque_append.
    rewrite length_app, Hlen. simpl. unfold UNDO_STACK_SIZE.
    rewrite drop_app_le by lia. done.
  - intros sep records actions first rest reply Hlen Hall Hyes.
    apply (undo_after_overflow_anywhere _ first rest reply); try done.
    apply session_valid_live.
Qed.

Lemma undo_stack_keeps_the_newest_32_witness :
  let first := RenameTag "cat" "lynx" false all_images in
  let rest := replicate 16 (AddTags ["owl"] [1]) ++
              replicate 16 (SortTagsAlphabetically false) in
  length rest = 32 ∧
  forallb takes_snapshot (first :: rest) = true ∧
  tag_state (undo_times 32 approve (perform_all (first :: rest) two_images))
  = [["lynx"; "dog"]; ["bird"]].
Proof.
  intros first rest. split; [done|]. split; [done|].
  exact (proj2 (proj2 undo_stack_keeps_the_newest_32) ", "
           [("1.png", ["cat"; "dog"]); ("2.png", ["bird"])] [] first rest approve
           eq_refl eq_refl ltac:(done)).
Defined.

(** C6, as stated, fails: after two operations, two undos and one redo the
    redo stack still holds an item, and the last action that changed a
    stack was the redo, not an undo. *)
Lemma redo_stack_nonempty_after_redo :
  let actions := [edit (RenameTag "cat" "lynx" false all_images);
                  edit (AddTags ["owl"] [1]);
                  press_undo approve; press_undo approve; press_redo approve] in
  redo_stack (session actions two_images) ≠ [] ∧
  is_press_undo (last_history_action actions two_images None) = false.
Proof. split; [by vm_compute|by vm_compute]. Qed.

(** C6, amended.  [add_to_undo_stack] always leaves the redo stack empty,
    and so does every operation that takes a snapshot; hence, in any
    session from a loaded catalog, the redo stack holds an item only when
    the most recent action that changed a history stack was an undo or a
    redo. *)
Theorem snapshot_clears_redo_stack :
  (∀ name ask m, redo_stack (add_to_undo_stack name ask m) = []) ∧
  (∀ op m, takes_snapshot op = true → redo_stack (perform op m) = []) ∧
  (∀ sep records actions,
     redo_stack (session actions (loaded sep records)) ≠ [] →
     is_undo_or_redo
       (last_history_action actions (loaded sep records) None) = true).
Proof.
  split; [done|]. split.
  - intros op m Hs. by destruct (perform_stacks op m Hs) as (item & _ & ->).
  - intros sep records actions Hne.
    assert (Hinit : redo_stack (loaded sep records) = [] ∨
                    is_undo_or_redo None = true) by (left; reflexivity).
    destruct (redo_stack_invariant actions (loaded sep records) None Hinit)
      as [H|H]; [by destruct Hne|exact H].
Qed.

Lemma snapshot_clears_redo_stack_witness :
  let actions := [edit (RenameTag "cat" "lynx" false all_images);
                  press_undo approve] in
  takes_snapshot (AddTags ["owl"] [1]) = true ∧
  redo_stack (perform (AddTags ["owl"] [1]) (session actions two_images)) = [] ∧
  redo_stack (session actions two_images) ≠ [] ∧
  is_undo_or_redo (last_history_action actions two_images None) = true.
Proof.
  intros actions. split; [done|]. split; [|split].
  - exact (proj1 (proj2 snapshot_clears_redo_stack) (AddTags ["owl"] [1])
             (session actions two_images) eq_refl).
  - by vm_compute.
  - exact (proj2 (proj2 snapshot_clears_redo_stack) ", "
             [("1.png", ["cat"; "dog"]); ("2.png", ["bird"])] actions
             ltac:(by vm_compute)).
Defined.

(** C7.  When the item on top of the source stack asks for confirmation
    and the dialog's reply is not Yes, [undo()] and [redo()] return the
    model as it was: both stacks, every image's tags and the effect log (no
    write, no signal) are unchanged. *)
Theorem declined_confirmation_changes_nothing
    (is_undo : bool) reply m rest item :
  (if is_undo then undo_stack m else redo_stack m) = rest ++ [item] →
  should_ask_for_confirmation item = true →
  reply (undo_or_redo_string is_undo) (question is_undo item) ≠ Yes →
  restore_history_tags is_undo reply m = m.
Proof.
  intros Hstack Hask Hno. unfold restore_history_tags.
  rewrite Hstack, pop_snoc, Hask. simpl.
  by rewrite bool_decide_eq_false_2.
Qed.

Lemma declined_confirmation_changes_nothing_witness :
  let m := perform (RenameTag "cat" "lynx" false all_images) two_images in
  let item := mkHistoryItem "Rename Tag" [2; 3] true in
  undo_stack m = [] ++ [item] ∧
  should_ask_for_confirmation item = true ∧
  decline (undo_or_redo_string true) (question true item) ≠ Yes ∧
  undo decline m = m.
Proof.
  intros m item. split; [done|]. split; [done|]. split; [done|].
  exact (declined_confirmation_changes_nothing true decline m [] item
           eq_refl eq_refl ltac:(done)).
Defined.

(** C8.  A [write_text] that raises [OSError] is answered by an error box
    naming the image's path and changes nothing in memory.  Hence an
    operation, an undo or a redo run with any script of write failures ends
    with the same memory (tags, stacks), the same outcome and the same
    changed rows as the run in which every write succeeds, it attempts the
    same writes, and each failed write is followed at once by its error
    box: the image keeps its new tags and the batch goes on. *)
Theorem failed_write_is_reported_and_batch_continues :
  (∀ image m rest,
     os_errors m = true :: rest →
     let m' := write_image_tags_to_disk image m in
     memory m' = memory m ∧ os_errors m' = rest ∧
     effects_since m m'
     = [write_text (path image) (join (separator m) (tags_of m image)) false;
        error_message_box ("Failed to save tags for " +:+ path image +:+ ".")]) ∧
  (∀ op m errors,
     let failing := run op (with_os_errors errors m) in
     let clean := run op (with_os_errors [] m) in
     memory (final failing) = memory (final clean) ∧
     outcome failing = outcome clean ∧
     changed_image_indices failing = changed_image_indices clean ∧
     save_attempts (effects_since m (final failing))
       = save_attempts (effects_since m (final clean)) ∧
     failures_reported (effects_since m (final failing))) ∧
  (∀ is_undo reply m errors,
     let failing := restore_history_tags is_undo reply (with_os_errors errors m) in
     let clean := restore_history_tags is_undo reply (with_os_errors [] m) in
     memory failing = memory clean ∧
     save_attempts (effects_since m failing)
       = save_attempts (effects_since m clean) ∧
     failures_reported (effects_since m failing)).
Proof.
  split; [|split].
  - intros image m rest Herr m'. unfold m', write_image_tags_to_disk.
    rewrite Herr. simpl. split; [done|]. split; [done|].
    unfold effects_since. simpl. rewrite <- app_assoc. by rewrite drop_app_length.
  - intros op m errors failing clean.
    destruct (run_same_memory op (with_os_errors errors m) (with_os_errors [] m)
                eq_refl) as (H1 & H2 & H3 & H4 & H5).
    by repeat split.
  - intros is_undo reply m errors failing clean.
    by destruct (restore_history_tags_same_memory is_undo reply
                   (with_os_errors errors m) (with_os_errors [] m) eq_refl)
      as (H1 & H2 & H3).
Qed.

Lemma failed_write_is_reported_and_batch_continues_witness :
  let m := with_os_errors [true; false]
             (loaded ", " [("1.png", ["dog"; "cat"]); ("2.png", ["owl"; "bird"])]) in
  let image := mkImage "1.png" 0 in
  let r := run (SortTagsAlphabetically false) m in
  os_errors m = true :: [false] ∧
  effects (write_image_tags_to_disk image m)
  = [write_text "1.png" "dog, cat" false;
     error_message_box "Failed to save tags for 1.png."] ∧
  tag_state (write_image_tags_to_disk image m) = tag_state m ∧
  tag_state (final r) = [["cat"; "dog"]; ["bird"; "owl"]] ∧
  effects (final r)
  = [update_undo_and_redo_actions_requested;
     write_text "1.png" "cat, dog" false;
     error_message_box "Failed to save tags for 1.png.";
     write_text "2.png" "bird, owl" true;
     dataChanged 0 1].
Proof.
  intros m image r.
  destruct failed_write_is_reported_and_batch_continues as (H1 & H2 & _).
  destruct (H1 image m [false] eq_refl) as (Hmem & _ & Heff).
  split; [done|]. split; [exact Heff|]. split.
  - by apply tag_state_memory.
  - destruct (H2 (SortTagsAlphabetically false) m [true; false])
      as (Hm & _). split; [|by vm_compute].
    exact (tag_state_memory _ _ Hm).
Defined.

(** C9.  With an empty find text [find_and_replace] returns the model as
    it was: no snapshot, no tag changed, no write, no signal.  Otherwise
    (the separator not being empty, so that [split] is defined) every
    image in scope whose joined caption contains the find text gets the
    tags obtained by replacing the text in the caption and splitting the
    result on the separator, and every other image keeps its tags.  On
    tags [a cat, catfish] with separator [", "], replacing [cat] by [dog]
    gives [a dog, dogfish]; an occurrence may span two tags. *)
Theorem find_and_replace_rewrites_matching_captions :
  (∀ replace_text only visible m,
     find_and_replace EmptyString replace_text only visible m
     = mkRun m [] 0 returned) ∧
  (∀ find_text replace_text only visible m,
     find_text ≠ EmptyString → separator m ≠ EmptyString → well_formed m →
     let r := find_and_replace find_text replace_text only visible m in
     outcome r = returned ∧
     ∀ row, row < length (images m) →
       Some (row_tags (final r) row)
       = if negb (filtered_out only visible (row_path m row) (row_tags m row))
            && contains find_text (row_caption m row)
         then split (separator m)
                    (replace find_text replace_text (row_caption m row))
         else Some (row_tags m row)) ∧
  tag_state (final (find_and_replace "cat" "dog" false all_images
                      (loaded ", " [("1.png", ["a cat"; "catfish"])])))
  = [["a dog"; "dogfish"]] ∧
  tag_state (final (find_and_replace "t, c" "t-c" false all_images
                      (loaded ", " [("1.png", ["a cat"; "catfish"])])))
  = [["a cat-catfish"]].
Proof.
  split; [done|]. split; [|by vm_compute].
  intros find_text replace_text only visible m Hfind Hsep Hwf r.
  unfold r, find_and_replace.
  destruct find_text as [|c find_rest]; [done|]. simpl negb. cbv iota.
  set (find_text := String c find_rest).
  destruct (bulk_edit_total "Find and Replace"
              (find_and_replace_body (separator m) find_text replace_text
                 only visible) m
              (find_and_replace_body_total _ _ _ _ _ Hsep) Hwf)
    as (Hout & _ & _ & _ & Hrows & _).
  split; [done|]. intros row Hrow. rewrite (Hrows row Hrow).
  unfold visit_at, visit_of, find_and_replace_body, skip, row_caption.
  destruct (filtered_out only visible (row_path m row) (row_tags m row));
    [done|]. simpl negb. cbv iota. simpl andb.
  destruct (contains find_text (join (separator m) (row_tags m row)));
    [|done]. simpl.
  unfold split. by destruct (separator m).
Qed.

Lemma find_and_replace_rewrites_matching_captions_witness :
  let m := loaded ", " [("1.png", ["a cat"; "catfish"]); ("2.png", ["bird"])] in
  let r := find_and_replace "cat" "dog" false all_images m in
  "cat" ≠ EmptyString ∧ separator m ≠ EmptyString ∧ well_formed m ∧
  outcome r = returned ∧
  Some (row_tags (final r) 0) = Some ["a dog"; "dogfish"] ∧
  Some (row_tags (final r) 1) = Some ["bird"].
Proof.
  intros m r.
  assert (Hwf : well_formed m) by apply loaded_well_formed.
  destruct (proj1 (proj2 find_and_replace_rewrites_matching_captions)
              "cat" "dog" false all_images m ltac:(done) ltac:(done) Hwf)
    as [Hout Hrows].
  split; [done|]. split; [done|]. split; [exact Hwf|]. split; [exact Hout|].
  split; [exact (Hrows 0 ltac:(simpl; lia))|exact (Hrows 1 ltac:(simpl; lia))].
Defined.

(** C10.  [add_tags] with no target image raises [ValueError] (the minimum
    of an empty sequence), after it has pushed a snapshot onto the undo
    stack and cleared the redo stack; no [dataChanged] is emitted and no
    image's tags change. *)
Theorem add_tags_without_targets_raises new_tags m :
  valid_live m →
  let name := if length new_tags =? 1 then "Add Tag" else "Add Tags" in
  let m' := (add_tags new_tags [] m).1 in
  (add_tags new_tags [] m).2 = raised ValueError ∧
  m' = add_to_undo_stack name false m ∧
  (∃ item, undo_stack m' = deque_append item (undo_stack m) ∧
           snapshot m' item = tag_state m) ∧
  redo_stack m' = [] ∧
  notifications (effects_since m m') = [] ∧
  tag_state m' = tag_state m.
Proof.
  intros Hv name m'. unfold m', add_tags. simpl. fold name.
  repeat split.
  - eexists. split; [done|]. unfold snapshot. simpl. apply deref_fresh.
  - unfold effects_since. simpl. by rewrite drop_app_length.
  - by apply add_to_undo_stack_tag_state.
Qed.

Lemma add_tags_without_targets_raises_witness :
  valid_live two_images ∧
  (add_tags ["owl"] [] two_images).2 = raised ValueError ∧
  length (undo_stack (add_tags ["owl"] [] two_images).1) = 1 ∧
  tag_state (add_tags ["owl"] [] two_images).1 = tag_state two_images.
Proof.
  assert (Hv : valid_live two_images) by apply loaded_well_formed.
  pose proof (add_tags_without_targets_raises ["owl"] two_images Hv) as H.
  simpl in H. destruct H as (H1 & _ & _ & _ & _ & H6).
  split; [exact Hv|]. split; [exact H1|]. split; [done|exact H6].
Defined.

(** * Further properties of the code *)

(** X1.  No operation, undo, redo or direct edit adds, removes, reorders or
    renames an image: after any session [rowCount] and the images' paths,
    row by row, are what they were. *)
Theorem session_keeps_rows_and_paths actions m :
  rowCount (session actions m) = rowCount m ∧
  path <$> images (session actions m) = path <$> images m.
Proof.
  pose proof (session_paths actions m) as H. split; [|done].
  unfold rowCount. by rewrite <- (length_fmap path), H, length_fmap.
Qed.

(** X2.  In any session from a loaded catalog the undo stack and the redo
    stack together never hold more than 32 items.  Hence the redo stack,
    a plain list, never grows past 32, and a [redo()] that goes through
    appends its item to the undo stack without the deque discarding the
    oldest one. *)
Theorem stacks_together_hold_at_most_32 sep records actions :
  let m := session actions (loaded sep records) in
  length (undo_stack m) + length (redo_stack m) ≤ 32 ∧
  ∀ reply,
    redo reply m = m ∨
    ∃ item, undo_stack (redo reply m) = undo_stack m ++ [item].
Proof.
  intros m.
  assert (Hb : length (undo_stack m) + length (redo_stack m) ≤ UNDO_STACK_SIZE).
  { apply session_stacks_bound. simpl. unfold UNDO_STACK_SIZE. lia. }
  split; [exact Hb|]. intros reply. unfold redo.
  destruct (restore_history_tags_stacks false reply m)
    as [->|(rest & item & current & Hst & -> & _)]; [by left|].
  right. exists current. apply deque_append_room.
  rewrite Hst, length_app in Hb. simpl in Hb. lia.
Qed.

(** X3.  On a freshly loaded catalog, after any sequence of bulk
    operations the undo stack holds, oldest first, the tag states the
    catalog had just before each of the last 32 operations that took a
    snapshot: what [add_to_undo_stack] stored is not reached by the later
    edits, in place or not. *)
Theorem operations_record_the_states_before_them sep records ops :
  history (perform_all ops (loaded sep records))
  = newest (trail ops (loaded sep records)).
Proof.
  destruct (perform_all_history ops (loaded sep records)
              (loaded_copied_history sep records)) as [_ H].
  exact H.
Qed.

(** X4.  [add_tags] asks for confirmation on undo only when it had more
    than one target.  With one target the undo restores the tags whatever
    the dialog would answer (it is not shown); with two or more, an undo
    whose dialog is not answered Yes changes nothing. *)
Theorem add_tags_is_confirmed_only_for_several_images sep records actions new_tags :
  let m := session actions (loaded sep records) in
  (∀ row (reply : string → string → StandardButton),
     tag_state (undo reply (perform (AddTags new_tags [row]) m)) = tag_state m) ∧
  (∀ row1 row2 others (reply : string → string → StandardButton),
     let m' := perform (AddTags new_tags (row1 :: row2 :: others)) m in
     (∀ title question, reply title question ≠ Yes) →
     undo reply m' = m').
Proof.
  intros m. split.
  - intros row reply.
    set (op := AddTags new_tags [row]).
    destruct (run_undo_stack op m eq_refl) as [Hu _].
    destruct (deque_append_last (snapshot_item op m) (undo_stack m)) as [front Hf].
    rewrite Hf in Hu. unfold undo.
    rewrite (restore_history_tags_no_question true reply approve _ front _ Hu eq_refl).
    apply (undo_after_operations_anywhere m [op] approve);
      [apply session_valid_live|simpl; unfold UNDO_STACK_SIZE; lia|done|done].
  - intros row1 row2 others reply m' Hno.
    set (op := AddTags new_tags (row1 :: row2 :: others)).
    destruct (run_undo_stack op m eq_refl) as [Hu _].
    destruct (deque_append_last (snapshot_item op m) (undo_stack m)) as [front Hf].
    rewrite Hf in Hu.
    apply (restore_history_tags_declined true reply _ front _ Hu); [done|apply Hno].
Qed.

Lemma add_tags_is_confirmed_only_for_several_images_witness :
  let one := perform (AddTags ["owl"] [1]) two_images in
  let two := perform (AddTags ["owl"] [0; 1]) two_images in
  (∀ title question, decline title question ≠ Yes) ∧
  tag_state one = [["cat"; "dog"]; ["bird"; "owl"]] ∧
  tag_state (undo decline one) = [["cat"; "dog"]; ["bird"]] ∧
  undo decline two = two.
Proof.
  intros one two.
  destruct (add_tags_is_confirmed_only_for_several_images ", "
              [("1.png", ["cat"; "dog"]); ("2.png", ["bird"])] [] ["owl"])
    as [H1 H2].
  split; [done|]. split; [by vm_compute|].
  split; [exact (H1 1 decline)|exact (H2 0 1 [] decline ltac:(done))].
Defined.

(** X5.  Undo and redo undo each other.  In any session from a loaded
    catalog, with the dialogs approved: after [undo()] then [redo()] every
    image has the tags it had, the undo stack holds the same actions with
    the same tag states, and the redo stack is as it was; and after
    [redo()] then [undo()] likewise, with the stacks' roles exchanged. *)
Theorem undo_and_redo_are_inverse sep records actions reply :
  (∀ title question, reply title question = Yes) →
  let m := session actions (loaded sep records) in
  (undo_stack m ≠ [] →
   let m' := redo reply (undo reply m) in
   tag_state m' = tag_state m ∧ history m' = history m ∧
   action_name <$> undo_stack m' = action_name <$> undo_stack m ∧
   redo_stack m' = redo_stack m) ∧
  (redo_stack m ≠ [] →
   let m' := undo reply (redo reply m) in
   tag_state m' = tag_state m ∧ undo_stack m' = undo_stack m ∧
   snapshot m' <$> redo_stack m' = snapshot m <$> redo_stack m ∧
   action_name <$> redo_stack m' = action_name <$> redo_stack m).
Proof.
  intros Hyes m.
  assert (Hc : complete_items m)
    by apply session_complete_items, loaded_complete_items.
  assert (Hb : length (undo_stack m) + length (redo_stack m) ≤ UNDO_STACK_SIZE).
  { apply session_stacks_bound. simpl. unfold UNDO_STACK_SIZE. lia. }
  apply Forall_app in Hc as [Hcu Hcr].
  split.
  - intros Hne. destruct (snoc_of_nonempty _ Hne) as (front & item & Hst).
    assert (Hlen : length (history_tags item) = length (images m)).
    { rewrite Hst in Hcu. apply Forall_app in Hcu as [_ Hi].
      by apply Forall_inv in Hi. }
    destruct (undo_then_redo reply m front item Hyes Hst Hlen ltac:(lia))
      as (H1 & _ & H2 & H3 & H4).
    split; [done|]. split; [done|]. split; [|done].
    apply (f_equal (fmap fst)) in H4. by rewrite <- !list_fmap_compose in H4.
  - intros Hne. destruct (snoc_of_nonempty _ Hne) as (rest & item & Hst).
    assert (Hlen : length (history_tags item) = length (images m)).
    { rewrite Hst in Hcr. apply Forall_app in Hcr as [_ Hi].
      by apply Forall_inv in Hi. }
    destruct (redo_then_undo reply m rest item Hyes Hst Hlen Hb)
      as (H1 & _ & H2 & H3 & H4).
    split; [done|]. split; [done|]. split; [done|].
    apply (f_equal (fmap fst)) in H4. by rewrite <- !list_fmap_compose in H4.
Qed.

Lemma undo_and_redo_are_inverse_witness :
  let actions := [edit (RenameTag "cat" "lynx" false all_images);
                  edit (AddTags ["owl"] [1]); press_undo approve] in
  let m := session actions two_images in
  (∀ title question, approve title question = Yes) ∧
  undo_stack m ≠ [] ∧ redo_stack m ≠ [] ∧
  tag_state m = [["lynx"; "dog"]; ["bird"]] ∧
  tag_state (redo approve (undo approve m)) = tag_state m ∧
  tag_state (undo approve (redo approve m)) = tag_state m.
Proof.
  intros actions m.
  destruct (undo_and_redo_are_inverse ", "
              [("1.png", ["cat"; "dog"]); ("2.png", ["bird"])] actions approve
              ltac:(done)) as [H1 H2].
  split; [done|]. split; [by vm_compute|]. split; [by vm_compute|].
  split; [by vm_compute|]. split.
  - exact (proj1 (H1 ltac:(by vm_compute))).
  - exact (proj1 (H2 ltac:(by vm_compute))).
Defined.

(** X6.  An undo or a redo that goes through writes to disk exactly the
    images whose tags it changes, in row order, each with the caption of
    its restored tags; it emits [dataChanged] from the first to the last
    of them, or not at all when no image differs; and it ends by emitting
    [update_undo_and_redo_actions_requested]. *)
Theorem restore_writes_the_images_it_changes (is_undo : bool) reply m rest item :
  (if is_undo then undo_stack m else redo_stack m) = rest ++ [item] →
  (∀ title question, reply title question = Yes) →
  length (history_tags item) = length (images m) →
  let m' := restore_history_tags is_undo reply m in
  let differing := filter (λ j, row_tags m j ≠ row_tags m' j)
                          (seq 0 (length (images m))) in
  save_attempts (effects_since m m')
    = (λ j, (row_path m j, row_caption m' j)) <$> differing ∧
  notifications (effects_since m m') = reported_range differing ∧
  list.last (effects m') = Some update_undo_and_redo_actions_requested.
Proof.
  intros Hst Hyes Hlen m' differing.
  pose proof (restore_history_tags_tag_state is_undo reply m rest item Hst
                (or_intror (Hyes _ _)) Hlen) as Hts.
  destruct (restore_history_tags_spec is_undo reply m rest item Hst
              (or_intror (Hyes _ _))) as (_ & Hsep & _).
  fold m' in Hts, Hsep. cbv zeta in Hsep.
  assert (Hrow : ∀ j, j < length (images m) →
            deref (heap m) <$> history_tags item !! j = Some (row_tags m' j)).
  { intros j Hj. unfold row_tags. rewrite Hts. unfold snapshot.
    rewrite list_lookup_fmap.
    destruct (lookup_lt_is_Some_2 (history_tags item) j) as [l ->]; [lia|done]. }
  revert Hts Hsep Hrow. unfold differing. clear differing. unfold m'. clear m'.
  unfold restore_history_tags. rewrite Hst, pop_snoc, Hyes. simpl negb.
  rewrite andb_false_r.
  match goal with |- context [restore_rows 0 ?h ?x []] =>
    set (m1 := x);
    pose proof (restore_rows_log h 0 m1 []) as Hlog;
    destruct (restore_rows 0 h m1 []) as [m2 changed] end.
  cbv zeta in Hlog. simpl fst in Hlog. simpl snd in Hlog.
  destruct Hlog as (Hc & attempts & He & Ha).
  assert (H1 : heap m1 = heap m ∧ images m1 = images m ∧ separator m1 = separator m
               ∧ effects m1 = effects m)
    by (unfold m1; by destruct is_undo).
  destruct H1 as (H1h & H1i & H1s & H1e).
  assert (Hts1 : tag_state m1 = tag_state m).
  { unfold tag_state, tags_of. by rewrite H1h, H1i. }
  rewrite H1h, H1i, H1s, H1e, Hts1, Hlen in *.
  replace (length (images m) `min` (length (images m) - 0))
    with (length (images m)) in * by lia.
  set (m' := emit _ _). intros Hts Hsep Hrow.
  set (differing := filter (λ j, row_tags m j ≠ row_tags m' j)
                           (seq 0 (length (images m)))).
  assert (Hd : changed = differing).
  { rewrite Hc. simpl. apply filter_ext_in. intros j Hj%elem_of_seq.
    replace (j - 0) with j by lia.
    rewrite Hrow, row_tags_Some by lia. split; intros H; congruence. }
  assert (Heff : effects m'
                 = effects m ++ save_log attempts
                   ++ ((λ r, dataChanged r.1 r.2) <$> reported_range changed)
                   ++ [update_undo_and_redo_actions_requested]).
  { unfold m'. simpl. rewrite notifications_notify_changed, He.
    by rewrite <- !app_assoc. }
  rewrite (effects_since_app _ _ _ Heff).
  split; [|split].
  - rewrite !save_attempts_app, save_attempts_save_log, save_attempts_reported.
    simpl. rewrite app_nil_r, Ha, <- Hd, Hc. simpl.
    apply list_fmap_ext. intros i j Hj. simpl.
    apply list_elem_of_lookup_2, list_elem_of_filter in Hj as [_ Hj%elem_of_seq].
    replace (j - 0) with j by lia. rewrite Hrow by lia. simpl.
    rewrite (row_path_ext m m1 j) by (by rewrite H1i).
    unfold row_caption. by rewrite Hsep.
  - rewrite !notifications_app, notifications_save_log, notifications_reported.
    simpl. by rewrite app_nil_r, Hd.
  - rewrite Heff, !app_assoc. apply last_snoc.
Qed.

Lemma restore_writes_the_images_it_changes_witness :
  let m := perform (RenameTag "cat" "lynx" false all_images) two_images in
  let item := mkHistoryItem "Rename Tag" [2; 3] true in
  undo_stack m = [] ++ [item] ∧
  (∀ title question, approve title question = Yes) ∧
  length (history_tags item) = length (images m) ∧
  save_attempts (effects_since m (undo approve m)) = [("1.png", "cat, dog")] ∧
  notifications (effects_since m (undo approve m)) = [(0, 0)].
Proof.
  intros m item.
  destruct (restore_writes_the_images_it_changes true approve m [] item
              eq_refl ltac:(done) eq_refl) as (H1 & H2 & _).
  split; [done|]. split; [done|]. split; [done|]. split; [exact H1|exact H2].
Defined.

(** X7.  [update_image_tags] records nothing in the history: it leaves
    both stacks as they are.  So the undo after an operation followed by
    any number of direct edits restores the tags the operation found,
    and the direct edits are lost with the operation. *)
Theorem direct_edits_are_not_recorded sep records actions op edits reply :
  takes_snapshot op = true →
  (∀ title question, reply title question = Yes) →
  let m := session actions (loaded sep records) in
  let edited := update_all edits (perform op m) in
  undo_stack edited = undo_stack (perform op m) ∧
  redo_stack edited = redo_stack (perform op m) ∧
  tag_state (undo reply edited) = tag_state m.
Proof.
  intros Hs Hyes m edited.
  pose proof (update_all_kept (λ _, False) edits (perform op m)
                (no_locs_apart _)) as Hk0.
  split; [exact (kept_undo _ _ _ Hk0)|]. split; [exact (kept_redo _ _ _ Hk0)|].
  destruct (snapshot_item_kept op m edited (session_valid_live _ _ _) Hs)
    as (Hsnap & Hu & Hlen).
  { intros P. apply update_all_kept. }
  destruct (deque_append_last (snapshot_item op m) (undo_stack m)) as [front Hf].
  rewrite Hf in Hu. unfold undo.
  rewrite (restore_history_tags_tag_state true reply edited front _ Hu
             (or_intror (Hyes _ _))); [done|].
  simpl. by rewrite length_seq, length_tag_state.
Qed.

Lemma direct_edits_are_not_recorded_witness :
  let op := RenameTag "cat" "lynx" false all_images in
  let edits := [(1, ["owl"]); (0, ["lynx"; "dog"; "emu"])] in
  takes_snapshot op = true ∧
  (∀ title question, approve title question = Yes) ∧
  tag_state (update_all edits (perform op two_images))
  = [["lynx"; "dog"; "emu"]; ["owl"]] ∧
  tag_state (undo approve (update_all edits (perform op two_images)))
  = [["cat"; "dog"]; ["bird"]].
Proof.
  intros op edits. split; [done|]. split; [done|]. split; [by vm_compute|].
  exact (proj2 (proj2 (direct_edits_are_not_recorded ", "
           [("1.png", ["cat"; "dog"]); ("2.png", ["bird"])] [] op edits approve
           eq_refl ltac:(done)))).
Defined.

(** X8.  The match count tells whether there is anything to change.
    Counted within captions, it is zero exactly when [find_and_replace]
    for the same text and scope changes no image; counted over whole tags,
    exactly when [rename_tag], and when [delete_tag], for that tag and
    scope changes no image. *)
Theorem match_count_is_zero_iff_nothing_changes text new_text only visible m :
  well_formed m → separator m ≠ EmptyString → text ≠ EmptyString →
  (get_text_match_count text only visible false m = 0
   ↔ changed_image_indices (find_and_replace text new_text only visible m) = []) ∧
  (get_text_match_count text only visible true m = 0
   ↔ changed_image_indices (rename_tag text new_text only visible m) = []) ∧
  (get_text_match_count text only visible true m = 0
   ↔ changed_image_indices (delete_tag text only visible m) = []).
Proof.
  intros Hwf Hsep Htext. split; [|split].
  - unfold find_and_replace. destruct text as [|c t]; [done|]. simpl negb. cbv iota.
    rewrite bulk_edit_changes_nothing
      by (done || by apply find_and_replace_body_total).
    rewrite get_text_match_count_zero.
    apply forall_proper. intros row. apply forall_proper. intros Hrow.
    rewrite matches_in_zero. symmetry. apply not_counted_iff.
    unfold visit_at. rewrite find_and_replace_counted by done.
    apply and_iff_compat_l. rewrite str_count_zero by done.
    by destruct (contains _ _).
  - unfold rename_tag.
    rewrite bulk_edit_changes_nothing by (done || apply rename_body_total).
    rewrite get_text_match_count_zero.
    apply forall_proper. intros row. apply forall_proper. intros Hrow.
    rewrite matches_in_zero. symmetry. apply not_counted_iff.
    unfold visit_at. by rewrite rename_counted.
  - unfold delete_tag.
    rewrite bulk_edit_changes_nothing by (done || apply delete_body_total).
    rewrite get_text_match_count_zero.
    apply forall_proper. intros row. apply forall_proper. intros Hrow.
    rewrite matches_in_zero. symmetry. apply not_counted_iff.
    unfold visit_at. by rewrite delete_counted.
Qed.

Lemma match_count_is_zero_iff_nothing_changes_witness :
  let m := loaded ", " [("1.png", ["a cat"; "catfish"]); ("2.png", ["bird"])] in
  well_formed m ∧ separator m ≠ EmptyString ∧ "cat" ≠ EmptyString ∧
  get_text_match_count "cat" false all_images false m = 2 ∧
  get_text_match_count "cat" false all_images true m = 0 ∧
  changed_image_indices (rename_tag "cat" "dog" false all_images m) = [].
Proof.
  intros m.
  assert (Hwf : well_formed m) by apply loaded_well_formed.
  destruct (match_count_is_zero_iff_nothing_changes "cat" "dog" false all_images m
              Hwf ltac:(done) ltac:(done)) as (_ & H2 & _).
  split; [exact Hwf|]. split; [done|]. split; [done|]. split; [by vm_compute|].
  split; [by vm_compute|]. apply H2. by vm_compute.
Defined.

(** X9.  [rename_tag] gives every image in scope its tags with each
    occurrence of the old tag replaced, where it stands, by the new one, and
    leaves the images outside the filter as they are.  Run on all images
    with two different tags, it leaves no whole-tag match of the old tag,
    and the matches of the new tag are those both tags had before. *)
Theorem rename_tag_moves_every_occurrence old_tag new_tag only visible m :
  well_formed m →
  let r := rename_tag old_tag new_tag only visible m in
  outcome r = returned ∧
  (∀ row, row < length (images m) →
     row_tags (final r) row
     = if filtered_out only visible (row_path m row) (row_tags m row)
       then row_tags m row
       else (λ t, if decide (t = old_tag) then new_tag else t) <$> row_tags m row) ∧
  (only = false → old_tag ≠ new_tag → ∀ visible',
     get_text_match_count old_tag false visible' true (final r) = 0 ∧
     get_text_match_count new_tag false visible' true (final r)
     = get_text_match_count new_tag false visible' true m
       + get_text_match_count old_tag false visible' true m).
Proof.
  intros Hwf r.
  destruct (bulk_edit_total "Rename Tag" (rename_body old_tag new_tag only visible) m
              (rename_body_total _ _ _ _) Hwf) as (Hout & _ & _ & Hpaths & Hrows & _).
  fold (rename_tag old_tag new_tag only visible m) in Hout, Hpaths, Hrows. fold r in Hout, Hpaths, Hrows.
  assert (Hres : ∀ row, row < length (images m) →
     row_tags (final r) row
     = if filtered_out only visible (row_path m row) (row_tags m row)
       then row_tags m row
       else (λ t, if decide (t = old_tag) then new_tag else t) <$> row_tags m row).
  { intros row Hrow. rewrite (Hrows row Hrow). apply rename_row. }
  split; [done|]. split; [done|].
  intros -> Hne visible'. rewrite !whole_tag_count.
  rewrite (length_images_paths _ _ Hpaths).
  split.
  - apply sum_list_zero. intros row Hrow%elem_of_seq.
    rewrite Hres by lia. simpl. rewrite list_count_renamed by done.
    by rewrite decide_True.
  - rewrite <- sum_list_add. apply sum_list_ext. intros row Hrow%elem_of_seq.
    rewrite Hres by lia. simpl. rewrite list_count_renamed by done.
    rewrite decide_False by done. by rewrite decide_True.
Qed.

Lemma rename_tag_moves_every_occurrence_witness :
  let m := loaded ", " [("1.png", ["cat"; "dog"; "cat"]); ("2.png", ["lynx"])] in
  let r := rename_tag "cat" "lynx" false all_images m in
  well_formed m ∧
  row_tags (final r) 0 = ["lynx"; "dog"; "lynx"] ∧
  get_text_match_count "cat" false all_images true (final r) = 0 ∧
  get_text_match_count "lynx" false all_images true (final r) = 1 + 2.
Proof.
  intros m r.
  assert (Hwf : well_formed m) by apply loaded_well_formed.
  destruct (rename_tag_moves_every_occurrence "cat" "lynx" false all_images m Hwf)
    as (_ & H1 & H2).
  destruct (H2 eq_refl ltac:(done) all_images) as [H3 H4].
  split; [exact Hwf|]. split; [exact (H1 0 ltac:(simpl; lia))|].
  split; [exact H3|exact H4].
Defined.

(** X10.  [delete_tag] gives every image in scope its tags without the
    deleted tag, the others in their order, and leaves the images outside
    the filter as they are.  Run on all images, it leaves no whole-tag
    match of the deleted tag and changes the match count of no other
    tag. *)
Theorem delete_tag_removes_every_occurrence tag only visible m :
  well_formed m →
  let r := delete_tag tag only visible m in
  outcome r = returned ∧
  (∀ row, row < length (images m) →
     row_tags (final r) row
     = if filtered_out only visible (row_path m row) (row_tags m row)
       then row_tags m row
       else filter (λ t, t ≠ tag) (row_tags m row)) ∧
  (only = false → ∀ text visible',
     get_text_match_count text false visible' true (final r)
     = if decide (text = tag) then 0
       else get_text_match_count text false visible' true m).
Proof.
  intros Hwf r.
  destruct (bulk_edit_total "Delete Tag" (delete_body tag only visible) m
              (delete_body_total _ _ _) Hwf) as (Hout & _ & _ & Hpaths & Hrows & _).
  fold (delete_tag tag only visible m) in Hout, Hpaths, Hrows. fold r in Hout, Hpaths, Hrows.
  assert (Hres : ∀ row, row < length (images m) →
     row_tags (final r) row
     = if filtered_out only visible (row_path m row) (row_tags m row)
       then row_tags m row
       else filter (λ t, t ≠ tag) (row_tags m row)).
  { intros row Hrow. rewrite (Hrows row Hrow). apply delete_row. }
  split; [done|]. split; [done|].
  intros -> text visible'. rewrite !whole_tag_count.
  rewrite (length_images_paths _ _ Hpaths).
  case_decide as Htext.
  - apply sum_list_zero. intros row Hrow%elem_of_seq.
    rewrite Hres by lia. simpl. rewrite list_count_deleted.
    by rewrite decide_True.
  - apply sum_list_ext. intros row Hrow%elem_of_seq.
    rewrite Hres by lia. simpl. rewrite list_count_deleted.
    by rewrite decide_False.
Qed.

Lemma delete_tag_removes_every_occurrence_witness :
  let m := loaded ", " [("1.png", ["cat"; "dog"; "cat"]); ("2.png", ["lynx"])] in
  let r := delete_tag "cat" false all_images m in
  well_formed m ∧
  row_tags (final r) 0 = ["dog"] ∧
  get_text_match_count "cat" false all_images true (final r) = 0.
Proof.
  intros m r.
  assert (Hwf : well_formed m) by apply loaded_well_formed.
  destruct (delete_tag_removes_every_occurrence "cat" false all_images m Hwf)
    as (_ & H1 & H2).
  split; [exact Hwf|]. split; [exact (H1 0 ltac:(simpl; lia))|].
  exact (H2 eq_refl "cat" all_images).
Defined.

(** X11.  The caption [write_image_tags_to_disk] builds, the tags joined
    by the separator, is read back by [load_directory]'s split, strip and
    filter as the tags stripped, without the blank ones, when no tag holds
    the character the separator starts with; so tags that are neither
    blank nor padded with white space come back exactly.  The statement
    is about the caption as a string: the file between the two, with its
    encoding and the newline translation of [read_text], is not part of
    the model. *)
Theorem written_caption_loads_back c sep' tags :
  Forall (λ t, contains (String c EmptyString) t = false) tags →
  load_directory_tags (String c sep') (join (String c sep') tags)
  = Some (filter (λ tag, truthy tag = true) (strip <$> tags)) ∧
  (Forall (λ t, strip t = t ∧ t ≠ EmptyString) tags →
   load_directory_tags (String c sep') (join (String c sep') tags) = Some tags).
Proof.
  intros Habs.
  assert (Hload : load_directory_tags (String c sep') (join (String c sep') tags)
                  = Some (filter (λ tag, truthy tag = true) (strip <$> tags))).
  { unfold load_directory_tags.
    destruct (truthy (join (String c sep') tags)) eqn:Ht.
    - destruct tags as [|t tags]; [done|]. by rewrite split_join.
    - assert (He : join (String c sep') tags = EmptyString)
        by (by destruct (join _ _)).
      destruct (join_empty (String c sep') tags ltac:(done) He) as [-> | ->];
        [done|by vm_compute]. }
  split; [exact Hload|]. intros Hclean. rewrite Hload. f_equal.
  clear Hload Habs. induction tags as [|t tags IH]; [done|].
  inversion Hclean as [|? ? [Hs Hne] Hrest]; subst.
  rewrite fmap_cons, Hs, filter_cons, decide_True by (by destruct t).
  f_equal. by apply IH.
Qed.

Lemma written_caption_loads_back_witness :
  let c := ","%char in
  let tags := ["a cat"; " dog "; " "; "owl"] in
  Forall (λ t, contains (String c EmptyString) t = false) tags ∧
  join ", " tags = "a cat,  dog ,  , owl" ∧
  load_directory_tags ", " (join ", " tags) = Some ["a cat"; "dog"; "owl"].
Proof.
  intros c tags.
  assert (Habs : Forall (λ t, contains (String c EmptyString) t = false) tags).
  { unfold tags. repeat constructor. }
  split; [exact Habs|]. split; [done|].
  exact (proj1 (written_caption_loads_back c " " tags Habs)).
Defined.

(** X12.  After [sort_tags_alphabetically] every image has the tags it
    had, in ascending order of their characters; with the first tag kept,
    the first tag stays in front and the tags after it are in ascending
    order. *)
Theorem sort_tags_alphabetically_orders_the_tags (fixed : bool) m :
  well_formed m →
  let r := sort_tags_alphabetically fixed m in
  let sorted_part := λ ts : list string, if fixed then tail ts else ts in
  outcome r = returned ∧
  ∀ row, row < length (images m) →
    row_tags (final r) row ≡ₚ row_tags m row ∧
    (fixed = true → head (row_tags (final r) row) = head (row_tags m row)) ∧
    StronglySorted String.le (sorted_part (row_tags (final r) row)).
Proof.
  intros Hwf r sorted_part.
  destruct (bulk_edit_total "Sort Tags" (sort_body (separator m) sorted fixed) m
              (sort_body_total _ _ _) Hwf) as (Hout & _ & _ & _ & Hrows & _).
  split; [exact Hout|]. intros row Hrow. unfold r, sort_tags_alphabetically.
  rewrite (Hrows row Hrow). unfold visit_at. rewrite sort_row.
  set (ts := row_tags m row). unfold sorted_part.
  destruct (length ts <? 2) eqn:Hshort.
  { destruct (short_list ts Hshort) as [->|[x ->]];
      (split; [done|]; split; [done|]); destruct fixed; repeat constructor. }
  destruct fixed, ts as [|first_tag others]; cbn [tail head].
  - done.
  - split; [by rewrite (sort_by_perm String.leb others)|]. split; [done|].
    apply sorted_order.
  - split; [done|]. split; [done|]. constructor.
  - split; [apply (sort_by_perm String.leb)|]. split; [done|]. apply sorted_order.
Qed.

Lemma sort_tags_alphabetically_orders_the_tags_witness :
  let m := loaded ", " [("1.png", ["owl"; "dog"; "cat"]); ("2.png", ["bird"])] in
  well_formed m ∧
  row_tags (final (sort_tags_alphabetically true m)) 0 = ["owl"; "cat"; "dog"] ∧
  StronglySorted String.le (tail (row_tags (final (sort_tags_alphabetically true m)) 0)).
Proof.
  intros m.
  assert (Hwf : well_formed m) by apply loaded_well_formed.
  destruct (sort_tags_alphabetically_orders_the_tags true m Hwf) as [_ H].
  destruct (H 0 ltac:(simpl; lia)) as (_ & _ & H3).
  split; [exact Hwf|]. split; [by vm_compute|exact H3].
Defined.

(** X13.  After [sort_tags_by_frequency] every image has the tags it had,
    in descending order of their count in [tag_counter], and tags with
    the same count are in the order they had; with the first tag kept,
    the first tag stays in front and this holds of the tags after it. *)
Theorem sort_tags_by_frequency_orders_the_tags tag_counter (fixed : bool) m :
  well_formed m →
  let r := sort_tags_by_frequency tag_counter fixed m in
  let sorted_part := λ ts : list string, if fixed then tail ts else ts in
  outcome r = returned ∧
  ∀ row, row < length (images m) →
    row_tags (final r) row ≡ₚ row_tags m row ∧
    (fixed = true → head (row_tags (final r) row) = head (row_tags m row)) ∧
    StronglySorted (λ a b, tag_counter b ≤ tag_counter a)
                   (sorted_part (row_tags (final r) row)) ∧
    ∀ k, filter (λ t, tag_counter t = k) (sorted_part (row_tags (final r) row))
         = filter (λ t, tag_counter t = k) (sorted_part (row_tags m row)).
Proof.
  intros Hwf r sorted_part.
  destruct (bulk_edit_total "Sort Tags"
              (sort_body (separator m) (sorted_by_count tag_counter) fixed) m
              (sort_body_total _ _ _) Hwf) as (Hout & _ & _ & _ & Hrows & _).
  split; [exact Hout|]. intros row Hrow. unfold r, sort_tags_by_frequency.
  rewrite (Hrows row Hrow). unfold visit_at. rewrite sort_row.
  set (ts := row_tags m row). unfold sorted_part.
  assert (Hstable : ∀ k l,
            filter (λ t, tag_counter t = k) (sorted_by_count tag_counter l)
            = filter (λ t, tag_counter t = k) l).
  { intros k l. apply (sort_by_stable tag_counter).
    - intros a b Hab%Nat.leb_le. done.
    - intros a b Hab. apply Nat.leb_le. lia. }
  destruct (length ts <? 2) eqn:Hshort.
  { destruct (short_list ts Hshort) as [->|[x ->]];
      (split; [done|]; split; [done|]; split; [|done]);
      destruct fixed; repeat constructor. }
  destruct fixed, ts as [|first_tag others]; cbn [tail head].
  - done.
  - split; [apply Permutation_skip, (sort_by_perm _)|]. split; [done|].
    split; [|intros k; apply Hstable]. apply sorted_by_count_order.
  - split; [done|]. split; [done|]. split; [constructor|done].
  - split; [apply (sort_by_perm _)|]. split; [done|]. split; [|intros k; apply Hstable].
    apply sorted_by_count_order.
Qed.

Lemma sort_tags_by_frequency_orders_the_tags_witness :
  let m := loaded ", " [("1.png", ["owl"; "dog"; "cat"; "emu"]); ("2.png", ["bird"])] in
  let tag_counter := λ t, if String.eqb t "cat" then 5 else if String.eqb t "owl" then 2
                          else if String.eqb t "emu" then 2 else 1 in
  well_formed m ∧
  row_tags (final (sort_tags_by_frequency tag_counter false m)) 0
  = ["cat"; "owl"; "emu"; "dog"] ∧
  StronglySorted (λ a b, tag_counter b ≤ tag_counter a)
    (row_tags (final (sort_tags_by_frequency tag_counter false m)) 0).
Proof.
  intros m tag_counter.
  assert (Hwf : well_formed m) by apply loaded_well_formed.
  destruct (sort_tags_by_frequency_orders_the_tags tag_counter false m Hwf) as [_ H].
  destruct (H 0 ltac:(simpl; lia)) as (_ & _ & H3 & _).
  split; [exact Hwf|]. split; [by vm_compute|exact H3].
Defined.

(** X14.  Running one of the two sorts, the two removals, [delete_tag] or
    [rename_tag] to another tag a second time, right after the first,
    finds nothing to do: no image is counted, written or notified, and
    every image keeps its tags.  (The second call still pushes its
    snapshot.) *)
Theorem second_run_changes_nothing op m :
  well_formed m → idempotent op = true →
  let m1 := perform op m in
  outcome (run op m1) = returned ∧
  changed_image_indices (run op m1) = [] ∧
  tag_state (perform op m1) = tag_state m1 ∧
  saved_paths (effects_since m1 (perform op m1)) = [] ∧
  notifications (effects_since m1 (perform op m1)) = [] ∧
  length (undo_stack (perform op m1)) = S (length (undo_stack m1)) `min` 32.
Proof.
  intros Hwf Hidem m1.
  assert (Hsnap : takes_snapshot op = true) by (by destruct op).
  assert (Hadd : is_add_tags op = false) by (by destruct op).
  assert (Hmain : outcome (run op m1) = returned ∧
                  changed_image_indices (run op m1) = [] ∧
                  tag_state (perform op m1) = tag_state m1).
  { unfold m1, perform.
    destruct op as [old_tag new_tag only visible|tag only visible| |fixed
                   |tag_counter fixed| | | |]; try done; cbn [run].
    - apply bulk_edit_twice; [apply rename_body_total| |done].
      apply rename_body_settled. simpl in Hidem. by apply bool_decide_eq_true in Hidem.
    - apply bulk_edit_twice; [apply delete_body_total|apply delete_body_settled|done].
    - unfold sort_tags_alphabetically.
      destruct (bulk_edit_total "Sort Tags" (sort_body (separator m) sorted fixed) m
                  (sort_body_total _ _ _) Hwf) as (_ & _ & -> & _).
      apply bulk_edit_twice; [apply sort_body_total| |done].
      apply sort_body_settled.
      + intros l. apply sort_by_twice, String.leb_total.
      + intros l. apply Permutation_length, sort_by_perm.
    - unfold sort_tags_by_frequency.
      destruct (bulk_edit_total "Sort Tags"
                  (sort_body (separator m) (sorted_by_count tag_counter) fixed) m
                  (sort_body_total _ _ _) Hwf) as (_ & _ & -> & _).
      apply bulk_edit_twice; [apply sort_body_total| |done].
      apply sort_body_settled.
      + intros l. apply sort_by_twice. intros a b. rewrite !Nat.leb_le. lia.
      + intros l. apply Permutation_length, sort_by_perm.
    - apply bulk_edit_twice;
        [apply remove_duplicate_body_total|apply remove_duplicate_body_settled|done].
    - apply bulk_edit_twice;
        [apply remove_empty_body_total|apply remove_empty_body_settled|done]. }
  destruct Hmain as (Hout & Hchanged & Hts).
  destruct (run_observed op m1 Hadd Hout) as (Hsaved & Hnote & _).
  rewrite Hchanged in Hsaved, Hnote.
  do 3 (split; [done|]). split; [done|]. split; [done|].
  destruct (run_undo_stack op m1 Hsnap) as [-> _].
  unfold deque_append. rewrite length_drop, length_app. simpl.
  unfold UNDO_STACK_SIZE. lia.
Qed.

Lemma second_run_changes_nothing_witness :
  let m := loaded ", " [("1.png", ["owl"; "dog"; "owl"]); ("2.png", ["bird"])] in
  let op := RemoveDuplicateTags in
  well_formed m ∧ idempotent op = true ∧
  changed_image_indices (run op m) = [0] ∧
  changed_image_indices (run op (perform op m)) = [] ∧
  tag_state (perform op (perform op m)) = [["owl"; "dog"]; ["bird"]].
Proof.
  intros m op.
  assert (Hwf : well_formed m) by apply loaded_well_formed.
  destruct (second_run_changes_nothing op m Hwf eq_refl) as (_ & H2 & H3 & _).
  split; [exact Hwf|]. split; [done|]. split; [by vm_compute|].
  split; [exact H2|]. rewrite H3. by vm_compute.
Defined.

(** X15.  [remove_duplicate_tags] leaves every image with the first
    occurrence of each of its tags, in the order they had: no tag twice,
    no tag lost, none added.  The count it returns is the number of tags
    the images lost. *)
Theorem remove_duplicate_tags_keeps_first_occurrences m :
  well_formed m →
  let r := remove_duplicate_tags m in
  outcome r = returned ∧
  (∀ row, row < length (images m) →
     let before := row_tags m row in
     let after := row_tags (final r) row in
     after = dict_fromkeys before ∧
     NoDup after ∧ (∀ tag, tag ∈ after ↔ tag ∈ before) ∧
     after `sublist_of` before) ∧
  removed_tag_count r
  = sum_list ((λ row, length (row_tags m row) - length (row_tags (final r) row))
              <$> seq 0 (length (images m))).
Proof.
  intros Hwf r.
  destruct (bulk_edit_total "Remove Duplicate Tags" remove_duplicate_body m
              remove_duplicate_body_total Hwf) as (Hout & _ & _ & _ & Hrows & _).
  destruct (bulk_edit_written "Remove Duplicate Tags" remove_duplicate_body m
              remove_duplicate_body_total Hwf) as [Hcount _].
  fold (remove_duplicate_tags m) in Hout, Hrows, Hcount. fold r in Hout, Hrows, Hcount.
  assert (Hres : ∀ row, row < length (images m) →
            row_tags (final r) row = dict_fromkeys (row_tags m row)).
  { intros row Hrow. rewrite (Hrows row Hrow). apply remove_duplicate_row. }
  split; [done|]. split.
  - intros row Hrow before after. unfold after. rewrite (Hres row Hrow).
    split; [done|]. split; [apply NoDup_dict_fromkeys|].
    split; [intros tag; apply elem_of_dict_fromkeys|apply dict_fromkeys_sublist].
  - rewrite Hcount. apply sum_list_ext. intros row Hrow%elem_of_seq.
    unfold visit_at. rewrite remove_duplicate_removed, Hres by lia. done.
Qed.

Lemma remove_duplicate_tags_keeps_first_occurrences_witness :
  let m := loaded ", " [("1.png", ["owl"; "dog"; "owl"; "dog"; "cat"]);
                        ("2.png", ["bird"; "bird"])] in
  well_formed m ∧
  tag_state (final (remove_duplicate_tags m)) = [["owl"; "dog"; "cat"]; ["bird"]] ∧
  removed_tag_count (remove_duplicate_tags m) = 3.
Proof.
  intros m.
  assert (Hwf : well_formed m) by apply loaded_well_formed.
  destruct (remove_duplicate_tags_keeps_first_occurrences m Hwf) as (_ & _ & H3).
  split; [exact Hwf|]. split; [by vm_compute|]. rewrite H3. by vm_compute.
Defined.

(** X16.  [remove_empty_tags] leaves every image with its tags that hold
    a character other than white space, in their order, and drops the
    others.  The count it returns is the number of tags the images
    lost. *)
Theorem remove_empty_tags_drops_the_blank_tags m :
  well_formed m →
  let r := remove_empty_tags m in
  outcome r = returned ∧
  (∀ row, row < length (images m) →
     row_tags (final r) row
     = filter (λ tag, strip tag ≠ EmptyString) (row_tags m row)) ∧
  removed_tag_count r
  = sum_list ((λ row, length (row_tags m row) - length (row_tags (final r) row))
              <$> seq 0 (length (images m))).
Proof.
  intros Hwf r.
  destruct (bulk_edit_total "Remove Empty Tags" remove_empty_body m
              remove_empty_body_total Hwf) as (Hout & _ & _ & _ & Hrows & _).
  destruct (bulk_edit_written "Remove Empty Tags" remove_empty_body m
              remove_empty_body_total Hwf) as [Hcount _].
  fold (remove_empty_tags m) in Hout, Hrows, Hcount. fold r in Hout, Hrows, Hcount.
  assert (Hres : ∀ row, row < length (images m) →
            row_tags (final r) row
            = filter (λ tag, truthy (strip tag) = true) (row_tags m row)).
  { intros row Hrow. rewrite (Hrows row Hrow). apply remove_empty_row. }
  split; [done|]. split.
  - intros row Hrow. rewrite (Hres row Hrow). apply filter_ext_in.
    intros tag _. by destruct (strip tag).
  - rewrite Hcount. apply sum_list_ext. intros row Hrow%elem_of_seq.
    unfold visit_at. rewrite remove_empty_removed, Hres by lia. done.
Qed.

Lemma remove_empty_tags_drops_the_blank_tags_witness :
  let m := loaded ", " [("1.png", ["owl"; "  "; ""; " dog "]); ("2.png", [""])] in
  well_formed m ∧
  tag_state (final (remove_empty_tags m)) = [["owl"; " dog "]; []] ∧
  removed_tag_count (remove_empty_tags m) = 3.
Proof.
  intros m.
  assert (Hwf : well_formed m) by apply loaded_well_formed.
  destruct (remove_empty_tags_drops_the_blank_tags m Hwf) as (_ & _ & H3).
  split; [exact Hwf|]. split; [by vm_compute|]. rewrite H3. by vm_compute.
Defined.

(** X17.  [add_tags] appends to every target image, after the tags it
    has, those of the new tags it does not have yet, in the order given;
    the other images keep their tags.  So afterwards every target holds
    every new tag, no tag an image had is lost or moved, and a target
    named twice gets the tags once. *)
Theorem add_tags_appends_the_missing_tags new_tags image_indices m :
  well_formed m → image_indices ≠ [] →
  (∀ row, row ∈ image_indices → row < length (images m)) →
  let r := add_tags new_tags image_indices m in
  r.2 = returned ∧
  ∀ row, row < length (images m) →
    (row ∈ image_indices →
     row_tags r.1 row
     = row_tags m row ++ filter (λ tag, tag ∉ row_tags m row) new_tags ∧
     ∀ tag, tag ∈ new_tags → tag ∈ row_tags r.1 row) ∧
    (row ∉ image_indices → row_tags r.1 row = row_tags m row) ∧
    row_tags m row `prefix_of` row_tags r.1 row.
Proof.
  intros Hwf Hne Hbound r.
  destruct (add_tags_rows new_tags image_indices m Hwf Hne Hbound)
    as (Hout & Hrows & _). fold r in Hout, Hrows.
  split; [done|]. intros row Hrow. rewrite (Hrows row Hrow).
  split; [|split].
  - intros Hin. rewrite decide_True by done. split; [done|].
    intros tag Htag. apply elem_of_extended. by right.
  - intros Hnin. by rewrite decide_False.
  - case_decide; [by apply prefix_app_r|done].
Qed.

Lemma add_tags_appends_the_missing_tags_witness :
  let m := loaded ", " [("1.png", ["cat"; "dog"]); ("2.png", ["bird"]); ("3.png", [])] in
  let r := add_tags ["owl"; "dog"; "emu"] [2; 0; 2] m in
  well_formed m ∧ [2; 0; 2] ≠ [] ∧
  (∀ row, row ∈ [2; 0; 2] → row < length (images m)) ∧
  r.2 = returned ∧
  tag_state r.1 = [["cat"; "dog"; "owl"; "emu"]; ["bird"]; ["owl"; "dog"; "emu"]] ∧
  row_tags m 0 `prefix_of` row_tags r.1 0.
Proof.
  intros m r.
  assert (Hwf : well_formed m) by apply loaded_well_formed.
  assert (Hb : ∀ row, row ∈ [2; 0; 2] → row < length (images m)).
  { intros row Hrow. simpl.
    repeat (apply elem_of_cons in Hrow as [->|Hrow]; [lia|]).
    by apply elem_of_nil in Hrow. }
  destruct (add_tags_appends_the_missing_tags ["owl"; "dog"; "emu"] [2; 0; 2] m
              Hwf ltac:(done) Hb) as [H1 H2].
  split; [exact Hwf|]. split; [done|]. split; [exact Hb|]. split; [exact H1|].
  split; [by vm_compute|]. exact (proj2 (proj2 (H2 0 ltac:(simpl; lia)))).
Defined.

(** X18.  Write-through: every caption an operation writes to disk is the
    caption of the tags that image has when the operation returns.  So
    after a call in which no write fails, the file of every image written
    agrees with the tags in memory. *)
Theorem writes_carry_the_final_captions op m :
  well_formed m → separator m ≠ EmptyString → outcome (run op m) = returned →
  Forall (λ pc, ∃ row, row < length (images m) ∧
                       pc = (row_path m row, row_caption (perform op m) row))
         (save_attempts (effects_since m (perform op m))).
Proof.
  intros Hwf Hsep Hout. unfold perform.
  destruct op as [old_tag new_tag only visible|tag only visible|new_tags image_indices
                 |fixed|tag_counter fixed|random_shuffle fixed| |
                 |find_text replace_text only visible]; cbn [run] in *.
  - apply bulk_edit_captions; [apply rename_body_total|done].
  - apply bulk_edit_captions; [apply delete_body_total|done].
  - destruct (add_tags new_tags image_indices m) as [m' out] eqn:Hadd.
    simpl in *. subst out.
    pose proof (add_tags_returned new_tags image_indices m) as Hret.
    rewrite Hadd in Hret. destruct (Hret eq_refl) as [Hne Hb].
    destruct (add_tags_rows new_tags image_indices m Hwf Hne Hb)
      as (_ & _ & _ & _ & Hw).
    rewrite Hadd in Hw. simpl in Hw. rewrite Hw.
    apply Forall_fmap, list.Forall_forall. intros row Hrow.
    exists row. split; [by apply Hb|done].
  - apply bulk_edit_captions; [apply sort_body_total|done].
  - apply bulk_edit_captions; [apply sort_body_total|done].
  - apply bulk_edit_captions; [apply shuffle_body_total|done].
  - apply bulk_edit_captions; [apply remove_duplicate_body_total|done].
  - apply bulk_edit_captions; [apply remove_empty_body_total|done].
  - unfold find_and_replace in *. destruct find_text as [|c t]; simpl negb; cbv iota.
    + simpl. unfold effects_since. by rewrite drop_all.
    + apply bulk_edit_captions; [by apply find_and_replace_body_total|done].
Qed.

Lemma writes_carry_the_final_captions_witness :
  let m := loaded ", " [("1.png", ["owl"; "dog"]); ("2.png", ["bird"])] in
  let op := SortTagsAlphabetically false in
  well_formed m ∧ separator m ≠ EmptyString ∧ outcome (run op m) = returned ∧
  save_attempts (effects_since m (perform op m)) = [("1.png", "dog, owl")] ∧
  Forall (λ pc, ∃ row, row < 2 ∧
                       pc = (row_path m row, row_caption (perform op m) row))
         (save_attempts (effects_since m (perform op m))).
Proof.
  intros m op.
  assert (Hwf : well_formed m) by apply loaded_well_formed.
  split; [exact Hwf|]. split; [done|]. split; [done|]. split; [by vm_compute|].
  exact (writes_carry_the_final_captions op m Hwf ltac:(done) eq_refl).
Defined.

(** X19.  [shuffle_tags] leaves images with fewer than two tags as they
    are and gives every other image the order [random.shuffle] produces;
    as that is a permutation, every image keeps its tags, each as often
    as before.  With the first tag kept, the first tag stays in front
    whatever the shuffle does. *)
Theorem shuffle_tags_permutes_the_tags random_shuffle (fixed : bool) m :
  well_formed m →
  (∀ row l, random_shuffle row l ≡ₚ l) →
  let r := shuffle_tags random_shuffle fixed m in
  outcome r = returned ∧
  ∀ row, row < length (images m) →
    row_tags (final r) row ≡ₚ row_tags m row ∧
    (fixed = true → head (row_tags (final r) row) = head (row_tags m row)) ∧
    (length (row_tags m row) < 2 → row_tags (final r) row = row_tags m row).
Proof.
  intros Hwf Hperm r.
  destruct (bulk_edit_total "Shuffle Tags" (shuffle_body random_shuffle fixed) m
              (shuffle_body_total _ _) Hwf) as (Hout & _ & _ & _ & Hrows & _).
  split; [exact Hout|]. intros row Hrow. unfold r, shuffle_tags.
  rewrite (Hrows row Hrow). unfold visit_at. rewrite shuffle_row.
  set (ts := row_tags m row).
  destruct (length ts <? 2) eqn:Hshort; [done|].
  apply Nat.ltb_ge in Hshort.
  destruct fixed, ts as [|first_tag others]; cbn [head];
    try (simpl in Hshort; lia).
  - split; [apply Permutation_skip, Hperm|]. split; [done|]. lia.
  - split; [apply Hperm|]. split; [done|]. lia.
Qed.

Lemma shuffle_tags_permutes_the_tags_witness :
  let m := loaded ", " [("1.png", ["owl"; "dog"; "cat"]); ("2.png", ["bird"])] in
  let random_shuffle := λ (_ : nat) (l : list string), rev l in
  well_formed m ∧ (∀ row l, random_shuffle row l ≡ₚ l) ∧
  tag_state (final (shuffle_tags random_shuffle true m))
  = [["owl"; "cat"; "dog"]; ["bird"]] ∧
  row_tags (final (shuffle_tags random_shuffle true m)) 0 ≡ₚ row_tags m 0.
Proof.
  intros m random_shuffle.
  assert (Hwf : well_formed m) by apply loaded_well_formed.
  assert (Hp : ∀ row l, random_shuffle row l ≡ₚ l).
  { intros row l. apply Permutation_sym, Permutation_rev. }
  destruct (shuffle_tags_permutes_the_tags random_shuffle true m Hwf Hp) as [_ H].
  split; [exact Hwf|]. split; [exact Hp|]. split; [by vm_compute|].
  exact (proj1 (H 0 ltac:(simpl; lia))).
Defined.



(** X21.  [find_and_replace] leaves every image in scope whose caption
    holds the find text with exactly the caption in which the text is
    replaced: splitting on the separator and joining again loses nothing;
    every other image keeps its caption. *)
Theorem find_and_replace_leaves_the_replaced_caption
    find_text replace_text only visible m :
  well_formed m → separator m ≠ EmptyString → find_text ≠ EmptyString →
  let r := find_and_replace find_text replace_text only visible m in
  outcome r = returned ∧
  ∀ row, row < length (images m) →
    row_caption (final r) row
    = if negb (filtered_out only visible (row_path m row) (row_tags m row))
         && contains find_text (row_caption m row)
      then replace find_text replace_text (row_caption m row)
      else row_caption m row.
Proof.
  intros Hwf Hsep Hfind r. unfold r, find_and_replace.
  destruct find_text as [|c t]; [done|]. simpl negb. cbv iota.
  set (find_text := String c t).
  destruct (bulk_edit_total "Find and Replace"
              (find_and_replace_body (separator m) find_text replace_text
                 only visible) m
              (find_and_replace_body_total _ _ _ _ _ Hsep) Hwf)
    as (Hout & _ & Hs & _ & Hrows & _).
  split; [done|]. intros row Hrow. unfold row_caption at 1.
  rewrite Hs, (Hrows row Hrow). by apply find_and_replace_row.
Qed.

Lemma find_and_replace_leaves_the_replaced_caption_witness :
  let m := loaded ", " [("1.png", ["a cat"; "catfish"]); ("2.png", ["bird"])] in
  let r := find_and_replace "t, c" ", " false all_images m in
  well_formed m ∧ separator m ≠ EmptyString ∧ "t, c" ≠ EmptyString ∧
  row_caption m 0 = "a cat, catfish" ∧
  row_caption (final r) 0 = "a ca, atfish" ∧
  row_caption (final r) 1 = "bird".
Proof.
  intros m r.
  assert (Hwf : well_formed m) by apply loaded_well_formed.
  destruct (find_and_replace_leaves_the_replaced_caption "t, c" ", " false
              all_images m Hwf ltac:(done) ltac:(done)) as [_ H].
  split; [exact Hwf|]. split; [done|]. split; [done|]. split; [done|].
  split; [exact (H 0 ltac:(simpl; lia))|exact (H 1 ltac:(simpl; lia))].
Defined.

(** X22.  [find_and_replace] replaces what [get_text_match_count] counts.
    The count within captions is the sum, over the images in scope, of
    the matches in each caption; and an image with [k] matches ends with
    a caption that is [k] find texts shorter and [k] replacement texts
    longer, in bytes of UTF-8, than the one it had. *)
Theorem every_counted_match_is_replaced find_text replace_text only visible m :
  well_formed m → separator m ≠ EmptyString → find_text ≠ EmptyString →
  let r := find_and_replace find_text replace_text only visible m in
  let matches := λ row, str_count find_text (row_caption m row) in
  let in_scope := λ row,
    negb (filtered_out only visible (row_path m row) (row_tags m row)) in
  get_text_match_count find_text only visible false m
  = sum_list ((λ row, if in_scope row then matches row else 0)
              <$> seq 0 (length (images m))) ∧
  ∀ row, row < length (images m) → in_scope row = true →
    String.length (row_caption (final r) row)
    + matches row * String.length find_text
    = String.length (row_caption m row)
      + matches row * String.length replace_text.
Proof.
  intros Hwf Hsep Hfind r matches in_scope. split.
  - rewrite get_text_match_count_rows. apply sum_list_ext. intros row _.
    unfold matches_in, in_scope, matches, row_caption.
    by destruct (filtered_out _ _ _ _).
  - intros row Hrow Hscope.
    assert (Hcap : row_caption (final r) row
                   = if in_scope row && contains find_text (row_caption m row)
                     then replace find_text replace_text (row_caption m row)
                     else row_caption m row).
    { unfold r, find_and_replace. destruct find_text as [|c t]; [done|].
      simpl negb. cbv iota.
      destruct (bulk_edit_total "Find and Replace"
                  (find_and_replace_body (separator m) (String c t) replace_text
                     only visible) m
                  (find_and_replace_body_total _ _ _ _ _ Hsep) Hwf)
        as (_ & _ & Hs & _ & Hrows & _).
      unfold row_caption at 1. rewrite Hs, (Hrows row Hrow).
      by apply find_and_replace_row. }
    rewrite Hcap, Hscope.
    simpl andb. unfold matches.
    pose proof (replace_from_length find_text replace_text Hfind
                  (row_caption m row) 0) as Hlen.
    assert (Hcount : str_count find_text (row_caption m row)
                     = count_from find_text 0 (row_caption m row))
      by (by destruct find_text).
    destruct (contains find_text (row_caption m row)) eqn:Hc.
    + unfold replace. rewrite Hcount. simpl in Hlen. lia.
    + rewrite (proj2 (str_count_zero _ _ Hfind) Hc). lia.
Qed.

Lemma every_counted_match_is_replaced_witness :
  let m := loaded ", " [("1.png", ["a cat"; "catfish"; "cat"]); ("2.png", ["bird"])] in
  let r := find_and_replace "cat" "lynx" false all_images m in
  well_formed m ∧ separator m ≠ EmptyString ∧ "cat" ≠ EmptyString ∧
  get_text_match_count "cat" false all_images false m = 3 ∧
  row_caption (final r) 0 = "a lynx, lynxfish, lynx" ∧
  String.length (row_caption (final r) 0) + 3 * 3
  = String.length (row_caption m 0) + 3 * 4.
Proof.
  intros m r.
  assert (Hwf : well_formed m) by apply loaded_well_formed.
  destruct (every_counted_match_is_replaced "cat" "lynx" false all_images m
              Hwf ltac:(done) ltac:(done)) as [H1 H2].
  split; [exact Hwf|]. split; [done|]. split; [done|].
  split; [by vm_compute|]. split; [by vm_compute|].
  exact (H2 0 ltac:(simpl; lia) eq_refl).
Defined.

(** X23.  Every operation that takes its snapshot first emits
    [update_undo_and_redo_actions_requested], then does its writes, a
    failed one followed by its error box, and only then emits
    [dataChanged], once at most and not at all when it raises: the view
    is told of a change after the files are written. *)
Theorem operations_notify_after_writing op m :
  takes_snapshot op = true →
  ∃ attempts ranges,
    effects_since m (perform op m)
    = update_undo_and_redo_actions_requested
      :: save_log attempts ++ ((λ r, dataChanged r.1 r.2) <$> ranges) ∧
    length ranges ≤ 1 ∧ (outcome (run op m) ≠ returned → ranges = []).
Proof.
  intros Hs. unfold perform.
  destruct op as [old_tag new_tag only visible|tag only visible|new_tags image_indices
                 |fixed|tag_counter fixed|random_shuffle fixed| |
                 |find_text replace_text only visible]; cbn [run];
    try apply bulk_edit_order.
  - pose proof (add_tags_order new_tags image_indices m) as H. cbv zeta in H.
    by destruct (add_tags new_tags image_indices m) as [m' out].
  - unfold find_and_replace. simpl in Hs. rewrite Hs. apply bulk_edit_order.
Qed.

Lemma operations_notify_after_writing_witness :
  let m := with_os_errors [true]
             (loaded ", " [("1.png", ["owl"; "dog"]); ("2.png", ["emu"; "cat"])]) in
  let op := SortTagsAlphabetically false in
  takes_snapshot op = true ∧
  effects_since m (perform op m)
  = [update_undo_and_redo_actions_requested;
     write_text "1.png" "dog, owl" false;
     error_message_box "Failed to save tags for 1.png.";
     write_text "2.png" "cat, emu" true;
     dataChanged 0 1] ∧
  ∃ attempts ranges,
    effects_since m (perform op m)
    = update_undo_and_redo_actions_requested
      :: save_log attempts ++ ((λ r, dataChanged r.1 r.2) <$> ranges).
Proof.
  intros m op. split; [done|]. split; [by vm_compute|].
  destruct (operations_notify_after_writing op m eq_refl)
    as (attempts & ranges & H & _).
  by exists attempts, ranges.
Defined.
